(** * flux-ci: the CI file parser and evaluator (flux/cifile.py)

    A shallow embedding of [CiFile]: the normalisation passes run by
    [_parse_cidict], the run preparation of [prepare_run_with]
    ([_pipeline_add_buildinfo], [_evaluate_jobs], [_assign_ids]) and the
    two accessors [get_cidict] and [convert_to_matrix].

    Python values are a tagged union; dictionaries keep insertion order
    (association lists); every operation that can raise returns a
    [result].  Strings are byte strings ([String.string]) and case
    folding acts on ASCII letters. *)

From Stdlib Require Import String Ascii ZArith List Bool Arith Lia DecimalString FinFun.
Import ListNotations.
Local Open Scope string_scope.
Local Open Scope list_scope.

(* ================================================================== *)
(** ** Python values, exceptions and the built-in operations used      *)
(* ================================================================== *)

Module Py.

(** The exceptions the modelled code can raise. *)
Inductive exn :=
| TypeError | KeyError | AttributeError | IndexError | ValueError | RecursionError.

Inductive result (A : Type) : Type :=
| Ok (a : A)
| Raise (e : exn).

Arguments Ok {A} a.
Arguments Raise {A} e.

Definition bind {A B : Type} (m : result A) (k : A -> result B) : result B :=
  match m with
  | Ok a => k a
  | Raise e => Raise e
  end.

Notation "x <- m ;; k" := (bind m (fun x => k))
  (at level 61, m at next level, right associativity).
Notation "' pat <- m ;; k" := (bind m (fun x => match x with pat => k end))
  (at level 61, pat pattern, m at next level, right associativity).

Definition is_ok {A : Type} (m : result A) : bool :=
  match m with Ok _ => true | Raise _ => false end.

(** [for x in xs: acc = f(acc, x)], stopping at the first exception. *)
Fixpoint foldM {A S : Type} (f : S -> A -> result S) (xs : list A) (s : S) : result S :=
  match xs with
  | [] => Ok s
  | x :: xs' => s' <- f s x ;; foldM f xs' s'
  end.

(** A loop that rewrites each element in place. *)
Fixpoint mapM {A B : Type} (f : A -> result B) (xs : list A) : result (list B) :=
  match xs with
  | [] => Ok []
  | x :: xs' => y <- f x ;; ys <- mapM f xs' ;; Ok (y :: ys)
  end.

(** Dictionary keys.  A [bool] key is the [int] key 0 or 1 (Python hashes
    and compares them as equal); other hashable keys are not modelled. *)
Inductive key :=
| KStr (s : string)
| KInt (z : Z)
| KNone.

Definition key_eqb (a b : key) : bool :=
  match a, b with
  | KStr s, KStr t => String.eqb s t
  | KInt x, KInt y => Z.eqb x y
  | KNone, KNone => true
  | _, _ => false
  end.

(** An insertion-ordered dictionary. *)
Definition dict (V : Type) := list (key * V).

Fixpoint dict_get {V : Type} (k : key) (d : dict V) : option V :=
  match d with
  | [] => None
  | (k', v) :: d' => if key_eqb k k' then Some v else dict_get k d'
  end.

Definition dict_mem {V : Type} (k : key) (d : dict V) : bool :=
  match dict_get k d with Some _ => true | None => false end.

(** [d[k] = v]: an existing key keeps its place, a new key goes last. *)
Fixpoint dict_set {V : Type} (k : key) (v : V) (d : dict V) : dict V :=
  match d with
  | [] => [(k, v)]
  | (k', v') :: d' =>
      if key_eqb k k' then (k', v) :: d' else (k', v') :: dict_set k v d'
  end.

(** [del d[k]] / [d.pop(k)] on a key that is present. *)
Definition dict_del {V : Type} (k : key) (d : dict V) : dict V :=
  filter (fun kv => negb (key_eqb k (fst kv))) d.

Definition dict_keys {V : Type} (d : dict V) : list key := map fst d.

#[local] Set Warnings "-register-all".

(** A parsed YAML document.  A float is kept as the text [str()] prints
    for it, the only thing the code ever asks of a float besides its type
    and truth value. *)
Inductive value :=
| VNone
| VBool (b : bool)
| VInt (z : Z)
| VFloat (repr : string)
| VStr (s : string)
| VList (items : list value)
| VDict (items : list (key * value)).

Definition is_dict (v : value) : bool :=
  match v with VDict _ => true | _ => false end.

Definition is_list (v : value) : bool :=
  match v with VList _ => true | _ => false end.

Definition is_str (v : value) : bool :=
  match v with VStr _ => true | _ => false end.

Definition str_of_int (z : Z) : string := NilZero.string_of_int (Z.to_int z).

(** [str(v)] where [isinstance(v, (str, int, bool, float))]; [None] for
    the other values, whose [str()] the code never takes. *)
Definition py_str (v : value) : option string :=
  match v with
  | VStr s => Some s
  | VInt z => Some (str_of_int z)
  | VBool true => Some "True"
  | VBool false => Some "False"
  | VFloat r => Some r
  | _ => None
  end.

(** Truth value of a Python object. *)
Definition truthy (v : value) : bool :=
  match v with
  | VNone => false
  | VBool b => b
  | VInt z => negb (Z.eqb z 0)
  | VFloat r => negb (String.eqb r "0.0" || String.eqb r "-0.0")
  | VStr s => negb (String.eqb s "")
  | VList l => match l with [] => false | _ => true end
  | VDict d => match d with [] => false | _ => true end
  end.

Definition key_value (k : key) : value :=
  match k with
  | KStr s => VStr s
  | KInt z => VInt z
  | KNone => VNone
  end.

(** [hash(v)]: lists and dicts are unhashable; floats never equal a key
    of the model. *)
Definition value_key (v : value) : result (option key) :=
  match v with
  | VStr s => Ok (Some (KStr s))
  | VInt z => Ok (Some (KInt z))
  | VBool b => Ok (Some (KInt (if b then 1 else 0)))
  | VNone => Ok (Some KNone)
  | VFloat _ => Ok None
  | VList _ | VDict _ => Raise TypeError
  end.

(** *** Strings *)

Definition startswith (s p : string) : bool := String.prefix p s.

(** [needle in hay] for two strings. *)
Fixpoint str_contains (needle hay : string) : bool :=
  String.prefix needle hay ||
  match hay with
  | EmptyString => false
  | String _ rest => str_contains needle rest
  end.

Fixpoint chars (s : string) : list string :=
  match s with
  | EmptyString => []
  | String c rest => String c EmptyString :: chars rest
  end.

Definition is_upper (c : ascii) : bool :=
  let n := nat_of_ascii c in (65 <=? n)%nat && (n <=? 90)%nat.

Definition is_lower (c : ascii) : bool :=
  let n := nat_of_ascii c in (97 <=? n)%nat && (n <=? 122)%nat.

Definition is_digit (c : ascii) : bool :=
  let n := nat_of_ascii c in (48 <=? n)%nat && (n <=? 57)%nat.

Definition lower_char (c : ascii) : ascii :=
  if is_upper c then ascii_of_nat (nat_of_ascii c + 32) else c.

(** [s.lower()], on the UTF-8 bytes of [s].  The letters A to Z become
    a to z.  Two characters outside ASCII have a lowercase with an ASCII
    letter in it: U+0130 (bytes 196 176) becomes i and U+0307 (bytes
    204 135), and U+212A, the Kelvin sign (bytes 226 132 170), becomes
    k.  Every other character outside ASCII has a lowercase outside
    ASCII; its bytes are kept as they are, which is all that the one
    user of [lower], the slug, can tell of them. *)
Fixpoint lower (s : string) : string :=
  match s with
  | EmptyString => EmptyString
  | String c rest =>
      let plain := String (lower_char c) (lower rest) in
      match rest with
      | String c1 rest1 =>
          if Ascii.eqb c "196" && Ascii.eqb c1 "176"
          then String "i" (String "204" (String "135" (lower rest1)))
          else match rest1 with
               | String c2 rest2 =>
                   if Ascii.eqb c "226" && Ascii.eqb c1 "132" && Ascii.eqb c2 "170"
                   then String "k" (lower rest2)
                   else plain
               | EmptyString => plain
               end
      | EmptyString => plain
      end
  end.

(** [s[:n]], for a text within ASCII. *)
Fixpoint take (n : nat) (s : string) : string :=
  match n, s with
  | S n', String c rest => String c (take n' rest)
  | _, _ => EmptyString
  end.

Fixpoint lstrip (drop : ascii -> bool) (s : string) : string :=
  match s with
  | EmptyString => EmptyString
  | String c rest => if drop c then lstrip drop rest else s
  end.

Fixpoint rstrip (drop : ascii -> bool) (s : string) : string :=
  match s with
  | EmptyString => EmptyString
  | String c rest =>
      match rstrip drop rest with
      | EmptyString => if drop c then EmptyString else String c EmptyString
      | r => String c r
      end
  end.

(** [s.strip(chars)] *)
Definition strip (drop : ascii -> bool) (s : string) : string :=
  rstrip drop (lstrip drop s).

(** The characters [str.strip()] removes when called without argument. *)
Definition is_space (c : ascii) : bool :=
  let n := nat_of_ascii c in
  ((9 <=? n)%nat && (n <=? 13)%nat) || ((28 <=? n)%nat && (n <=? 32)%nat).

Definition is_char (x : ascii) (c : ascii) : bool := Ascii.eqb x c.

(** Every character of [s] satisfies [p]. *)
Fixpoint all_chars (p : ascii -> bool) (s : string) : bool :=
  match s with
  | EmptyString => true
  | String c rest => p c && all_chars p rest
  end.

(** *** Containers *)

Definition value_is_str (s : string) (v : value) : bool :=
  match v with VStr t => String.eqb s t | _ => false end.

(** [s in obj] for a string [s] and any object: key lookup in a dict,
    membership in a list, substring test in a string. *)
Definition str_in (s : string) (obj : value) : result bool :=
  match obj with
  | VDict d => Ok (dict_mem (KStr s) d)
  | VList l => Ok (existsb (value_is_str s) l)
  | VStr t => Ok (str_contains s t)
  | _ => Raise TypeError
  end.

(** [obj[s]] for a string [s]. *)
Definition getitem (obj : value) (s : string) : result value :=
  match obj with
  | VDict d => match dict_get (KStr s) d with
               | Some v => Ok v
               | None => Raise KeyError
               end
  | _ => Raise TypeError
  end.

(** [obj[s] = v] for a string [s]. *)
Definition setitem (obj : value) (s : string) (v : value) : result value :=
  match obj with
  | VDict d => Ok (VDict (dict_set (KStr s) v d))
  | _ => Raise TypeError
  end.

(** [obj[0]] *)
Definition getitem0 (obj : value) : result value :=
  match obj with
  | VList (x :: _) => Ok x
  | VList [] => Raise IndexError
  | VStr (String c _) => Ok (VStr (String c EmptyString))
  | VStr EmptyString => Raise IndexError
  | VDict d => match dict_get (KInt 0) d with
               | Some v => Ok v
               | None => Raise KeyError
               end
  | _ => Raise TypeError
  end.

(** [len(obj)] *)
Definition py_len (obj : value) : result nat :=
  match obj with
  | VList l => Ok (List.length l)
  | VDict d => Ok (List.length d)
  | VStr s => Ok (String.length s)
  | _ => Raise TypeError
  end.

(** [obj.append(v)] *)
Definition append (obj v : value) : result value :=
  match obj with
  | VList l => Ok (VList (l ++ [v]))
  | _ => Raise AttributeError
  end.

(** [obj.insert(0, v)] *)
Definition insert0 (obj v : value) : result value :=
  match obj with
  | VList l => Ok (VList (v :: l))
  | _ => Raise AttributeError
  end.

(** [for x in obj]: the elements of a list, the characters of a string,
    the keys of a dict. *)
Definition iter (obj : value) : result (list value) :=
  match obj with
  | VList l => Ok l
  | VStr s => Ok (map VStr (chars s))
  | VDict d => Ok (map key_value (dict_keys d))
  | _ => Raise TypeError
  end.

(** [obj.items()] *)
Definition items (obj : value) : result (dict value) :=
  match obj with
  | VDict d => Ok d
  | _ => Raise AttributeError
  end.

(** [a == b].  Numbers compare by value across [int] and [bool]; floats
    compare by their text and never equal an [int]; dicts compare as
    maps, whatever the order of their entries. *)
Fixpoint py_eq (a b : value) {struct a} : bool :=
  match a, b with
  | VNone, VNone => true
  | VBool x, VBool y => Bool.eqb x y
  | VInt x, VInt y => Z.eqb x y
  | VBool x, VInt y => Z.eqb (if x then 1 else 0) y
  | VInt x, VBool y => Z.eqb x (if y then 1 else 0)
  | VFloat r, VFloat s => String.eqb r s
  | VStr s, VStr t => String.eqb s t
  | VList l1, VList l2 =>
      (fix all2 (xs : list value) (ys : list value) {struct xs} : bool :=
         match xs, ys with
         | [], [] => true
         | x :: xs', y :: ys' => py_eq x y && all2 xs' ys'
         | _, _ => false
         end) l1 l2
  | VDict d1, VDict d2 =>
      Nat.eqb (List.length d1) (List.length d2) &&
      (fix sub (es : list (key * value)) {struct es} : bool :=
         match es with
         | [] => true
         | (k, v) :: es' =>
             match dict_get k d2 with
             | Some w => py_eq v w
             | None => false
             end && sub es'
         end) d1
  | _, _ => false
  end.

End Py.

(* ================================================================== *)
(** ** The CI file: keys, coercion helpers and normalisation passes    *)
(* ================================================================== *)

Module Ci.
Import Py.

Definition PIPELINEKEY_SERVICES := "services".
Definition PIPELINEKEY_IMAGE := "image".
Definition PIPELINEKEY_VARIABLES := "variables".
Definition PIPELINEKEY_STAGES := "stages".
Definition PIPELINEKEY_BEFORE_SCRIPT := "before_script".
Definition PIPELINEKEY_AFTER_SCRIPT := "after_script".

Definition JOBKEY_VARIABLES := PIPELINEKEY_VARIABLES.
Definition JOBKEY_ONLY := "only".
Definition JOBKEY_TAGS := "tags".
Definition JOBKEY_STAGE := "stage".
Definition JOBKEY_SCRIPT := "script".
Definition JOBKEY_ARTIFACTS := "artifacts".
Definition JOBKEY_DEPENDENCIES := "dependencies".
Definition JOBKEY_ARTIFACTS_NAME := "name".
Definition JOBKEY_ARTIFACTS_PATHS := "paths".
Definition JOBKEY_ARTIFACTS_EXPIRE_IN := "expire_in".
Definition JOBKEY_ONLY_VARIABLES := "variables".
Definition JOBKEY_ONLY_REFS := "refs".

Definition MATRIXKEY_STAGES := PIPELINEKEY_STAGES.
Definition MATRIXKEY_IMAGE := PIPELINEKEY_IMAGE.
Definition MATRIXKEY_JOBS := "jobs".

(** Reserved keys: the names no job may have. *)
Definition PIPELINES_KEYS : list string :=
  [PIPELINEKEY_STAGES; PIPELINEKEY_IMAGE; PIPELINEKEY_BEFORE_SCRIPT;
   PIPELINEKEY_AFTER_SCRIPT; PIPELINEKEY_VARIABLES; PIPELINEKEY_SERVICES].

(** [jobname not in PIPELINES_KEYS] *)
Definition is_jobname (jobname : key) : bool :=
  match jobname with
  | KStr s => negb (existsb (String.eqb s) PIPELINES_KEYS)
  | _ => true
  end.

(** The per-project id source; the lock only matters between threads. *)
Record IdGenerator := mkIdGenerator {
  _last_job_id : Z;
  _last_pipeline_id : Z
}.

Definition next_pipeline_id (g : IdGenerator) : Z * IdGenerator :=
  let n := (_last_pipeline_id g + 1)%Z in
  (n, mkIdGenerator (_last_job_id g) n).

Definition next_job_id (g : IdGenerator) : Z * IdGenerator :=
  let n := (_last_job_id g + 1)%Z in
  (n, mkIdGenerator n (_last_pipeline_id g)).

Record CiFile := mkCiFile {
  _cidict : dict value;
  _default_stage : string;
  _default_image : string;
  _default_artifact_name : string;
  _default_artifact_expire_in : string;
  _forced_variables : value;
  _id_generator : IdGenerator
}.

Definition with_cidict (self : CiFile) (d : dict value) : CiFile :=
  mkCiFile d (_default_stage self) (_default_image self)
           (_default_artifact_name self) (_default_artifact_expire_in self)
           (_forced_variables self) (_id_generator self).

Definition with_id_generator (self : CiFile) (g : IdGenerator) : CiFile :=
  mkCiFile (_cidict self) (_default_stage self) (_default_image self)
           (_default_artifact_name self) (_default_artifact_expire_in self)
           (_forced_variables self) g.

(** [CiFile()] with the defaults of [__init__]; [variables or {}]. *)
Definition init (variables : value) : CiFile :=
  mkCiFile [] "test" "local_system_shell"
           "${CI_JOB_NAME}_${CI_COMMIT_REF_NAME}_${CI_JOB_ID}" "3 days"
           (if truthy variables then variables else VDict [])
           (mkIdGenerator 0 0).

(** The strings [extract_str_list] finds in [obj], if [obj] is of a kind
    it accepts. *)
Definition str_list (obj : value) : option (list string) :=
  match obj with
  | VNone => None
  | VStr s => Some [s]
  | VInt _ | VBool _ | VFloat _ =>
      match py_str obj with Some s => Some [s] | None => None end
  | VList l =>
      Some (flat_map (fun o => match py_str o with
                               | Some s => [s]
                               | None => []
                               end) l)
  | VDict _ => None
  end.

Definition extract_str_list (obj noneval : value) : value :=
  match str_list obj with
  | Some l => VList (map VStr l)
  | None => noneval
  end.

Definition extract_str (obj noneval : value) : value :=
  match py_str obj with
  | Some s => VStr s
  | None =>
      match obj with
      | VList l =>
          match filter is_str l with
          | s :: _ => s
          | [] => noneval
          end
      | _ => noneval
      end
  end.

Definition dict_items (d : value) : dict value :=
  match d with VDict its => its | _ => [] end.

Definition extract_str_dict (d : value) : dict value :=
  fold_left
    (fun ret '(var, value) =>
       let value := extract_str value VNone in
       if truthy value then dict_set var value ret else ret)
    (dict_items d) [].

(** [for jobname, job in self._cidict.items(): if jobname not in
    PIPELINES_KEYS: ...] where the body updates [job] in place. *)
Definition for_each_job (body : key -> value -> result value) (d : dict value)
  : result (dict value) :=
  mapM (fun '(jobname, job) =>
          if is_jobname jobname
          then job' <- body jobname job ;; Ok (jobname, job')
          else Ok (jobname, job)) d.

Definition _pipeline_various_tweaks (self : CiFile) : CiFile :=
  let d := filter (fun '(jobname, _) =>
                     match jobname with
                     | KStr s => negb (startswith s ".")
                     | _ => false
                     end) (_cidict self) in
  let dflt := VStr (_default_image self) in
  let tmp := extract_str (match dict_get (KStr PIPELINEKEY_IMAGE) d with
                          | Some v => v
                          | None => dflt
                          end) dflt in
  with_cidict self
    (dict_set (KStr PIPELINEKEY_IMAGE) (if is_str tmp then tmp else dflt) d).

(** One step of the scan for unspecified stages. *)
Definition scan_stage (stages : value) (entry : key * value) : result value :=
  let '(job, v) := entry in
  if is_jobname job && is_dict v then
    has <- str_in JOBKEY_STAGE v ;;
    if has then
      s <- getitem v JOBKEY_STAGE ;;
      match extract_str s (VStr "") with
      | VStr stage =>
          if negb (String.eqb stage "") then
            listed <- str_in stage stages ;;
            if negb listed then append stages (VStr stage) else Ok stages
          else Ok stages
      | _ => Ok stages
      end
    else Ok stages
  else Ok stages.

(** The body of the loop that gives every job a stage. *)
Definition assign_stage (stages : value) (entry : key * value)
  : result (key * value) :=
  let '(jobname, v) := entry in
  if is_jobname jobname && is_dict v then
    has <- str_in JOBKEY_STAGE v ;;
    first <- getitem0 stages ;;
    obj <- (if has then getitem v JOBKEY_STAGE else Ok first) ;;
    v' <- setitem v JOBKEY_STAGE (extract_str obj first) ;;
    Ok (jobname, v')
  else Ok (jobname, v).

Definition _job_scan_apply_stages (self : CiFile) : result CiFile :=
  let d := _cidict self in
  let '(stages, d) :=
    match dict_get (KStr PIPELINEKEY_STAGES) d with
    | Some s => (s, dict_del (KStr PIPELINEKEY_STAGES) d)
    | None => (VList [], d)
    end in
  stages <- foldM scan_stage d stages ;;
  let stages := if truthy stages then stages
                else VList [VStr (_default_stage self)] in
  d <- mapM (assign_stage stages) d ;;
  Ok (with_cidict self (dict_set (KStr PIPELINEKEY_STAGES) stages d)).

Definition _job_convert_list_to_script (self : CiFile) : CiFile :=
  with_cidict self
    (map (fun '(jobname, v) =>
            if is_jobname jobname && is_list v then
              let script := extract_str_list v VNone in
              if truthy script
              then (jobname, VDict [(KStr JOBKEY_SCRIPT, script)])
              else (jobname, v)
            else (jobname, v)) (_cidict self)).

(** One round of the loop over [before_script] and [after_script];
    [newkey] is [jobkey.replace('_', ':')]. *)
Definition convert_script_key (jobkey newkey : string) (d : dict value)
  : result (dict value) :=
  let script := match dict_get (KStr jobkey) d with
                | Some s => s
                | None => VList []
                end in
  let job := VDict [(KStr JOBKEY_STAGE, VStr jobkey); (KStr JOBKEY_SCRIPT, script)] in
  n <- py_len script ;;
  if (0 <? n)%nat then
    let d := dict_del (KStr jobkey) d in
    let d := dict_set (KStr newkey) job d in
    match dict_get (KStr PIPELINEKEY_STAGES) d with
    | None => Raise KeyError
    | Some stages =>
        stages <- (if String.eqb jobkey PIPELINEKEY_BEFORE_SCRIPT
                   then insert0 stages (VStr PIPELINEKEY_BEFORE_SCRIPT)
                   else Ok stages) ;;
        stages <- (if String.eqb jobkey PIPELINEKEY_AFTER_SCRIPT
                   then append stages (VStr PIPELINEKEY_AFTER_SCRIPT)
                   else Ok stages) ;;
        Ok (dict_set (KStr PIPELINEKEY_STAGES) stages d)
    end
  else Ok d.

Definition _job_convert_before_after_script (self : CiFile) : result CiFile :=
  d <- convert_script_key PIPELINEKEY_BEFORE_SCRIPT "before:script" (_cidict self) ;;
  d <- convert_script_key PIPELINEKEY_AFTER_SCRIPT "after:script" d ;;
  Ok (with_cidict self d).

(** The loop body of [_job_various_tweaks]. *)
Definition various_tweaks_job (job : value) : result value :=
  has <- str_in JOBKEY_TAGS job ;;
  tmp <- (if has then getitem job JOBKEY_TAGS else Ok (VList [])) ;;
  job <- setitem job JOBKEY_TAGS (extract_str_list tmp (VList [])) ;;
  has <- str_in JOBKEY_DEPENDENCIES job ;;
  tmp <- (if has then getitem job JOBKEY_DEPENDENCIES else Ok (VList [])) ;;
  setitem job JOBKEY_DEPENDENCIES (extract_str_list tmp (VList [])).

Definition _job_various_tweaks (self : CiFile) : result CiFile :=
  d <- for_each_job (fun _ => various_tweaks_job) (_cidict self) ;;
  Ok (with_cidict self d).

(** The loop body of [_job_script_always_list]. *)
Definition script_always_list_job (job : value) : result value :=
  has <- str_in JOBKEY_SCRIPT job ;;
  job <- (if negb has then setitem job JOBKEY_SCRIPT (VList []) else Ok job) ;;
  s <- getitem job JOBKEY_SCRIPT ;;
  let script := extract_str_list s (VList []) in
  if truthy script then setitem job JOBKEY_SCRIPT script else Ok job.

Definition _job_script_always_list (self : CiFile) : result CiFile :=
  d <- for_each_job (fun _ => script_always_list_job) (_cidict self) ;;
  Ok (with_cidict self d).

(** [d[variables] if variables in d else {}], for the pipeline and for
    a job alike ([JOBKEY_VARIABLES] is [PIPELINEKEY_VARIABLES]). *)
Definition variables_of (d : dict value) : value :=
  match dict_get (KStr PIPELINEKEY_VARIABLES) d with
  | Some v => v
  | None => VDict []
  end.

(** The variables of one job after [_job_combine_variables]: its own,
    then the pipeline's for the names it lacks, then the forced ones,
    then the injected ones. *)
Definition combine_job_variables (pvars : dict value) (forced : value)
    (injectdict : dict value) (job : value) : dict value :=
  let jvars := extract_str_dict (variables_of (dict_items job)) in
  let jvars := fold_left (fun jvars '(pvar, gvalue) =>
                            if negb (dict_mem pvar jvars)
                            then dict_set pvar gvalue jvars else jvars)
                         pvars jvars in
  let jvars := fold_left (fun jvars '(civar, civalue) => dict_set civar civalue jvars)
                         (extract_str_dict forced) jvars in
  fold_left (fun jvars '(varname, varvalue) => dict_set varname varvalue jvars)
            injectdict jvars.

(** The loop body of [_job_combine_variables] for one entry of the
    pipeline. *)
Definition combine_entry (pvars : dict value) (forced : value)
    (injectdict : dict value) (entry : key * value) : key * value :=
  let '(jobname, job) := entry in
  if is_jobname jobname && is_dict job then
    let jvars := combine_job_variables pvars forced injectdict job in
    (jobname, VDict (dict_set (KStr JOBKEY_VARIABLES) (VDict jvars) (dict_items job)))
  else (jobname, job).

Definition _job_combine_variables (self : CiFile) (injectdict : dict value) : CiFile :=
  let d := _cidict self in
  let pvars := extract_str_dict (variables_of d) in
  let d := dict_set (KStr PIPELINEKEY_VARIABLES) (VDict pvars) d in
  let d := map (combine_entry pvars (_forced_variables self) injectdict) d in
  with_cidict self (dict_del (KStr PIPELINEKEY_VARIABLES) d).

(** [while x in found: found.remove(x)] *)
Definition remove_all (x : string) (found : list string) : list string :=
  filter (fun v => negb (String.eqb x v)) found.

Definition found_of (v : value) : list string :=
  match str_list v with Some l => l | None => [] end.

(** The loop body of [_job_streamline_only]. *)
Definition streamline_only_job (job : value) : result value :=
  has <- str_in JOBKEY_ONLY job ;;
  job <- (if negb has then setitem job JOBKEY_ONLY (VDict []) else Ok job) ;;
  only <- getitem job JOBKEY_ONLY ;;
  let found := found_of only in
  hasv <- str_in JOBKEY_ONLY_VARIABLES only ;;
  found <- (if hasv
            then v <- getitem only JOBKEY_ONLY_VARIABLES ;;
                 Ok (found ++ found_of v)
            else Ok found) ;;
  hasr <- str_in JOBKEY_ONLY_REFS only ;;
  found <- (if hasr
            then r <- getitem only JOBKEY_ONLY_REFS ;;
                 Ok (found ++ found_of r)
            else Ok found) ;;
  let found := remove_all JOBKEY_ONLY_REFS found in
  let found := remove_all JOBKEY_ONLY_VARIABLES found in
  setitem job JOBKEY_ONLY
    (VDict [(KStr JOBKEY_ONLY_REFS,
             VList (map VStr (filter (fun v => negb (startswith v "$")) found)));
            (KStr JOBKEY_ONLY_VARIABLES,
             VList (map VStr (filter (fun v => startswith v "$") found)))]).

Definition _job_streamline_only (self : CiFile) : result CiFile :=
  d <- for_each_job (fun _ => streamline_only_job) (_cidict self) ;;
  Ok (with_cidict self d).

(** The artifacts record [_job_streamline_artifacts] builds for a job:
    name, expire_in and paths. *)
Definition artifacts_of (dflt_name dflt_expire : value) (job : value)
  : result (value * value * value) :=
  has <- str_in JOBKEY_ARTIFACTS job ;;
  if has then
    a <- getitem job JOBKEY_ARTIFACTS ;;
    let paths := if is_list a then extract_str_list a (VList []) else VList [] in
    hasp <- str_in JOBKEY_ARTIFACTS_PATHS a ;;
    paths <- (if hasp
              then p <- getitem a JOBKEY_ARTIFACTS_PATHS ;;
                   Ok (extract_str_list p (VList []))
              else Ok paths) ;;
    hasn <- str_in JOBKEY_ARTIFACTS_NAME a ;;
    name <- (if hasn then getitem a JOBKEY_ARTIFACTS_NAME else Ok dflt_name) ;;
    hase <- str_in JOBKEY_ARTIFACTS_EXPIRE_IN a ;;
    expire_in <- (if hase then getitem a JOBKEY_ARTIFACTS_NAME else Ok dflt_expire) ;;
    Ok (name, expire_in, paths)
  else Ok (dflt_name, dflt_expire, VList []).

(** The loop body of [_job_streamline_artifacts]. *)
Definition streamline_artifacts_job (dflt_name dflt_expire : value) (job : value)
  : result value :=
  '(name, expire_in, paths) <- artifacts_of dflt_name dflt_expire job ;;
  setitem job JOBKEY_ARTIFACTS
    (VDict [(KStr JOBKEY_ARTIFACTS_NAME, name);
            (KStr JOBKEY_ARTIFACTS_EXPIRE_IN, expire_in);
            (KStr JOBKEY_ARTIFACTS_PATHS, paths)]).

Definition _job_streamline_artifacts (self : CiFile) : result CiFile :=
  d <- for_each_job
         (fun _ => streamline_artifacts_job (VStr (_default_artifact_name self))
                                            (VStr (_default_artifact_expire_in self)))
         (_cidict self) ;;
  Ok (with_cidict self d).

(** Normalisation.  The calls are order dependent. *)
Definition _parse_cidict (self : CiFile) (cidict : value) : result CiFile :=
  match cidict with
  | VDict d =>
      let self := with_cidict self d in
      let self := _pipeline_various_tweaks self in
      self <- _job_scan_apply_stages self ;;
      let self := _job_convert_list_to_script self in
      self <- _job_scan_apply_stages self ;;
      self <- _job_convert_before_after_script self ;;
      self <- _job_various_tweaks self ;;
      self <- _job_script_always_list self ;;
      let self := _job_combine_variables self [] in
      self <- _job_streamline_only self ;;
      _job_streamline_artifacts self
  | _ => Raise TypeError
  end.

(** [read_cifile(dictionary=...)]: an empty document is not parsed. *)
Definition read_cifile (self : CiFile) (dictionary : value) : result CiFile :=
  if truthy dictionary then _parse_cidict self dictionary else Ok self.

(* ------------------------------------------------------------------ *)
(** *** Build information                                              *)
(* ------------------------------------------------------------------ *)

Definition is_alnum (c : ascii) : bool := is_digit c || is_lower c || is_upper c.

(** [re.sub('[^...]+', '-', s)] for the character class whose members
    [keep] accepts: every maximal run of other characters becomes one
    dash.  [in_run] tells that the dash of the current run is written. *)
Fixpoint sub_runs (keep : ascii -> bool) (in_run : bool) (s : string) : string :=
  match s with
  | EmptyString => EmptyString
  | String c rest =>
      if keep c then String c (sub_runs keep false rest)
      else if in_run then sub_runs keep true rest
           else String "-" (sub_runs keep true rest)
  end.

(** [re.sub('[^0-9a-zA-Z]+', '-', name.lower())[:63].strip('-')] *)
Definition CI_COMMIT_REF_SLUG (CI_COMMIT_REF_NAME : string) : string :=
  strip (is_char "-") (take 63 (sub_runs is_alnum false (lower CI_COMMIT_REF_NAME))).

Definition is_newline (c : ascii) : bool := Ascii.eqb c "010".

(** [s.split('\n')[0]] *)
Fixpoint first_line (s : string) : string :=
  match s with
  | EmptyString => EmptyString
  | String c rest => if is_newline c then EmptyString else String c (first_line rest)
  end.

(** [re.sub(r'^[^\n]*\n', '', s)]: without a line break nothing matches. *)
Fixpoint drop_first_line (s : string) : option string :=
  match s with
  | EmptyString => None
  | String c rest => if is_newline c then Some rest else drop_first_line rest
  end.

(** A byte that continues a character of a UTF-8 text: 10xxxxxx. *)
Definition is_continuation (c : ascii) : bool :=
  let n := nat_of_ascii c in (128 <=? n)%nat && (n <? 192)%nat.

(** [len(s)] of a text: its characters, one for every byte that begins
    one, and not its bytes. *)
Fixpoint str_len (s : string) : nat :=
  match s with
  | EmptyString => 0
  | String c rest => if is_continuation c then str_len rest else S (str_len rest)
  end.

(** [message if len(message) < 100 else re.sub(r'^[^\n]*\n', '', message)] *)
Definition CI_COMMIT_DESCRIPTION (CI_COMMIT_MESSAGE : string) : string :=
  if (str_len CI_COMMIT_MESSAGE <? 100)%nat then CI_COMMIT_MESSAGE
  else match drop_first_line CI_COMMIT_MESSAGE with
       | Some s => s
       | None => CI_COMMIT_MESSAGE
       end.

Definition CI_PIPELINE_TRIGGERED (CI_PIPELINE_SOURCE : string) : bool :=
  existsb (String.eqb CI_PIPELINE_SOURCE)
          ["trigger"; "api"; "pipeline"; "schedule"; "web"].

(** The dictionary [pd] of [_pipeline_add_buildinfo]. *)
Definition buildinfo (CI_COMMIT_REF_NAME CI_PIPELINE_SOURCE CI_COMMIT_MESSAGE
                      CI_COMMIT_SHA : string) (CI_COMMIT_TAG : value) : dict value :=
  let pd :=
    [(KStr "CI", VBool true);
     (KStr "CI_COMMIT_REF_NAME", VStr CI_COMMIT_REF_NAME);
     (KStr "CI_PIPELINE_SOURCE", VStr CI_PIPELINE_SOURCE);
     (KStr "CI_COMMIT_MESSAGE", VStr CI_COMMIT_MESSAGE);
     (KStr "CI_COMMIT_SHA", VStr CI_COMMIT_SHA);
     (KStr "CI_COMMIT_REF_SLUG", VStr (CI_COMMIT_REF_SLUG CI_COMMIT_REF_NAME));
     (KStr "CI_COMMIT_TITLE", VStr (first_line CI_COMMIT_MESSAGE));
     (KStr "CI_COMMIT_DESCRIPTION", VStr (CI_COMMIT_DESCRIPTION CI_COMMIT_MESSAGE));
     (KStr "CI_PIPELINE_TRIGGERED", VBool (CI_PIPELINE_TRIGGERED CI_PIPELINE_SOURCE))] in
  if truthy CI_COMMIT_TAG then dict_set (KStr "CI_COMMIT_TAG") CI_COMMIT_TAG pd else pd.

Definition _pipeline_add_buildinfo (self : CiFile)
    (CI_COMMIT_REF_NAME CI_PIPELINE_SOURCE CI_COMMIT_MESSAGE CI_COMMIT_SHA : string)
    (CI_COMMIT_TAG : value) : result CiFile :=
  let pd := buildinfo CI_COMMIT_REF_NAME CI_PIPELINE_SOURCE CI_COMMIT_MESSAGE
                      CI_COMMIT_SHA CI_COMMIT_TAG in
  let self := _job_combine_variables self pd in
  d <- mapM (fun '(jobname, job) =>
               if is_jobname jobname && is_dict job then
                 has <- str_in JOBKEY_VARIABLES job ;;
                 vars <- (if has then getitem job JOBKEY_VARIABLES else Ok (VDict [])) ;;
                 let jvars := extract_str_dict vars in
                 let jvars := dict_set (KStr "CI_JOB_NAME") (key_value jobname) jvars in
                 stage <- getitem job JOBKEY_STAGE ;;
                 let jvars := dict_set (KStr "CI_JOB_STAGE") stage jvars in
                 job' <- setitem job JOBKEY_VARIABLES (VDict jvars) ;;
                 Ok (jobname, job')
               else Ok (jobname, job)) (_cidict self) ;;
  Ok (with_cidict self d).

(* ------------------------------------------------------------------ *)
(** *** The process environment and [os.path.expandvars]               *)
(* ------------------------------------------------------------------ *)

(** [os.environ]: one mapping for the whole process. *)
Definition environ := list (string * string).

Fixpoint env_get (name : string) (env : environ) : option string :=
  match env with
  | [] => None
  | (n, v) :: env' => if String.eqb name n then Some v else env_get name env'
  end.

Fixpoint env_put (name val : string) (env : environ) : environ :=
  match env with
  | [] => [(name, val)]
  | (n, v) :: env' =>
      if String.eqb name n then (n, val) :: env' else (n, v) :: env_put name val env'
  end.

Fixpoint has_char (x : ascii) (s : string) : bool :=
  match s with
  | EmptyString => false
  | String c rest => Ascii.eqb x c || has_char x rest
  end.

(** [os.environ[k] = v]: both must be [str]; [putenv] refuses an empty
    name, a name with an equals sign and embedded NUL bytes. *)
Definition environ_set (env : environ) (k v : value) : result environ :=
  match k, v with
  | VStr name, VStr val =>
      if String.eqb name "" || has_char "=" name
         || has_char "000" name || has_char "000" val
      then Raise ValueError
      else Ok (env_put name val env)
  | _, _ => Raise TypeError
  end.

(** [\w] under [re.ASCII] *)
Definition is_word (c : ascii) : bool := is_alnum c || Ascii.eqb c "_".

Fixpoint span_word (s : string) : string :=
  match s with
  | EmptyString => EmptyString
  | String c rest => if is_word c then String c (span_word rest) else EmptyString
  end.

(** The text before the first closing brace, if there is one. *)
Fixpoint until_brace (s : string) : option string :=
  match s with
  | EmptyString => None
  | String c rest =>
      if Ascii.eqb c "}" then Some EmptyString
      else match until_brace rest with
           | Some n => Some (String c n)
           | None => None
           end
  end.

(** What [\$(\w+|\{[^}]*\})] matches when a dollar sign is followed by
    [rest]: the variable name and the number of characters of [rest]
    that belong to the match. *)
Definition var_at (rest : string) : option (string * nat) :=
  match rest with
  | EmptyString => None
  | String c after =>
      if is_word c then
        let name := span_word rest in Some (name, String.length name)
      else if Ascii.eqb c "{" then
        match until_brace after with
        | Some name => Some (name, String.length name + 2)
        | None => None
        end
      else None
  end.

(** The scan of [posixpath.expandvars].  [skip] characters belong to a
    reference that was replaced; [copy] characters belong to a reference
    to an unset variable, which stays as it is. *)
Fixpoint expand_from (env : environ) (skip copy : nat) (s : string) : string :=
  match s with
  | EmptyString => EmptyString
  | String c rest =>
      match skip, copy with
      | S k, _ => expand_from env k copy rest
      | O, S k => String c (expand_from env 0 k rest)
      | O, O =>
          if Ascii.eqb c "$" then
            match var_at rest with
            | Some (name, n) =>
                match env_get name env with
                | Some val => val ++ expand_from env n 0 rest
                | None => String c (expand_from env 0 n rest)
                end
            | None => String c (expand_from env 0 0 rest)
            end
          else String c (expand_from env 0 0 rest)
      end
  end.

Definition expandvars (env : environ) (path : string) : string :=
  expand_from env 0 0 path.

(* ------------------------------------------------------------------ *)
(** *** Job evaluation                                                 *)
(* ------------------------------------------------------------------ *)

(** [s.split("==")]: always at least one piece. *)
Fixpoint split_eqeq (s : string) : list string :=
  match s with
  | EmptyString => [EmptyString]
  | String c rest =>
      let plain := match split_eqeq rest with
                   | piece :: pieces => String c piece :: pieces
                   | [] => [String c EmptyString]
                   end in
      if Ascii.eqb c "=" then
        match rest with
        | String c' rest' =>
            if Ascii.eqb c' "=" then EmptyString :: split_eqeq rest' else plain
        | EmptyString => plain
        end
      else plain
  end.

(** The double quote, character 34. *)
Definition is_quote (c : ascii) : bool := Ascii.eqb c "034".

(** The four matching rules for one entry of [only: variables]. *)
Definition condition_holds (env : environ) (condition : string) : bool :=
  let split := split_eqeq condition in
  let left := expandvars env (strip is_quote (strip is_space (hd EmptyString split))) in
  let right := match split with
               | _ :: r :: _ => Some (strip is_quote (strip is_space (expandvars env r)))
               | _ => None
               end in
  let nonempty (s : string) := negb (String.eqb s "") in
  match right with
  | None => nonempty left
  | Some r =>
      if nonempty left && String.eqb r "" then true
      else if has_char "$" left && nonempty r
              && existsb (String.eqb r) ["null"; "nil"; "None"] then true
      else nonempty r && String.eqb left r
  end.

(** [job_run_script] *)
Definition job_has_work (job : value) : result bool :=
  has <- str_in JOBKEY_SCRIPT job ;;
  s <- (if has then v <- getitem job JOBKEY_SCRIPT ;; Ok (truthy v) else Ok false) ;;
  if s then Ok true
  else
    has <- str_in JOBKEY_DEPENDENCIES job ;;
    d <- (if has then v <- getitem job JOBKEY_DEPENDENCIES ;; Ok (truthy v) else Ok false) ;;
    if d then
      has <- str_in JOBKEY_ARTIFACTS job ;;
      if has then v <- getitem job JOBKEY_ARTIFACTS ;; Ok (truthy v) else Ok false
    else Ok false.

(** [job_run_ref_ok] *)
Definition job_ref_ok (job : value) : result bool :=
  only <- getitem job JOBKEY_ONLY ;;
  only_refs <- getitem only JOBKEY_ONLY_REFS ;;
  only_variables <- getitem only JOBKEY_ONLY_VARIABLES ;;
  let ok := negb (truthy only_refs) && negb (truthy only_variables) in
  has <- str_in "triggers" only_refs ;;
  ok <- (if has
         then vars <- getitem job JOBKEY_VARIABLES ;;
              t <- getitem vars "CI_PIPELINE_TRIGGERED" ;;
              Ok (if truthy t then true else ok)
         else Ok ok) ;;
  has <- str_in "tags" only_refs ;;
  ok <- (if has
         then vars <- getitem job JOBKEY_VARIABLES ;;
              tagged <- str_in "CI_COMMIT_TAG" vars ;;
              Ok (if tagged then true else ok)
         else Ok ok) ;;
  refs <- iter only_refs ;;
  foldM (fun ok ref =>
           if negb (py_eq ref (VStr "tags") || py_eq ref (VStr "triggers")) then
             vars <- getitem job JOBKEY_VARIABLES ;;
             name <- getitem vars "CI_COMMIT_REF_NAME" ;;
             Ok (if py_eq name ref then true else ok)
           else Ok ok) refs ok.

(** The body of the first loop of [_evaluate_jobs] for one job: the
    job's variables go into the process environment, then the three
    flags are computed.  Gives the environment it leaves and [job_run]. *)
Definition evaluate_job (env : environ) (job : value) : result (environ * bool) :=
  only <- getitem job JOBKEY_ONLY ;;
  only_variables <- getitem only JOBKEY_ONLY_VARIABLES ;;
  n <- py_len only_variables ;;
  let job_run_ref_variables := Nat.eqb n 0 in
  vars <- getitem job JOBKEY_VARIABLES ;;
  its <- items vars ;;
  env <- foldM (fun env '(jvar, jvalue) => environ_set env (key_value jvar) jvalue)
               its env ;;
  job_run_script <- job_has_work job ;;
  job_run_ref_ok <- job_ref_ok job ;;
  conditions <- iter only_variables ;;
  job_run_ref_variables <-
    foldM (fun ok condition =>
             match condition with
             | VStr c => Ok (if condition_holds env c then true else ok)
             | _ => Raise AttributeError
             end) conditions job_run_ref_variables ;;
  Ok (env, job_run_ref_ok && job_run_ref_variables && job_run_script).

(** The first loop of [_evaluate_jobs]: the environment is threaded from
    one job to the next, since [os.environ = bak_env] rebinds the name to
    the very same mapping. *)
Definition evaluate_all (d : dict value) (env : environ)
  : result (environ * list key) :=
  foldM (fun '(env, jobs_to_remove) '(jobname, job) =>
           if is_jobname jobname && is_dict job then
             '(env, job_run) <- evaluate_job env job ;;
             Ok (env, if job_run then jobs_to_remove else jobs_to_remove ++ [jobname])
           else Ok (env, jobs_to_remove)) d (env, []).

Definition is_kstr (k : key) : bool :=
  match k with KStr _ => true | _ => false end.

(** The [for dep in ...] loop with its [break]: is some dependency not a
    key of [d]? *)
Fixpoint some_dep_missing (d : dict value) (deps : list value) : result bool :=
  match deps with
  | [] => Ok false
  | dep :: deps' =>
      k <- value_key dep ;;
      match k with
      | Some k => if dict_mem k d then some_dep_missing d deps' else Ok true
      | None => Ok true
      end
  end.

(** One scan of the pruning loop: [removedsomething] ends as the name of
    the last job with a missing dependency, or stays [False]. *)
Definition scan_job (d : dict value) (removedsomething : value)
    (entry : key * value) : result value :=
  let '(jobname, job) := entry in
  if is_jobname jobname && is_dict job then
    deps <- getitem job JOBKEY_DEPENDENCIES ;;
    deps <- iter deps ;;
    missing <- some_dep_missing d deps ;;
    Ok (if missing then key_value jobname else removedsomething)
  else Ok removedsomething.

Definition scan_dependencies (d : dict value) : result value :=
  foldM (scan_job d) d (VBool false).

Definition remove_job (removedsomething : value) (d : dict value) : dict value :=
  filter (fun '(jobname, _) =>
            is_kstr jobname && negb (py_eq (key_value jobname) removedsomething)) d.

(** The [while removedsomething] loop, for at most [passes] scans;
    [None] when they do not suffice. *)
Fixpoint prune (passes : nat) (d : dict value) : option (result (dict value)) :=
  match passes with
  | O => None
  | S passes' =>
      match scan_dependencies d with
      | Raise e => Some (Raise e)
      | Ok removedsomething =>
          if truthy removedsomething
          then prune passes' (remove_job removedsomething d)
          else Some (Ok d)
      end
  end.

Definition _evaluate_jobs (self : CiFile) (env : environ)
  : option (result (CiFile * environ)) :=
  match evaluate_all (_cidict self) env with
  | Raise e => Some (Raise e)
  | Ok (env, jobs_to_remove) =>
      let d := filter (fun '(jobname, _) =>
                         is_kstr jobname
                         && negb (existsb (key_eqb jobname) jobs_to_remove))
                      (_cidict self) in
      match prune (S (List.length d)) d with
      | None => None
      | Some (Raise e) => Some (Raise e)
      | Some (Ok d) => Some (Ok (with_cidict self d, env))
      end
  end.

(* ------------------------------------------------------------------ *)
(** *** The matrix view and the ids                                    *)
(* ------------------------------------------------------------------ *)

(** The jobs of one stage, as [convert_to_matrix] collects them. *)
Definition jobs_of_stage (d : dict value) (stage : value) : result (dict value) :=
  foldM (fun jobs '(jobname, job) =>
           if is_jobname jobname && is_dict job then
             s <- getitem job JOBKEY_STAGE ;;
             Ok (if py_eq s stage then dict_set jobname job jobs else jobs)
           else Ok jobs) d [].

(** The content of the matrix; what it shares with the internal dict is
    the subject of [Store.convert_to_matrix]. *)
Definition convert_to_matrix (self : CiFile) : result value :=
  let d := _cidict self in
  match dict_get (KStr PIPELINEKEY_STAGES) d, dict_get (KStr PIPELINEKEY_IMAGE) d with
  | Some stages, Some image =>
      sts <- iter stages ;;
      groups <- mapM (fun stage => jobs <- jobs_of_stage d stage ;; Ok (VDict jobs)) sts ;;
      Ok (VDict [(KStr MATRIXKEY_JOBS, VList groups);
                 (KStr MATRIXKEY_STAGES, stages);
                 (KStr MATRIXKEY_IMAGE, image)])
  | _, _ => Raise KeyError
  end.

(** The inner loop body of [_assign_ids].  The job met in the matrix is
    the job object of the internal dict, so its variables are read from
    the current state. *)
Definition assign_job_ids (pipeline_id : string) (st : dict value * IdGenerator)
    (jobname : key) : result (dict value * IdGenerator) :=
  let '(d, g) := st in
  match dict_get jobname d with
  | None => Raise KeyError
  | Some job =>
      has <- str_in JOBKEY_VARIABLES job ;;
      vars <- (if has then getitem job JOBKEY_VARIABLES else Ok (VDict [])) ;;
      let jvars := extract_str_dict vars in
      let jvars := dict_set (KStr "CI_PIPELINE_ID") (VStr pipeline_id) jvars in
      let '(n, g) := next_job_id g in
      let jvars := dict_set (KStr "CI_JOB_ID") (VStr (str_of_int n)) jvars in
      job <- setitem job JOBKEY_VARIABLES (VDict jvars) ;;
      Ok (dict_set jobname job d, g)
  end.

Definition _assign_ids (self : CiFile) : result CiFile :=
  let '(n, g) := next_pipeline_id (_id_generator self) in
  let pipeline_id := str_of_int n in
  matrix <- convert_to_matrix self ;;
  groups <- getitem matrix MATRIXKEY_JOBS ;;
  groups <- iter groups ;;
  '(d, g) <- foldM (fun st group =>
                      foldM (assign_job_ids pipeline_id) (dict_keys (dict_items group)) st)
                   groups (_cidict self, g) ;;
  Ok (with_id_generator (with_cidict self d) g).

Definition prepare_run_with (self : CiFile) (env : environ)
    (ci_commit_ref_name ci_pipeline_source ci_commit_message ci_commit_sha : string)
    (ci_commit_tag : value) : option (result (CiFile * environ)) :=
  match _pipeline_add_buildinfo self ci_commit_ref_name ci_pipeline_source
                                ci_commit_message ci_commit_sha ci_commit_tag with
  | Raise e => Some (Raise e)
  | Ok self =>
      match _evaluate_jobs self env with
      | None => None
      | Some (Raise e) => Some (Raise e)
      | Some (Ok (self, env)) =>
          match _assign_ids self with
          | Raise e => Some (Raise e)
          | Ok self => Some (Ok (self, env))
          end
      end
  end.

(** The names of the jobs of a pipeline. *)
Definition job_names (d : dict value) : list key :=
  filter is_jobname (dict_keys d).

(** [IdGenerator.current_ids] *)
Definition current_ids (g : IdGenerator) : dict value :=
  [(KStr "job", VInt (_last_job_id g)); (KStr "pipeline", VInt (_last_pipeline_id g))].

(** [key, value = item.partition('=')[::2]]: the text before the first
    equals sign and the text after it; all of [item] and the empty
    string when there is none. *)
Fixpoint partition_eq (item : string) : string * string :=
  match item with
  | EmptyString => (EmptyString, EmptyString)
  | String c rest =>
      if Ascii.eqb c "=" then (EmptyString, rest)
      else let '(k, v) := partition_eq rest in (String c k, v)
  end.

(** The loop of [main] over the [--env] items, which builds the forced
    variables of the [CiFile]. *)
Definition main_env (items : list string) : dict value :=
  fold_left (fun env item =>
               let '(k, v) := partition_eq item in
               dict_set (KStr k) (VStr v) env) items [].

End Ci.

(* ================================================================== *)
(** ** Objects and references: what the accessors hand out             *)
(* ================================================================== *)

(** Lists and dicts are objects in a store and are held by reference, so
    that two holders of one object see each other's changes. *)
Module Store.
Import Py.

Definition loc := nat.

(** What a variable or a slot of a container holds. *)
Inductive ref :=
| RNone
| RBool (b : bool)
| RInt (z : Z)
| RFloat (repr : string)
| RStr (s : string)
| RObj (l : loc).

Inductive obj :=
| OList (items : list ref)
| ODict (items : list (key * ref)).

Definition heap := list obj.

Definition alloc (h : heap) (o : obj) : heap * ref :=
  (h ++ [o], RObj (List.length h)).

Fixpoint update (h : heap) (l : loc) (o : obj) : heap :=
  match h, l with
  | [], _ => []
  | _ :: h', O => o :: h'
  | x :: h', S l' => x :: update h' l' o
  end.

(** Build a document as fresh objects. *)
Fixpoint store (v : value) (h : heap) : heap * ref :=
  match v with
  | VNone => (h, RNone)
  | VBool b => (h, RBool b)
  | VInt z => (h, RInt z)
  | VFloat r => (h, RFloat r)
  | VStr s => (h, RStr s)
  | VList items =>
      let '(h, rs) :=
        (fix store_all (vs : list value) (h : heap) {struct vs} : heap * list ref :=
           match vs with
           | [] => (h, [])
           | x :: vs' =>
               let '(h, r) := store x h in
               let '(h, rs) := store_all vs' h in
               (h, r :: rs)
           end) items h in
      alloc h (OList rs)
  | VDict items =>
      let '(h, rs) :=
        (fix store_all (es : list (key * value)) (h : heap) {struct es}
           : heap * list (key * ref) :=
           match es with
           | [] => (h, [])
           | (k, x) :: es' =>
               let '(h, r) := store x h in
               let '(h, rs) := store_all es' h in
               (h, (k, r) :: rs)
           end) items h in
      alloc h (ODict rs)
  end.

(** Read every slot of a container with [ld]. *)
Fixpoint load_each {A B : Type} (ld : ref -> option value) (slot : A -> ref)
    (mk : A -> value -> B) (xs : list A) : option (list B) :=
  match xs with
  | [] => Some []
  | x :: xs' =>
      match ld (slot x), load_each ld slot mk xs' with
      | Some v, Some vs => Some (mk x v :: vs)
      | _, _ => None
      end
  end.

(** Read the document a reference stands for, down to [depth] levels of
    containers. *)
Fixpoint load (depth : nat) (h : heap) (r : ref) : option value :=
  match r with
  | RNone => Some VNone
  | RBool b => Some (VBool b)
  | RInt z => Some (VInt z)
  | RFloat s => Some (VFloat s)
  | RStr s => Some (VStr s)
  | RObj l =>
      match depth with
      | O => None
      | S depth' =>
          match nth_error h l with
          | None => None
          | Some (OList rs) =>
              option_map VList
                (load_each (load depth' h) (fun r => r) (fun _ v => v) rs)
          | Some (ODict es) =>
              option_map VDict
                (load_each (load depth' h) snd (fun e v => (fst e, v)) es)
          end
      end
  end.

(** The document behind [r]; a store of [n] objects without cycles has
    no document deeper than [n]. *)
Definition snapshot (h : heap) (r : ref) : option value :=
  load (S (List.length h)) h r.

(** *** What a caller can do with a reference *)

(** [r[s]] *)
Definition getitem (h : heap) (r : ref) (s : string) : result ref :=
  match r with
  | RObj l =>
      match nth_error h l with
      | Some (ODict es) =>
          match dict_get (KStr s) es with
          | Some v => Ok v
          | None => Raise KeyError
          end
      | _ => Raise TypeError
      end
  | _ => Raise TypeError
  end.

(** [r[i]] on a list *)
Definition getindex (h : heap) (r : ref) (i : nat) : result ref :=
  match r with
  | RObj l =>
      match nth_error h l with
      | Some (OList rs) =>
          match nth_error rs i with
          | Some v => Ok v
          | None => Raise IndexError
          end
      | _ => Raise TypeError
      end
  | _ => Raise TypeError
  end.

(** [r[s] = v] *)
Definition setitem (h : heap) (r : ref) (s : string) (v : ref) : result heap :=
  match r with
  | RObj l =>
      match nth_error h l with
      | Some (ODict es) => Ok (update h l (ODict (dict_set (KStr s) v es)))
      | _ => Raise TypeError
      end
  | _ => Raise TypeError
  end.

(** [r.append(v)] *)
Definition append (h : heap) (r : ref) (v : ref) : result heap :=
  match r with
  | RObj l =>
      match nth_error h l with
      | Some (OList rs) => Ok (update h l (OList (rs ++ [v])))
      | _ => Raise AttributeError
      end
  | _ => Raise AttributeError
  end.

Definition key_ref (k : key) : ref :=
  match k with
  | KStr s => RStr s
  | KInt z => RInt z
  | KNone => RNone
  end.

(** [for x in r] *)
Definition iter (h : heap) (r : ref) : result (list ref) :=
  match r with
  | RStr s => Ok (map RStr (chars s))
  | RObj l =>
      match nth_error h l with
      | Some (OList rs) => Ok rs
      | Some (ODict es) => Ok (map key_ref (dict_keys es))
      | None => Raise TypeError
      end
  | _ => Raise TypeError
  end.

(** [r.items()] *)
Definition items (h : heap) (r : ref) : result (dict ref) :=
  match r with
  | RObj l =>
      match nth_error h l with
      | Some (ODict es) => Ok es
      | _ => Raise AttributeError
      end
  | _ => Raise AttributeError
  end.

(** [isinstance(r, dict)] *)
Definition is_dict (h : heap) (r : ref) : bool :=
  match r with
  | RObj l => match nth_error h l with Some (ODict _) => true | _ => false end
  | _ => false
  end.

(** [a == b], on the documents the two references stand for. *)
Definition ref_eq (h : heap) (a b : ref) : result bool :=
  match snapshot h a, snapshot h b with
  | Some x, Some y => Ok (py_eq x y)
  | _, _ => Raise RecursionError
  end.

Definition memo_get (l : loc) (memo : list (loc * loc)) : option loc :=
  match find (fun p => Nat.eqb l (fst p)) memo with
  | Some p => Some (snd p)
  | None => None
  end.

(** Copy every slot of a container with [copy], one after the other. *)
Fixpoint copy_each {A : Type}
    (copy : ref -> list (loc * loc) -> heap -> option (ref * list (loc * loc) * heap))
    (slot : A -> ref) (put : A -> ref -> A)
    (xs : list A) (memo : list (loc * loc)) (h : heap)
  : option (list A * list (loc * loc) * heap) :=
  match xs with
  | [] => Some ([], memo, h)
  | x :: xs' =>
      match copy (slot x) memo h with
      | None => None
      | Some (r', memo, h) =>
          match copy_each copy slot put xs' memo h with
          | None => None
          | Some (xs'', memo, h) => Some (put x r' :: xs'', memo, h)
          end
      end
  end.

(** [copy.deepcopy(r, memo)]: a container met for the first time gets a
    new object, entered in [memo] before its content is copied; one met
    again is answered from [memo].  [depth] is the nesting of calls the
    interpreter allows: a copy that needs more raises RecursionError,
    which is [None] here, as is a reference to no object. *)
Fixpoint deepcopy (depth : nat) (r : ref) (memo : list (loc * loc)) (h : heap)
  : option (ref * list (loc * loc) * heap) :=
  match r with
  | RObj l =>
      match memo_get l memo with
      | Some l' => Some (RObj l', memo, h)
      | None =>
          match depth with
          | O => None
          | S depth' =>
              let l' := List.length h in
              match nth_error h l with
              | None => None
              | Some (OList rs) =>
                  match copy_each (deepcopy depth') (fun r => r) (fun _ r => r)
                                  rs ((l, l') :: memo) (h ++ [OList []]) with
                  | None => None
                  | Some (rs', memo, h) => Some (RObj l', memo, update h l' (OList rs'))
                  end
              | Some (ODict es) =>
                  match copy_each (deepcopy depth') snd (fun e r => (fst e, r))
                                  es ((l, l') :: memo) (h ++ [ODict []]) with
                  | None => None
                  | Some (es', memo, h) => Some (RObj l', memo, update h l' (ODict es'))
                  end
              end
          end
      end
  | _ => Some (r, memo, h)
  end.

(** [get_cidict]: [deepcopy(self._cidict)], under an interpreter whose
    recursion limit the pipeline does not reach: a store of [n] objects
    nests no copy deeper than [n] calls.  What the copy does under a
    limit that is reached is [deepcopy] with that limit. *)
Definition get_cidict (h : heap) (cidict : ref) : option (ref * heap) :=
  match deepcopy (S (List.length h)) cidict [] h with
  | Some (r, _, h) => Some (r, h)
  | None => None
  end.

(** The jobs of one stage: a new dict whose values are the job objects
    of the internal dict themselves. *)
Definition jobs_of_stage (h : heap) (entries : dict ref) (stage : ref)
  : result (dict ref) :=
  foldM (fun jobs '(jobname, job) =>
           if Ci.is_jobname jobname && is_dict h job then
             s <- getitem h job Ci.JOBKEY_STAGE ;;
             same <- ref_eq h s stage ;;
             Ok (if same then dict_set jobname job jobs else jobs)
           else Ok jobs) entries [].

(** [convert_to_matrix]: the matrix dict, its [jobs] list and the dict
    of each stage are new objects; the [stages] value and every job are
    the internal ones. *)
Definition convert_to_matrix (h : heap) (cidict : ref) : result (heap * ref) :=
  let '(h, jobs_list) := alloc h (OList []) in
  stages <- getitem h cidict Ci.PIPELINEKEY_STAGES ;;
  image <- getitem h cidict Ci.PIPELINEKEY_IMAGE ;;
  let '(h, pipeline) :=
    alloc h (ODict [(KStr Ci.MATRIXKEY_JOBS, jobs_list);
                    (KStr Ci.MATRIXKEY_STAGES, stages);
                    (KStr Ci.MATRIXKEY_IMAGE, image)]) in
  sts <- iter h stages ;;
  entries <- items h cidict ;;
  h <- foldM (fun h stage =>
                jobs <- jobs_of_stage h entries stage ;;
                let '(h, group) := alloc h (ODict jobs) in
                append h jobs_list group) sts h ;;
  Ok (h, pipeline).

(** *** Regions of a store *)

(** [r] is no object below [n]: it is a scalar or a reference into the
    part of the store from [n] on. *)
Definition ref_from (n : nat) (r : ref) : Prop :=
  match r with
  | RObj l => n <= l
  | _ => True
  end.

(** [r] is a scalar or a reference to one of the first [n] objects. *)
Definition ref_below (n : nat) (r : ref) : Prop :=
  match r with
  | RObj l => l < n
  | _ => True
  end.

Definition slots (o : obj) : list ref :=
  match o with
  | OList rs => rs
  | ODict es => map snd es
  end.

(** Every object from [n] on refers to objects from [n] on only. *)
Definition region_closed (n : nat) (h : heap) : Prop :=
  forall l o, n <= l -> nth_error h l = Some o -> Forall (ref_from n) (slots o).

(** The objects of a store refer to objects of that store only. *)
Definition heap_closed (h : heap) : Prop :=
  forall l o, nth_error h l = Some o -> Forall (ref_below (List.length h)) (slots o).

(** Two stores hold the same first [n] objects. *)
Definition same_below (n : nat) (h1 h2 : heap) : Prop :=
  forall l, l < n -> nth_error h2 l = nth_error h1 l.

Definition ref_belowb (n : nat) (r : ref) : bool :=
  match r with
  | RObj l => (l <? n)%nat
  | _ => true
  end.

(** [heap_closed], as a test. *)
Definition heap_closedb (h : heap) : bool :=
  forallb (fun o => forallb (ref_belowb (List.length h)) (slots o)) h.

(** What holds of the memo and the store all through a deep copy that
    started on a store of [n0] objects. *)
Definition copying (n0 : nat) (memo : list (loc * loc)) (h : heap) : Prop :=
  n0 <= List.length h
  /\ (forall a b, In (a, b) memo -> n0 <= b)
  /\ region_closed n0 h.

(** [copy] leaves the first [n0] objects alone and returns nothing that
    refers to them. *)
Definition copies_apart (n0 : nat)
    (copy : ref -> list (loc * loc) -> heap -> option (ref * list (loc * loc) * heap))
  : Prop :=
  forall r memo h r' memo' h',
    copy r memo h = Some (r', memo', h') -> copying n0 memo h ->
    copying n0 memo' h' /\ same_below n0 h h' /\ ref_from n0 r'.

(** *** A copy and its original *)

(** The copy of a reference under [memo]. *)
Definition map_ref (memo : list (loc * loc)) (r : ref) : ref :=
  match r with
  | RObj l => match memo_get l memo with Some l' => RObj l' | None => r end
  | _ => r
  end.

Definition map_obj (memo : list (loc * loc)) (o : obj) : obj :=
  match o with
  | OList rs => OList (map (map_ref memo) rs)
  | ODict es => ODict (map (fun e => (fst e, map_ref memo (snd e))) es)
  end.

(** [r] is a scalar or an object that [memo] knows. *)
Definition covered (memo : list (loc * loc)) (r : ref) : Prop :=
  match r with
  | RObj l => memo_get l memo <> None
  | _ => True
  end.

(** [memo'] answers as [memo] does wherever [memo] answers. *)
Definition memo_ext (memo memo' : list (loc * loc)) : Prop :=
  forall a b, memo_get a memo = Some b -> memo_get a memo' = Some b.

(** The object [b] of [h'] is the copy of the object [a] of [h0]: slot
    by slot the copy of what [a] holds. *)
Definition copied (h0 : heap) (memo' : list (loc * loc)) (h' : heap) (a b : loc) : Prop :=
  exists o,
    nth_error h0 a = Some o
    /\ nth_error h' b = Some (map_obj memo' o)
    /\ Forall (covered memo') (slots o).

(** What a part of a deep copy of the store [h0] does, from [memo] and
    [h] to [memo'] and [h']: the memo grows, the store grows and keeps
    the objects it had, and every object entered in the memo meanwhile
    is new and a finished copy. *)
Definition copy_step (h0 : heap) (memo : list (loc * loc)) (h : heap)
    (memo' : list (loc * loc)) (h' : heap) : Prop :=
  memo_ext memo memo'
  /\ List.length h <= List.length h'
  /\ same_below (List.length h) h h'
  /\ forall a b, memo_get a memo' = Some b -> memo_get a memo = None ->
       List.length h <= b < List.length h' /\ copied h0 memo' h' a b.

(** [copy] returns the copy of what it is given. *)
Definition copies_same (h0 : heap)
    (copy : ref -> list (loc * loc) -> heap -> option (ref * list (loc * loc) * heap))
  : Prop :=
  forall r memo h r' memo' h',
    copy r memo h = Some (r', memo', h') ->
    ref_below (List.length h0) r ->
    List.length h0 <= List.length h ->
    same_below (List.length h0) h0 h ->
    copy_step h0 memo h memo' h' /\ r' = map_ref memo' r /\ covered memo' r.

(** [copy] returns whenever fewer than [fuel] objects of [h0] are still
    unknown to the memo. *)
Definition unknown (memo : list (loc * loc)) (a : loc) : bool :=
  match memo_get a memo with
  | None => true
  | Some _ => false
  end.

Definition unvisited (n : nat) (memo : list (loc * loc)) : nat :=
  List.length (filter (unknown memo) (seq 0 n)).

Definition copy_returns (h0 : heap) (fuel : nat)
    (copy : ref -> list (loc * loc) -> heap -> option (ref * list (loc * loc) * heap))
  : Prop :=
  forall r memo h,
    ref_below (List.length h0) r ->
    List.length h0 <= List.length h ->
    same_below (List.length h0) h0 h ->
    unvisited (List.length h0) memo < fuel ->
    copy r memo h <> None.

End Store.

(* ================================================================== *)
(** ** What the specification says, and the documents used below       *)
(* ================================================================== *)

Module Spec.
Import Py.

Definition in_0_9_a_z (c : ascii) : bool := is_digit c || is_lower c.

Definition slug_char (c : ascii) : bool := in_0_9_a_z c || is_char "-" c.

(** *** The slug in the words of the specification

    The name lowercased, every maximal run of characters outside
    [0-9a-z] replaced by one dash, then cut to 63 characters, then
    freed of dashes at both ends.  Each step is written here for
    itself, on the list of the bytes of the text in UTF-8, with nothing
    taken from the model of the code.  A character outside ASCII is two
    to four bytes, none of them in [0-9a-z], so that it lies in a run
    outside the class with its bytes as without; and what is cut to 63
    is ASCII, a byte for a character. *)

(** The characters of [0-9a-z]. *)
Definition in_class (c : ascii) : bool :=
  existsb (Ascii.eqb c)
          (list_ascii_of_string "0123456789abcdefghijklmnopqrstuvwxyz").

(** The small letter of a capital one, by its place in the alphabet. *)
Definition alphabet : list (ascii * ascii) :=
  combine (list_ascii_of_string "ABCDEFGHIJKLMNOPQRSTUVWXYZ")
          (list_ascii_of_string "abcdefghijklmnopqrstuvwxyz").

Definition small (c : ascii) : ascii :=
  match find (fun p => Ascii.eqb c (fst p)) alphabet with
  | Some p => snd p
  | None => c
  end.

(** [l] without [prefix], where it begins with it. *)
Fixpoint after (prefix l : list ascii) : option (list ascii) :=
  match prefix, l with
  | [], _ => Some l
  | a :: prefix', b :: l' => if Ascii.eqb b a then after prefix' l' else None
  | _ :: _, [] => None
  end.

(** The two characters outside ASCII whose lowercase has an ASCII
    letter in it, in UTF-8: U+0130, which becomes i and U+0307, and
    U+212A, which becomes k. *)
Definition dotted_capital_i : list ascii := ["196"; "176"]%char.
Definition small_i_and_dot : list ascii := ["i"; "204"; "135"]%char.
Definition kelvin_sign : list ascii := ["226"; "132"; "170"]%char.

(** Lowercasing the first [n] characters that are met. *)
Fixpoint lowercase_upto (n : nat) (l : list ascii) : list ascii :=
  match n, l with
  | S n', c :: l' =>
      match after dotted_capital_i l, after kelvin_sign l with
      | Some rest, _ => small_i_and_dot ++ lowercase_upto n' rest
      | None, Some rest => "k"%char :: lowercase_upto n' rest
      | None, None => small c :: lowercase_upto n' l'
      end
  | _, _ => []
  end.

Definition lowercase (l : list ascii) : list ascii :=
  lowercase_upto (List.length l) l.

(** The maximal runs of a text: its characters in order, cut wherever a
    character inside the class meets one outside; each run with the
    side it is on. *)
Fixpoint runs (inside : ascii -> bool) (l : list ascii) : list (bool * list ascii) :=
  match l with
  | [] => []
  | c :: l' =>
      match runs inside l' with
      | (side, run) :: more =>
          if Bool.eqb (inside c) side then (side, c :: run) :: more
          else (inside c, [c]) :: (side, run) :: more
      | [] => [(inside c, [c])]
      end
  end.

(** Every run outside the class replaced by one dash. *)
Definition replace_runs (inside : ascii -> bool) (l : list ascii) : list ascii :=
  flat_map (fun r : bool * list ascii => if fst r then snd r else ["-"%char]) (runs inside l).

(** Without the dashes it begins with, and without those at both ends. *)
Fixpoint drop_dashes (l : list ascii) : list ascii :=
  match l with
  | c :: l' => if Ascii.eqb c "-" then drop_dashes l' else l
  | [] => []
  end.

Definition trim (l : list ascii) : list ascii :=
  rev (drop_dashes (rev (drop_dashes l))).

Definition ref_slug (commit_ref_name : string) : string :=
  string_of_list_ascii
    (trim (firstn 63 (replace_runs in_class
                        (lowercase (list_ascii_of_string commit_ref_name))))).

(** The variable [X] of a job after string coercion, in the priority
    order of the specification: forced, then the job's own, then the
    pipeline's. *)
Definition resolve (forced own pipeline : dict value) (X : key) : option value :=
  match dict_get X forced with
  | Some v => Some v
  | None =>
      match dict_get X own with
      | Some v => Some v
      | None => dict_get X pipeline
      end
  end.

(** The string a variable mapping declares for [X]: its value coerced,
    where a value that cannot be coerced counts as no declaration. *)
Definition declared (d : dict value) (X : key) : option value :=
  match dict_get X d with
  | Some v =>
      match Ci.extract_str v VNone with
      | VNone => None
      | s => Some s
      end
  | None => None
  end.

(** [X] is not given a value that coerces to the empty string. *)
Definition not_blank (d : dict value) (X : key) : Prop :=
  forall v, dict_get X d = Some v -> Ci.extract_str v VNone <> VStr "".

(** Forced before own before pipeline. *)
Definition priority (forced own pipeline : option value) : option value :=
  match forced, own with
  | Some v, _ => Some v
  | None, Some v => Some v
  | None, None => pipeline
  end.

(** The job is a mapping whose key [name] has a value with property [P]. *)
Definition has_field (name : string) (P : value -> Prop) (job : value) : Prop :=
  exists items v,
    job = VDict items /\ dict_get (KStr name) items = Some v /\ P v.

Definition any_value (v : value) : Prop := True.

Definition list_of_strings (v : value) : Prop := exists l, v = VList (map VStr l).

Definition only_record (v : value) : Prop :=
  exists refs variables,
    v = VDict [(KStr "refs", VList (map VStr refs));
               (KStr "variables", VList (map VStr variables))].

Definition artifacts_record (v : value) : Prop :=
  exists name expire_in paths,
    v = VDict [(KStr "name", name); (KStr "expire_in", expire_in);
               (KStr "paths", VList (map VStr paths))].

(** An [only] record as [_job_streamline_only] leaves it: the refs do
    not begin with a dollar sign and are neither of the two key names,
    the conditions all begin with a dollar sign. *)
Definition only_split (v : value) : Prop :=
  exists refs variables,
    v = VDict [(KStr "refs", VList (map VStr refs));
               (KStr "variables", VList (map VStr variables))]
    /\ Forall (fun r => startswith r "$" = false /\ r <> "refs" /\ r <> "variables") refs
    /\ Forall (fun c => startswith c "$" = true) variables.

(** What a [CiFile] holds besides the pipeline: the defaults, the
    forced variables and the id generator. *)
Definition settings (self : Ci.CiFile) : Ci.CiFile := Ci.with_cidict self [].

(** The three words that stand for an undefined value in a condition. *)
Definition is_null (text : string) : bool :=
  existsb (String.eqb text) ["null"; "nil"; "None"].

(** The job [jobname] of [d] carries the pipeline id [pipeline_id] and
    a job id above [lo] and up to [hi]. *)
Definition has_ids (pipeline_id : string) (lo hi : Z) (d : dict value) (jobname : key)
  : Prop :=
  exists items vars n,
    dict_get jobname d = Some (VDict items)
    /\ dict_get (KStr "variables") items = Some (VDict vars)
    /\ dict_get (KStr "CI_PIPELINE_ID") vars = Some (VStr pipeline_id)
    /\ dict_get (KStr "CI_JOB_ID") vars = Some (VStr (str_of_int n))
    /\ (lo < n <= hi)%Z.

(** The job [j] is a mapping whose stage equals [stage]. *)
Definition in_stage (stage : value) (j : value) : Prop :=
  is_dict j = true
  /\ exists s, getitem j "stage" = Ok s /\ py_eq s stage = true.

(** [group] is the group of [stage] in the matrix of the pipeline [d]:
    a mapping whose entries are jobs of [d] in that stage, and, where
    [d] has no key twice, all of them. *)
Definition stage_group (d : dict value) (stage group : value) : Prop :=
  exists jobs,
    group = VDict jobs
    /\ (forall k j, In (k, j) jobs ->
          In (k, j) d /\ Ci.is_jobname k = true /\ in_stage stage j)
    /\ (NoDup (dict_keys d) ->
        forall k j, In (k, j) d -> Ci.is_jobname k = true -> in_stage stage j ->
        In (k, j) jobs).

(** The job [j] has a stage that is a string: the empty string, or one
    of the stages [l]. *)
Definition staged (l : list value) (j : value) : Prop :=
  exists s,
    dict_get (KStr "stage") (Ci.dict_items j) = Some (VStr s)
    /\ (s = EmptyString \/ In (VStr s) l).

(** Every key is a string that does not begin with a dot. *)
Definition named (d : dict value) : Prop :=
  forall k v, In (k, v) d -> exists s, k = KStr s /\ startswith s "." = false.

Definition has_stages (d : dict value) : Prop :=
  exists stages, dict_get (KStr "stages") d = Some stages /\ truthy stages = true.

(** A variable mapping as coercion leaves it: no key twice, every
    value a non-empty string. *)
Definition strings_by_name (v : value) : Prop :=
  exists d, v = VDict d
    /\ NoDup (dict_keys d)
    /\ Forall (fun kv => exists s, snd kv = VStr s /\ s <> "") d.

(** What normalisation establishes for the pipeline itself: an image
    that is a string, stages that are not empty, no pipeline-level
    variables any more, and no template or non-string key. *)
Definition pipeline_shaped (d : dict value) : Prop :=
  (exists image, dict_get (KStr "image") d = Some (VStr image))
  /\ has_stages d
  /\ dict_get (KStr "variables") d = None
  /\ named d.

(** What normalisation establishes for every job: the keys [stage] and
    [script] are there, [tags] and [dependencies] are lists of strings,
    [only] and [artifacts] are complete records. *)
Definition populated (job : value) : Prop :=
  has_field "stage" any_value job
  /\ has_field "script" any_value job
  /\ has_field "tags" list_of_strings job
  /\ has_field "dependencies" list_of_strings job
  /\ has_field "only" only_record job
  /\ has_field "artifacts" artifacts_record job.


(** A variable mapping as coercion leaves it: no key twice, every
    value a non-empty string. *)
Definition nonempty_str (v : value) : Prop := exists s, v = VStr s /\ s <> "".

Definition coerced (d : dict value) : Prop :=
  NoDup (dict_keys d) /\ Forall (fun kv => nonempty_str (snd kv)) d.

End Spec.

Module Doc.
Import Py Ci.

(** A YAML mapping with string keys, and a list of strings. *)
Definition mapping (entries : list (string * value)) : value :=
  VDict (map (fun '(k, v) => (KStr k, v)) entries).

Definition strings (l : list string) : value := VList (map VStr l).

(** [cidict[jobname]] and [cidict[jobname][field]] *)
Definition job (self : CiFile) (jobname : string) : option value :=
  dict_get (KStr jobname) (_cidict self).

Definition field (self : CiFile) (jobname name : string) : option value :=
  match job self jobname with
  | Some j => dict_get (KStr name) (dict_items j)
  | None => None
  end.

Definition subfield (self : CiFile) (jobname name sub : string) : option value :=
  match field self jobname name with
  | Some v => dict_get (KStr sub) (dict_items v)
  | None => None
  end.

(** [_parse_cidict(doc)] on a new [CiFile()], followed by
    [prepare_run_with(ref, source, "msg", "abc")] in a process whose
    environment is [env]. *)
Definition prepare (doc : value) (env : environ) (ref source : string)
  : option (result (CiFile * environ)) :=
  match _parse_cidict (init VNone) doc with
  | Raise e => Some (Raise e)
  | Ok self => prepare_run_with self env ref source "msg" "abc" VNone
  end.

(** [_parse_cidict(doc)] on a new [CiFile()], and what it leaves in a job. *)
Definition parse (doc : value) : result CiFile := _parse_cidict (init VNone) doc.

Definition parsed_field (doc : value) (jobname name : string) : option value :=
  match parse doc with
  | Ok self => field self jobname name
  | Raise _ => None
  end.

(** The [CiFile] a document leaves, where normalisation did not raise. *)
Definition parsed (doc : value) : CiFile :=
  match parse doc with
  | Ok self => self
  | Raise _ => init VNone
  end.

(** A job of a pipeline, and its variables. *)
Definition the_job (self : CiFile) (jobname : string) : value :=
  match job self jobname with
  | Some j => j
  | None => VNone
  end.

Definition variables_of_job (j : value) : dict value :=
  dict_items (variables_of (dict_items j)).

(** What [_evaluate_jobs] leaves of a normalised document, and the
    environment it leaves, where it completes. *)
Definition evaluated (doc : value) (env : environ) : CiFile * environ :=
  match _evaluate_jobs (parsed doc) env with
  | Some (Ok r) => r
  | _ => (init VNone, [])
  end.

(** The environment [evaluate_job] leaves, where it completes. *)
Definition job_evaluated (env : environ) (j : value) : environ * bool :=
  match evaluate_job env j with
  | Ok r => r
  | Raise _ => ([], false)
  end.


(** The matrix of a normalised document and the [CiFile] after
    [_assign_ids], where both complete. *)
Definition numbered (doc : value) : value * CiFile :=
  match convert_to_matrix (parsed doc), _assign_ids (parsed doc) with
  | Ok matrix, Ok self => (matrix, self)
  | _, _ => (VNone, init VNone)
  end.

(** The [stages] of the pipeline after normalisation. *)
Definition parsed_stages (doc : value) : option value :=
  match parse doc with
  | Ok self => dict_get (KStr PIPELINEKEY_STAGES) (_cidict self)
  | Raise _ => None
  end.

Definition parsed_subfield (doc : value) (jobname name sub : string) : option value :=
  match parse doc with
  | Ok self => subfield self jobname name sub
  | Raise _ => None
  end.

(** The names of the jobs left by a run that completed. *)
Definition jobs_left (r : option (result (CiFile * environ))) : option (list key) :=
  match r with
  | Some (Ok (self, _)) => Some (job_names (_cidict self))
  | _ => None
  end.

(** A variable of the process environment after a run that completed. *)
Definition env_left (r : option (result (CiFile * environ))) (name : string)
  : option string :=
  match r with
  | Some (Ok (_, env)) => env_get name env
  | _ => None
  end.

(** A field of a job after a run that completed. *)
Definition field_left (r : option (result (CiFile * environ))) (jobname name : string)
  : option value :=
  match r with
  | Some (Ok (self, _)) => field self jobname name
  | _ => None
  end.

(** What a caller may do with the dict or the matrix it was handed:
    [returned["stages"].append("deploy")] *)
Definition caller_appends_stage (h : Store.heap) (returned : Store.ref)
  : result Store.heap :=
  stages <- Store.getitem h returned "stages" ;;
  Store.append h stages (Store.RStr "deploy").

(** [matrix["jobs"][0]["job"]["script"] = None] *)
Definition caller_clears_script (h : Store.heap) (matrix : Store.ref)
  : result Store.heap :=
  groups <- Store.getitem h matrix "jobs" ;;
  group <- Store.getindex h groups 0 ;;
  j <- Store.getitem h group "job" ;;
  Store.setitem h j "script" Store.RNone.

(** [copy["job"]["script"] = None] *)
Definition caller_clears_copied_script (h : Store.heap) (copy : Store.ref)
  : result Store.heap :=
  j <- Store.getitem h copy "job" ;;
  Store.setitem h j "script" Store.RNone.

(** job: { script: } -- a script key without a value *)
Definition script_null : value :=
  mapping [("job", mapping [("script", VNone)])].

(** job: { script: [make], stage: "" } *)
Definition stage_empty : value :=
  mapping [("job", mapping [("script", strings ["make"]); ("stage", VStr "")])].

(** job: echo *)
Definition job_scalar : value := mapping [("job", VStr "echo")].

(** job: [] *)
Definition job_empty_list : value := mapping [("job", VList [])].

(** job: [[make]] -- a list without a coercible element *)
Definition job_nested_list : value :=
  mapping [("job", VList [strings ["make"]])].

(** job: { script: [make], artifacts: { expire_in: 7 days } } *)
Definition expire_only : value :=
  mapping [("job", mapping [("script", strings ["make"]);
                            ("artifacts", mapping [("expire_in", VStr "7 days")])])].

(** job: { script: [make], artifacts: { name: build, expire_in: 7 days } } *)
Definition expire_and_name : value :=
  mapping [("job", mapping [("script", strings ["make"]);
                            ("artifacts", mapping [("name", VStr "build");
                                                   ("expire_in", VStr "7 days")])])].

(** job: { script: [make], variables: { X: "", Y: 3 } } *)
Definition empty_variable : value :=
  mapping [("job", mapping [("script", strings ["make"]);
                            ("variables", mapping [("X", VStr ""); ("Y", VInt 3)])])].

(** variables: { X: "1" }; job: { script: [make], variables: { X: "" } }
    -- the job declares X, as the empty string *)
Definition own_empty : value :=
  mapping [("variables", mapping [("X", VStr "1")]);
           ("job", mapping [("script", strings ["make"]);
                            ("variables", mapping [("X", VStr "")])])].

(** job: { script: [make], variables: { X: "3" } }, for a CiFile that is
    created with the forced variables { X: "" } *)
Definition own_three : value :=
  mapping [("job", mapping [("script", strings ["make"]);
                            ("variables", mapping [("X", VStr "3")])])].

Definition forced_empty : value := mapping [("X", VStr "")].

(** [CiFile(variables=...)._parse_cidict(doc)], and a variable of a job
    as the document itself declares it. *)
Definition parse_with (variables doc : value) : result CiFile :=
  _parse_cidict (init variables) doc.

Definition parsed_with (variables doc : value) : CiFile :=
  match parse_with variables doc with
  | Ok self => self
  | Raise _ => init VNone
  end.

Definition declared_in (doc : value) (jobname X : string) : option value :=
  subfield (with_cidict (init VNone) (dict_items doc)) jobname JOBKEY_VARIABLES X.

(** variables: { X: "1", Z: "9" }; job: { variables: { X: "3", Y: "4" } },
    in a CiFile created with the forced variables { Y: "5" } *)
Definition three_sources : CiFile :=
  with_cidict (init (mapping [("Y", VStr "5")]))
    [(KStr "variables", mapping [("X", VStr "1"); ("Z", VStr "9")]);
     (KStr "job", mapping [("variables", mapping [("X", VStr "3"); ("Y", VStr "4")])])].

(** job: { script: [make], only: [triggers] } *)
Definition only_triggers : value :=
  mapping [("job", mapping [("script", strings ["make"]);
                            ("only", strings ["triggers"])])].

(** The job [b] runs on master when [$FOO == 1]; [a_variables] are the
    variables of the other job, [a]. *)
Definition job_a (a_variables : list (string * value)) : string * value :=
  ("a", mapping [("script", strings ["make"]); ("variables", mapping a_variables)]).

Definition job_b : string * value :=
  ("b", mapping [("script", strings ["make"]);
                 ("only", strings ["master"; "$FOO == 1"])]).

(** "": { script: [make], dependencies: [ghost] } *)
Definition nameless_job : value :=
  mapping [("", mapping [("script", strings ["make"]);
                         ("dependencies", strings ["ghost"])])].

(** job: { script: [make], dependencies: [image] } *)
Definition depends_on_image : value :=
  mapping [("job", mapping [("script", strings ["make"]);
                            ("dependencies", strings ["image"])])].

(** a: needs b; b: needs c; c: needs a missing job; d: needs itself *)
Definition chain : value :=
  mapping [("a", mapping [("script", strings ["make"]); ("dependencies", strings ["b"])]);
           ("b", mapping [("script", strings ["make"]); ("dependencies", strings ["c"])]);
           ("c", mapping [("script", strings ["make"]); ("dependencies", strings ["gone"])]);
           ("d", mapping [("script", strings ["make"]); ("dependencies", strings ["d"])])].

(** The pipeline of [job: { script: [make] }] after normalisation, held
    as objects in a store. *)
Definition internal : Store.heap * Store.ref :=
  match parse (mapping [("job", mapping [("script", strings ["make"])])]) with
  | Ok self => Store.store (VDict (_cidict self)) []
  | Raise _ => ([], Store.RNone)
  end.

(** The internal pipeline as it is once [accessor] has handed out its
    result and the caller has done [change] to that result. *)
Definition internal_after
    (accessor : Store.heap -> Store.ref -> option (Store.heap * Store.ref))
    (change : Store.heap -> Store.ref -> result Store.heap) : option value :=
  let '(h, cidict) := internal in
  match accessor h cidict with
  | Some (h, returned) =>
      match change h returned with
      | Ok h => Store.snapshot h cidict
      | Raise _ => None
      end
  | None => None
  end.

(** [l = []; l.append(l)]: a list that holds itself. *)
Definition self_holding : Store.heap * Store.ref :=
  ([Store.OList [Store.RObj 0]], Store.RObj 0).

(** The copy [get_cidict] hands out of the internal pipeline, and the
    store afterwards. *)
Definition internal_copy : Store.ref * Store.heap :=
  match Store.get_cidict (fst internal) (snd internal) with
  | Some r => r
  | None => (Store.RNone, [])
  end.

Definition no_change (h : Store.heap) (returned : Store.ref) : result Store.heap :=
  Ok h.

Definition matrix_accessor (h : Store.heap) (cidict : Store.ref)
  : option (Store.heap * Store.ref) :=
  match Store.convert_to_matrix h cidict with
  | Ok r => Some r
  | Raise _ => None
  end.

Definition copy_accessor (h : Store.heap) (cidict : Store.ref)
  : option (Store.heap * Store.ref) :=
  match Store.get_cidict h cidict with
  | Some (copy, h) => Some (h, copy)
  | None => None
  end.

(** [pipeline["stages"]] and [pipeline["job"]["script"]] of a document. *)
Definition stages_of (pipeline : option value) : option value :=
  match pipeline with
  | Some p => dict_get (KStr "stages") (dict_items p)
  | None => None
  end.

Definition script_of (pipeline : option value) : option value :=
  match pipeline with
  | Some p =>
      match dict_get (KStr "job") (dict_items p) with
      | Some j => dict_get (KStr "script") (dict_items j)
      | None => None
      end
  | None => None
  end.

(** [n] calls of [next_job_id] in a row: the ids they return, and the
    generator afterwards. *)
Fixpoint job_ids (n : nat) (g : IdGenerator) : list Z * IdGenerator :=
  match n with
  | O => ([], g)
  | S n' =>
      let '(i, g) := next_job_id g in
      let '(ids, g) := job_ids n' g in
      (i :: ids, g)
  end.

(** How many job ids a matrix asks for: one for every job of every
    group. *)
Definition matrix_size (matrix : value) : nat :=
  match dict_get (KStr MATRIXKEY_JOBS) (dict_items matrix) with
  | Some (VList groups) =>
      list_sum (map (fun group => List.length (dict_items group)) groups)
  | _ => O
  end.

(** The groups of a matrix. *)
Definition matrix_groups (matrix : value) : list value :=
  match dict_get (KStr MATRIXKEY_JOBS) (dict_items matrix) with
  | Some (VList groups) => groups
  | _ => []
  end.

(** The last character of a string. *)
Fixpoint last_char (s : string) : option ascii :=
  match s with
  | EmptyString => None
  | String c EmptyString => Some c
  | String _ rest => last_char rest
  end.

(** A commit message of more than 100 characters: a title and a body. *)
Definition long_message : string :=
  "Release 2.0" ++ String "010"
    ("This release reworks the stage scan, the variable handling and the pruning of jobs "
     ++ "whose dependencies are gone.").

(** Sixty times the letter U+00E9, a line break and [body]: 65 characters
    in 125 bytes. *)
Definition accented_message : string :=
  String.concat EmptyString (repeat (String "195" (String "169" EmptyString)) 60)
  ++ String "010" "body".

(** a: { script: [make], dependencies: [b] }; b: { script: [make] } *)
Definition two_jobs : value :=
  mapping [("a", mapping [("script", strings ["make"]); ("dependencies", strings ["b"])]);
           ("b", mapping [("script", strings ["make"])])].

End Doc.

(* ================================================================== *)
(** ** Facts about dictionaries and the result monad                   *)
(* ================================================================== *)

Import Py Ci.

Lemma key_eqb_eq (a b : key) : key_eqb a b = true <-> a = b.
Proof.
  destruct a, b; simpl; split; intro H; try discriminate; try reflexivity.
  - apply String.eqb_eq in H. now subst.
  - injection H as ->. apply String.eqb_refl.
  - apply Z.eqb_eq in H. now subst.
  - injection H as ->. apply Z.eqb_refl.
Qed.

Lemma key_eqb_refl (a : key) : key_eqb a a = true.
Proof. now apply key_eqb_eq. Qed.

Lemma key_eqb_neq (a b : key) : key_eqb a b = false <-> a <> b.
Proof.
  split.
  - intros H E. apply key_eqb_eq in E. congruence.
  - intro H. destruct (key_eqb a b) eqn:E; [|reflexivity].
    apply key_eqb_eq in E. contradiction.
Qed.

Lemma key_eqb_sym (a b : key) : key_eqb a b = key_eqb b a.
Proof.
  destruct (key_eqb a b) eqn:E.
  - apply key_eqb_eq in E. subst. symmetry. apply key_eqb_refl.
  - symmetry. apply key_eqb_neq. apply key_eqb_neq in E. congruence.
Qed.

Section DictFacts.
Context {V : Type}.
Implicit Types (d : dict V) (k : key) (v : V).

Lemma dict_get_set_same k v d : dict_get k (dict_set k v d) = Some v.
Proof.
  induction d as [|[k' v'] d IH]; simpl.
  - now rewrite key_eqb_refl.
  - destruct (key_eqb k k') eqn:E; simpl; rewrite E; [reflexivity|exact IH].
Qed.

Lemma dict_get_set_other k k' v d :
  k <> k' -> dict_get k' (dict_set k v d) = dict_get k' d.
Proof.
  intro N. induction d as [|[k0 v0] d IH]; simpl.
  - apply key_eqb_neq in N. now rewrite key_eqb_sym, N.
  - destruct (key_eqb k k0) eqn:E; simpl.
    + apply key_eqb_eq in E. subst k0.
      apply key_eqb_neq in N. now rewrite key_eqb_sym, N.
    + now rewrite IH.
Qed.

Lemma dict_get_set k k' v d :
  dict_get k' (dict_set k v d) = if key_eqb k k' then Some v else dict_get k' d.
Proof.
  destruct (key_eqb k k') eqn:E.
  - apply key_eqb_eq in E. subst. apply dict_get_set_same.
  - apply dict_get_set_other. now apply key_eqb_neq.
Qed.

Lemma dict_get_del_same k d : dict_get k (dict_del k d) = None.
Proof.
  induction d as [|[k' v'] d IH]; simpl; [reflexivity|].
  destruct (key_eqb k k') eqn:E; simpl; [exact IH|now rewrite E].
Qed.

Lemma dict_get_del_other k k' d :
  k <> k' -> dict_get k' (dict_del k d) = dict_get k' d.
Proof.
  intro N. induction d as [|[k0 v0] d IH]; simpl; [reflexivity|].
  destruct (key_eqb k k0) eqn:E; simpl.
  - apply key_eqb_eq in E. subst k0.
    apply key_eqb_neq in N. now rewrite key_eqb_sym, N.
  - now rewrite IH.
Qed.

Lemma dict_get_none_notin k d : dict_get k d = None <-> ~ In k (dict_keys d).
Proof.
  induction d as [|[k' v'] d IH]; simpl.
  - tauto.
  - destruct (key_eqb k k') eqn:E.
    + apply key_eqb_eq in E. subst. split; [discriminate|tauto].
    + apply key_eqb_neq in E. rewrite IH. split; [intros H [?|?]; congruence|tauto].
Qed.

(** Setting a key to the value it has changes nothing. *)
Lemma dict_set_same_value k v d : dict_get k d = Some v -> dict_set k v d = d.
Proof.
  induction d as [|[k' v'] d IH]; simpl; [discriminate|].
  destruct (key_eqb k k') eqn:E.
  - now intros [= ->].
  - intro H. now rewrite IH.
Qed.

(** A new key goes to the end. *)
Lemma dict_set_fresh k v d : dict_get k d = None -> dict_set k v d = d ++ [(k, v)].
Proof.
  induction d as [|[k' v'] d IH]; simpl; [reflexivity|].
  destruct (key_eqb k k') eqn:E; [discriminate|].
  intro H. now rewrite IH.
Qed.

Lemma dict_del_absent k d : dict_get k d = None -> dict_del k d = d.
Proof.
  induction d as [|[k' v'] d IH]; simpl; [reflexivity|].
  destruct (key_eqb k k') eqn:E; [discriminate|].
  simpl. intro H. now rewrite IH.
Qed.

Lemma dict_keys_set_fresh k v d :
  dict_get k d = None -> dict_keys (dict_set k v d) = dict_keys d ++ [k].
Proof.
  intro H. rewrite dict_set_fresh by assumption.
  unfold dict_keys. now rewrite map_app.
Qed.

Lemma dict_keys_set_present k v d :
  dict_get k d <> None -> dict_keys (dict_set k v d) = dict_keys d.
Proof.
  induction d as [|[k' v'] d IH]; simpl; [congruence|].
  destruct (key_eqb k k') eqn:E; simpl; [reflexivity|].
  intro H. now rewrite IH.
Qed.

End DictFacts.

(* ================================================================== *)
(** ** The ref slug                                                    *)
(* ================================================================== *)

Lemma lower_char_not_upper (c : ascii) : is_upper (lower_char c) = false.
Proof. destruct c as [[] [] [] [] [] [] [] []]; reflexivity. Qed.

Lemma lower_char_small (c : ascii) : lower_char c = Spec.small c.
Proof. destruct c as [[] [] [] [] [] [] [] []]; reflexivity. Qed.

Lemma alnum_in_class (c : ascii) :
  is_upper c = false -> is_alnum c = Spec.in_class c.
Proof.
  destruct c as [[] [] [] [] [] [] [] []]; vm_compute; intro H;
    try discriminate H; reflexivity.
Qed.

Lemma in_class_in_0_9_a_z (c : ascii) : Spec.in_class c = Spec.in_0_9_a_z c.
Proof. destruct c as [[] [] [] [] [] [] [] []]; reflexivity. Qed.

Lemma list_of_length (s : string) :
  List.length (list_ascii_of_string s) = String.length s.
Proof. induction s as [|c s IH]; simpl; [reflexivity|now rewrite IH]. Qed.

Lemma lowercase_upto_nil (n : nat) : Spec.lowercase_upto n [] = [].
Proof. now destruct n. Qed.

(** [lower] and the lowercase of the specification, whatever number of
    characters the latter is given to go through, if it is enough. *)
Lemma lower_lowercase_upto (n : nat) :
  forall s, String.length s <= n ->
  list_ascii_of_string (lower s) = Spec.lowercase_upto n (list_ascii_of_string s).
Proof.
  induction n as [|n IH]; intros [|c rest] L; simpl in L; try reflexivity; [lia|].
  cbn [lower]. cbn [list_ascii_of_string Spec.lowercase_upto].
  destruct rest as [|c1 rest1].
  { cbn. destruct (Ascii.eqb c "196"); destruct (Ascii.eqb c "226");
      rewrite lowercase_upto_nil; now rewrite lower_char_small. }
  cbn [list_ascii_of_string Spec.after Spec.dotted_capital_i Spec.kelvin_sign].
  simpl in L.
  destruct (Ascii.eqb c "196") eqn:C196.
  - destruct (Ascii.eqb c1 "176") eqn:C176; cbn [andb].
    + cbn [list_ascii_of_string Spec.small_i_and_dot app]. do 3 f_equal.
      apply IH. lia.
    + apply Ascii.eqb_eq in C196. subst c. cbn [Ascii.eqb Bool.eqb andb].
      assert (list_ascii_of_string (String (lower_char "196") (lower (String c1 rest1)))
              = Spec.small "196" :: Spec.lowercase_upto n (c1 :: list_ascii_of_string rest1))
        as Plain.
      { cbn [list_ascii_of_string]. f_equal. apply (IH (String c1 rest1)). simpl. lia. }
      destruct rest1 as [|c2 rest2]; exact Plain.
  - cbn [andb].
    assert (list_ascii_of_string (String (lower_char c) (lower (String c1 rest1)))
            = Spec.small c :: Spec.lowercase_upto n (c1 :: list_ascii_of_string rest1))
      as Plain.
    { cbn [list_ascii_of_string]. f_equal; [apply lower_char_small|].
      apply (IH (String c1 rest1)). simpl. lia. }
    destruct rest1 as [|c2 rest2].
    + cbn [list_ascii_of_string Spec.after].
      destruct (Ascii.eqb c "226"); [destruct (Ascii.eqb c1 "132")|]; exact Plain.
    + cbn [list_ascii_of_string Spec.after].
      destruct (Ascii.eqb c "226"); cbn [andb]; [|exact Plain].
      destruct (Ascii.eqb c1 "132"); cbn [andb]; [|exact Plain].
      destruct (Ascii.eqb c2 "170"); [|exact Plain].
      cbn [list_ascii_of_string]. f_equal. apply IH. simpl in L. lia.
Qed.

Lemma lower_lowercase (s : string) :
  list_ascii_of_string (lower s) = Spec.lowercase (list_ascii_of_string s).
Proof.
  unfold Spec.lowercase. apply lower_lowercase_upto. now rewrite list_of_length.
Qed.

(** No capital letter is left after the lowercase. *)
Lemma lowercase_upto_no_capital (n : nat) :
  forall l, Forall (fun c => is_upper c = false) (Spec.lowercase_upto n l).
Proof.
  assert (forall c, is_upper (Spec.small c) = false) as Small
    by (intro c; rewrite <- lower_char_small; apply lower_char_not_upper).
  induction n as [|n IH]; intros [|c l]; cbn [Spec.lowercase_upto]; try constructor.
  destruct (Spec.after Spec.dotted_capital_i (c :: l)) as [rest|].
  - cbn. repeat constructor. apply IH.
  - destruct (Spec.after Spec.kelvin_sign (c :: l)) as [rest|];
      constructor; try apply IH; [reflexivity|apply Small].
Qed.

Lemma lower_no_capital (s : string) :
  Forall (fun c => is_upper c = false) (list_ascii_of_string (lower s)).
Proof. rewrite lower_lowercase. apply lowercase_upto_no_capital. Qed.

(** The runs depend on the class only through the characters met. *)
Lemma runs_ext (inside inside' : ascii -> bool) (l : list ascii) :
  Forall (fun c => inside c = inside' c) l -> Spec.runs inside l = Spec.runs inside' l.
Proof.
  induction 1 as [|c l E F IH]; simpl; [reflexivity|]. now rewrite IH, E.
Qed.

(** The substitution of the code writes what the replacement of the
    runs gives; where the dash of a run is written already, the run
    the text begins with gives none. *)
Lemma sub_runs_replace_runs (keep : ascii -> bool) (s : string) :
  forall in_run,
    list_ascii_of_string (sub_runs keep in_run s)
    = match Spec.runs keep (list_ascii_of_string s) with
      | (false, _) :: more =>
          (if in_run then [] else ["-"%char])
          ++ flat_map (fun r : bool * list ascii => if fst r then snd r else ["-"%char]) more
      | all => flat_map (fun r : bool * list ascii => if fst r then snd r else ["-"%char]) all
      end.
Proof.
  induction s as [|c s IH]; intro in_run; [reflexivity|].
  cbn [sub_runs list_ascii_of_string Spec.runs].
  destruct (keep c) eqn:K.
  - cbn [list_ascii_of_string]. rewrite IH.
    destruct (Spec.runs keep (list_ascii_of_string s)) as [|[[|] run] more];
      cbn; reflexivity.
  - assert (list_ascii_of_string (if in_run then sub_runs keep true s
                                  else String "-" (sub_runs keep true s))
            = (if in_run then [] else ["-"%char])
              ++ list_ascii_of_string (sub_runs keep true s)) as ->
      by now destruct in_run.
    rewrite IH.
    destruct (Spec.runs keep (list_ascii_of_string s)) as [|[[|] run] more];
      cbn; reflexivity.
Qed.

Lemma sub_runs_as_specified (keep : ascii -> bool) (s : string) :
  list_ascii_of_string (sub_runs keep false s)
  = Spec.replace_runs keep (list_ascii_of_string s).
Proof.
  rewrite sub_runs_replace_runs. unfold Spec.replace_runs.
  now destruct (Spec.runs keep (list_ascii_of_string s)) as [|[[|] run] more].
Qed.

(** The runs are the maximal runs: put together they are the text, no
    run is empty, every character of a run is on the side of the run,
    and two runs that follow each other are on different sides. *)
Lemma runs_are_maximal (inside : ascii -> bool) (l : list ascii) :
  concat (map snd (Spec.runs inside l)) = l
  /\ Forall (fun r => snd r <> [] /\ Forall (fun c => inside c = fst r) (snd r))
            (Spec.runs inside l)
  /\ forall before r1 r2 more,
       Spec.runs inside l = before ++ r1 :: r2 :: more -> fst r1 <> fst r2.
Proof.
  induction l as [|c l (Whole & Sides & Change)]; cbn [Spec.runs].
  - split; [reflexivity|]. split; [constructor|].
    intros [|? ?] ? ? ? E; discriminate E.
  - destruct (Spec.runs inside l) as [|[side run] more] eqn:R.
    + cbn in Whole. subst l. split; [reflexivity|]. split.
      * constructor; [|constructor]. split; [discriminate|].
        constructor; [reflexivity|constructor].
      * intros [|? [|? ?]] ? ? ? E; discriminate E.
    + cbn [map snd concat] in Whole.
      apply Forall_cons_iff in Sides. destruct Sides as [[Nonempty Run] Rest].
      cbn [fst snd] in *.
      destruct (Bool.eqb (inside c) side) eqn:E.
      * apply Bool.eqb_prop in E. split; [cbn; now rewrite Whole|]. split.
        -- constructor; [|assumption]. split; [discriminate|]. now constructor.
        -- intros [|r0 before] r1 r2 more' Eq.
           ++ injection Eq as <- Eq. cbn [fst].
              apply (Change [] (side, run) r2 more'). cbn. now rewrite Eq.
           ++ injection Eq as _ Eq.
              apply (Change ((side, run) :: before) r1 r2 more').
              cbn. now rewrite Eq.
      * apply Bool.eqb_false_iff in E. split; [cbn; now rewrite Whole|]. split.
        -- constructor; [|constructor; [now split|assumption]].
           split; [discriminate|]. constructor; [reflexivity|constructor].
        -- intros [|r0 before] r1 r2 more' Eq.
           ++ injection Eq as <- <- _. exact E.
           ++ injection Eq as _ Eq. now apply (Change before r1 r2 more').
Qed.

Lemma take_firstn (n : nat) (s : string) :
  list_ascii_of_string (take n s) = firstn n (list_ascii_of_string s).
Proof.
  revert s. induction n as [|n IH]; intros [|c s]; simpl; try reflexivity.
  now rewrite IH.
Qed.

Lemma is_dash (c : ascii) : is_char "-" c = Ascii.eqb c "-".
Proof.
  unfold is_char. destruct (Ascii.eqb c "-") eqn:E.
  - apply Ascii.eqb_eq in E. now subst.
  - apply Ascii.eqb_neq. apply Ascii.eqb_neq in E. congruence.
Qed.

Lemma lstrip_drop_dashes (s : string) :
  list_ascii_of_string (lstrip (is_char "-") s)
  = Spec.drop_dashes (list_ascii_of_string s).
Proof.
  induction s as [|c s IH]; [reflexivity|].
  cbn [lstrip list_ascii_of_string Spec.drop_dashes]. rewrite is_dash.
  destruct (Ascii.eqb c "-"); [exact IH|reflexivity].
Qed.

Lemma drop_dashes_last (l : list ascii) (c : ascii) :
  Spec.drop_dashes (l ++ [c])
  = match Spec.drop_dashes l with
    | [] => if Ascii.eqb c "-" then [] else [c]
    | kept => kept ++ [c]
    end.
Proof.
  induction l as [|a l IH]; cbn [app Spec.drop_dashes];
    [now destruct (Ascii.eqb c "-")|].
  destruct (Ascii.eqb a "-"); [exact IH|reflexivity].
Qed.

Lemma rstrip_drop_dashes (s : string) :
  list_ascii_of_string (rstrip (is_char "-") s)
  = rev (Spec.drop_dashes (rev (list_ascii_of_string s))).
Proof.
  induction s as [|c s IH]; [reflexivity|].
  cbn [rstrip list_ascii_of_string rev]. rewrite drop_dashes_last, is_dash.
  destruct (rstrip (is_char "-") s) as [|a r] eqn:R.
  - cbn [list_ascii_of_string] in IH.
    destruct (Spec.drop_dashes (rev (list_ascii_of_string s))) as [|k kept] eqn:D.
    + now destruct (Ascii.eqb c "-").
    + cbn [rev] in IH. destruct (rev kept); discriminate IH.
  - change (list_ascii_of_string (String c (String a r)))
      with (c :: list_ascii_of_string (String a r)).
    rewrite IH.
    destruct (Spec.drop_dashes (rev (list_ascii_of_string s))) as [|k kept] eqn:D.
    + discriminate IH.
    + now rewrite rev_app_distr.
Qed.

Lemma strip_trim (s : string) :
  list_ascii_of_string (strip (is_char "-") s) = Spec.trim (list_ascii_of_string s).
Proof.
  unfold strip, Spec.trim. now rewrite rstrip_drop_dashes, lstrip_drop_dashes.
Qed.

(** The slug of the code is the slug of the specification. *)
Lemma ref_slug_refines (name : string) : CI_COMMIT_REF_SLUG name = Spec.ref_slug name.
Proof.
  rewrite <- (string_of_list_ascii_of_string (CI_COMMIT_REF_SLUG name)).
  unfold CI_COMMIT_REF_SLUG, Spec.ref_slug. f_equal.
  rewrite strip_trim, take_firstn, sub_runs_as_specified, <- lower_lowercase.
  unfold Spec.replace_runs.
  rewrite (runs_ext is_alnum Spec.in_class); [reflexivity|].
  apply (Forall_impl _ alnum_in_class), lower_no_capital.
Qed.

(** C10.  For every commit ref name the derived CI_COMMIT_REF_SLUG is
    the slug of the specification: the name lowercased, every maximal
    run of characters outside [0-9a-z] replaced by one dash, cut to 63
    characters, stripped of dashes at both ends; and the ref name
    "Feature/XYZ_123!" yields "feature-xyz-123". *)
Theorem ref_slug_as_specified :
  (forall name, CI_COMMIT_REF_SLUG name = Spec.ref_slug name)
  /\ CI_COMMIT_REF_SLUG "Feature/XYZ_123!" = "feature-xyz-123".
Proof. split; [exact ref_slug_refines|reflexivity]. Qed.

Lemma take_length (n : nat) (s : string) : String.length (take n s) <= n.
Proof.
  revert s. induction n as [|n IH]; intros [|c s]; simpl; try lia.
  specialize (IH s). lia.
Qed.

Lemma lstrip_length (drop : ascii -> bool) (s : string) :
  String.length (lstrip drop s) <= String.length s.
Proof. induction s as [|c s IH]; simpl; [lia|]. destruct (drop c); simpl; lia. Qed.

Lemma rstrip_length (drop : ascii -> bool) (s : string) :
  String.length (rstrip drop s) <= String.length s.
Proof.
  induction s as [|c s IH]; simpl; [lia|].
  destruct (rstrip drop s); [destruct (drop c)|]; simpl in *; lia.
Qed.

Lemma all_chars_take (p : ascii -> bool) (n : nat) (s : string) :
  all_chars p s = true -> all_chars p (take n s) = true.
Proof.
  revert s. induction n as [|n IH]; intros [|c s]; simpl; try reflexivity.
  intro H. apply andb_true_iff in H. destruct H as [-> H]. now apply IH.
Qed.

Lemma all_chars_lstrip (p drop : ascii -> bool) (s : string) :
  all_chars p s = true -> all_chars p (lstrip drop s) = true.
Proof.
  induction s as [|c s IH]; simpl; [reflexivity|].
  intro H. destruct (drop c); [|exact H].
  apply andb_true_iff in H. now apply IH.
Qed.

Lemma all_chars_rstrip (p drop : ascii -> bool) (s : string) :
  all_chars p s = true -> all_chars p (rstrip drop s) = true.
Proof.
  induction s as [|c s IH]; simpl; [reflexivity|].
  intro H. apply andb_true_iff in H. destruct H as [Pc H]. specialize (IH H).
  destruct (rstrip drop s); [destruct (drop c); simpl; [reflexivity|now rewrite Pc]|].
  change (all_chars p (String c (String a s0)))
    with (p c && all_chars p (String a s0)). now rewrite Pc.
Qed.

Lemma all_chars_sub_runs (keep : ascii -> bool) (in_run : bool) (s : string) :
  all_chars (fun c => keep c || is_char "-" c) (sub_runs keep in_run s) = true.
Proof.
  revert in_run. induction s as [|c s IH]; intro in_run; simpl; [reflexivity|].
  destruct (keep c) eqn:K; simpl.
  - now rewrite K, IH.
  - destruct in_run; simpl; rewrite IH, ?orb_true_r; reflexivity.
Qed.

Lemma lstrip_head (drop : ascii -> bool) (s : string) :
  match lstrip drop s with
  | EmptyString => True
  | String c _ => drop c = false
  end.
Proof.
  induction s as [|c s IH]; simpl; [exact I|].
  destruct (drop c) eqn:D; [exact IH|exact D].
Qed.

Lemma rstrip_head (drop : ascii -> bool) (s : string) :
  match s, rstrip drop s with
  | String c _, String c' _ => c' = c
  | _, _ => True
  end.
Proof.
  destruct s as [|c s]; simpl; [exact I|].
  destruct (rstrip drop s); [destruct (drop c)|]; simpl; auto.
Qed.

(** What the substitution writes is a dash or a character it keeps. *)
Lemma sub_runs_chars (keep p : ascii -> bool) (Q : ascii -> Prop) (s : string) :
  Forall Q (list_ascii_of_string s) ->
  (forall c, Q c -> keep c = true -> p c = true) ->
  forall in_run,
    all_chars (fun c => p c || is_char "-" c) (sub_runs keep in_run s) = true.
Proof.
  intros F K. induction s as [|c s IH]; intro in_run; [reflexivity|].
  cbn [list_ascii_of_string] in F. apply Forall_cons_iff in F. destruct F as [Qc F].
  cbn [sub_runs]. destruct (keep c) eqn:Kc.
  - cbn [all_chars]. now rewrite (K c Qc Kc), IH.
  - destruct in_run; [now apply IH|]. cbn [all_chars].
    rewrite IH by assumption. now rewrite orb_true_r.
Qed.

(** The slug is at most 63 characters long, is made of digits, small
    letters and dashes, and does not begin with a dash. *)
Lemma ref_slug_shape (name : string) :
  String.length (CI_COMMIT_REF_SLUG name) <= 63
  /\ all_chars Spec.slug_char (CI_COMMIT_REF_SLUG name) = true
  /\ startswith (CI_COMMIT_REF_SLUG name) "-" = false.
Proof.
  unfold CI_COMMIT_REF_SLUG, strip.
  set (t := take 63 (sub_runs is_alnum false (lower name))).
  repeat split.
  - pose proof (rstrip_length (is_char "-") (lstrip (is_char "-") t)).
    pose proof (lstrip_length (is_char "-") t).
    pose proof (take_length 63 (sub_runs is_alnum false (lower name))) as H1.
    fold t in H1. lia.
  - apply all_chars_rstrip, all_chars_lstrip, all_chars_take.
    apply (sub_runs_chars is_alnum Spec.in_0_9_a_z (fun c => is_upper c = false));
      [apply lower_no_capital|].
    intros c U A. unfold is_alnum in A. rewrite U, orb_false_r in A. exact A.
  - pose proof (lstrip_head (is_char "-") t) as Hd.
    pose proof (rstrip_head (is_char "-") (lstrip (is_char "-") t)) as Rh.
    destruct (lstrip (is_char "-") t) as [|c s']; [reflexivity|].
    destruct (rstrip (is_char "-") (String c s')) as [|c' s'']; [reflexivity|].
    subst c'. unfold startswith. cbn [String.prefix].
    destruct (ascii_dec "-" c) as [<-|N]; [discriminate Hd|reflexivity].
Qed.

(* ================================================================== *)
(** ** Variable coercion and combination                               *)
(* ================================================================== *)

Lemma extract_str_truthy (v : value) :
  truthy (extract_str v VNone) = true -> Spec.nonempty_str (extract_str v VNone).
Proof.
  unfold extract_str. destruct (py_str v) as [s|] eqn:E.
  - simpl. intro H. exists s. split; [reflexivity|].
    intros ->. discriminate.
  - destruct v as [| | | | |l|]; simpl; try discriminate.
    destruct (filter is_str l) as [|x xs] eqn:F; simpl; [discriminate|].
    assert (In x (filter is_str l)) as I by (rewrite F; now left).
    apply filter_In in I. destruct I as [_ I].
    destruct x as [| | | |s| |]; try discriminate. simpl. intro H.
    exists s. split; [reflexivity|]. intros ->. discriminate.
Qed.

Lemma nonempty_str_fixed (v : value) :
  Spec.nonempty_str v -> extract_str v VNone = v /\ truthy v = true.
Proof.
  intros (s & -> & N). split; [reflexivity|].
  simpl. destruct (String.eqb s "") eqn:E; [|reflexivity].
  apply String.eqb_eq in E. contradiction.
Qed.

Lemma dict_set_nodup {V : Type} (k : key) (v : V) (d : dict V) :
  NoDup (dict_keys d) -> NoDup (dict_keys (dict_set k v d)).
Proof.
  intro N. destruct (dict_get k d) eqn:G.
  - rewrite dict_keys_set_present; [assumption|congruence].
  - rewrite dict_keys_set_fresh by assumption.
    apply NoDup_app; [assumption|repeat constructor; intros []|].
    intros x I [<-|[]]. now apply dict_get_none_notin in G.
Qed.

Lemma dict_set_forall {V : Type} (P : V -> Prop) (k : key) (v : V) (d : dict V) :
  P v -> Forall (fun kv => P (snd kv)) d ->
  Forall (fun kv => P (snd kv)) (dict_set k v d).
Proof.
  intros Pv F. induction d as [|[k' v'] d IH]; simpl.
  - now repeat constructor.
  - inversion F; subst. destruct (key_eqb k k'); constructor; auto.
Qed.

Lemma dict_set_coerced (k : key) (v : value) (d : dict value) :
  Spec.nonempty_str v -> Spec.coerced d -> Spec.coerced (dict_set k v d).
Proof.
  intros Pv [N F]. split; [now apply dict_set_nodup|].
  now apply (dict_set_forall Spec.nonempty_str).
Qed.

Lemma coerced_nil : Spec.coerced [].
Proof. split; constructor. Qed.

(** What [extract_str_dict] returns has no key twice and only non-empty
    strings as values. *)
Lemma extract_str_dict_coerced (d : value) : Spec.coerced (extract_str_dict d).
Proof.
  unfold extract_str_dict.
  generalize (@nil (key * value)) coerced_nil.
  induction (dict_items d) as [|[k v] l IH]; intros acc C; simpl; [assumption|].
  apply IH. destruct (truthy (extract_str v VNone)) eqn:T; [|assumption].
  apply dict_set_coerced; [now apply extract_str_truthy|assumption].
Qed.

(** Coercing a coerced mapping gives it back. *)
Lemma extract_str_dict_fixed (d : dict value) :
  Spec.coerced d -> extract_str_dict (VDict d) = d.
Proof.
  unfold extract_str_dict. simpl.
  assert (forall l acc,
             NoDup (dict_keys (acc ++ l)) ->
             Forall (fun kv => Spec.nonempty_str (snd kv)) l ->
             fold_left (fun ret '(var, value) =>
                          let value := extract_str value VNone in
                          if truthy value then dict_set var value ret else ret)
                       l acc = acc ++ l) as G.
  { induction l as [|[k v] l IH]; intros acc N F; simpl.
    - now rewrite app_nil_r.
    - inversion F as [|? ? Hv F']; subst. simpl in Hv.
      destruct (nonempty_str_fixed v Hv) as [-> ->].
      assert (dict_get k acc = None) as Fresh.
      { apply dict_get_none_notin. intro I.
        unfold dict_keys in N. rewrite map_app in N. simpl in N.
        apply NoDup_remove_2 in N. apply N, in_or_app. now left. }
      rewrite dict_set_fresh by assumption.
      rewrite IH; [now rewrite <- app_assoc| |assumption].
      now rewrite <- app_assoc. }
  intros [N F]. now apply (G d []).
Qed.

(** The pipeline's variables only fill in the names a job lacks. *)
Lemma fill_get (X : key) (pvars jvars : dict value) :
  dict_get X (fold_left (fun jvars '(pvar, gvalue) =>
                           if negb (dict_mem pvar jvars)
                           then dict_set pvar gvalue jvars else jvars) pvars jvars)
  = match dict_get X jvars with
    | Some v => Some v
    | None => dict_get X pvars
    end.
Proof.
  revert jvars. induction pvars as [|[p g] pvars IH]; intro jvars; simpl.
  - now destruct (dict_get X jvars).
  - rewrite IH. unfold dict_mem.
    destruct (key_eqb X p) eqn:E.
    + apply key_eqb_eq in E. subst p.
      destruct (dict_get X jvars) eqn:G; simpl; [now rewrite G|].
      now rewrite dict_get_set_same.
    + destruct (dict_get p jvars) eqn:G; simpl; [reflexivity|].
      rewrite dict_get_set_other; [reflexivity|].
      intros ->. now rewrite key_eqb_refl in E.
Qed.

(** Forced and injected variables overwrite. *)
Lemma overlay_get (X : key) (over jvars : dict value) :
  NoDup (dict_keys over) ->
  dict_get X (fold_left (fun jvars '(var, val) => dict_set var val jvars) over jvars)
  = match dict_get X over with
    | Some v => Some v
    | None => dict_get X jvars
    end.
Proof.
  revert jvars. induction over as [|[c v] over IH]; intros jvars N; simpl.
  - reflexivity.
  - inversion N as [|? ? Hc N']; subst. rewrite IH by assumption.
    destruct (key_eqb X c) eqn:E.
    + apply key_eqb_eq in E. subst c.
      assert (dict_get X over = None) as -> by now apply dict_get_none_notin.
      apply dict_get_set_same.
    + destruct (dict_get X over); [reflexivity|].
      apply dict_get_set_other. intros ->. now rewrite key_eqb_refl in E.
Qed.

Lemma fill_coerced (pvars jvars : dict value) :
  Spec.coerced pvars -> Spec.coerced jvars ->
  Spec.coerced (fold_left (fun jvars '(pvar, gvalue) =>
                             if negb (dict_mem pvar jvars)
                             then dict_set pvar gvalue jvars else jvars) pvars jvars).
Proof.
  intros [_ F]. revert jvars.
  induction pvars as [|[p g] pvars IH]; intros jvars C; simpl; [assumption|].
  inversion F; subst. apply IH; [assumption|].
  destruct (negb (dict_mem p jvars)); [|assumption].
  now apply dict_set_coerced.
Qed.

Lemma overlay_coerced (over jvars : dict value) :
  Spec.coerced over -> Spec.coerced jvars ->
  Spec.coerced (fold_left (fun jvars '(var, val) => dict_set var val jvars) over jvars).
Proof.
  intros [_ F]. revert jvars.
  induction over as [|[c v] over IH]; intros jvars C; simpl; [assumption|].
  inversion F; subst. apply IH; [assumption|].
  now apply dict_set_coerced.
Qed.

(** Overlaying what is already there changes nothing. *)
Lemma overlay_fixed (over jvars : dict value) :
  (forall c v, In (c, v) over -> dict_get c jvars = Some v) ->
  fold_left (fun jvars '(var, val) => dict_set var val jvars) over jvars = jvars.
Proof.
  revert jvars. induction over as [|[c v] over IH]; intros jvars H; simpl; [reflexivity|].
  rewrite dict_set_same_value by (apply H; now left).
  apply IH. intros c' v' I. apply H. now right.
Qed.

Lemma dict_get_in {V : Type} (k : key) (v : V) (d : dict V) :
  NoDup (dict_keys d) -> In (k, v) d -> dict_get k d = Some v.
Proof.
  induction d as [|[k' v'] d IH]; simpl; intros N I; [contradiction|].
  inversion N as [|? ? Hk N']; subst.
  destruct I as [[= -> ->]|I].
  - now rewrite key_eqb_refl.
  - destruct (key_eqb k k') eqn:E; [|now apply IH].
    apply key_eqb_eq in E. subst k'.
    exfalso. apply Hk. change k with (fst (k, v)). now apply in_map.
Qed.

Lemma combine_job_variables_get (pvars : dict value) (forced job : value) (X : key) :
  dict_get X (combine_job_variables pvars forced [] job)
  = Spec.resolve (extract_str_dict forced)
                 (extract_str_dict (variables_of (dict_items job))) pvars X.
Proof.
  unfold combine_job_variables, Spec.resolve. simpl.
  rewrite overlay_get by apply extract_str_dict_coerced.
  now rewrite fill_get.
Qed.

Lemma combine_job_variables_coerced (pvars : dict value) (forced job : value) :
  Spec.coerced pvars -> Spec.coerced (combine_job_variables pvars forced [] job).
Proof.
  intro C. unfold combine_job_variables. simpl.
  apply overlay_coerced; [apply extract_str_dict_coerced|].
  apply fill_coerced; [assumption|apply extract_str_dict_coerced].
Qed.

(** A job that went through the combination is left as it is by a
    second one, which finds no pipeline variables. *)
Lemma combine_job_variables_again (pvars its : dict value) (forced job : value) :
  Spec.coerced pvars ->
  let jvars := combine_job_variables pvars forced [] job in
  combine_job_variables [] forced []
    (VDict (dict_set (KStr JOBKEY_VARIABLES) (VDict jvars) its)) = jvars.
Proof.
  intros C jvars. unfold combine_job_variables at 1. simpl.
  unfold variables_of. fold JOBKEY_VARIABLES. rewrite dict_get_set_same.
  rewrite extract_str_dict_fixed by now apply combine_job_variables_coerced.
  apply overlay_fixed. intros c v I. subst jvars.
  rewrite combine_job_variables_get. unfold Spec.resolve.
  now rewrite (dict_get_in c v) by (apply extract_str_dict_coerced || assumption).
Qed.

Lemma dict_get_map {V : Type} (F : key * V -> key * V) (k : key) (d : dict V) :
  (forall e, fst (F e) = fst e) ->
  dict_get k (map F d) = option_map (fun v => snd (F (k, v))) (dict_get k d).
Proof.
  intro H. induction d as [|[k' v'] d IH]; simpl; [reflexivity|].
  specialize (H (k', v')) as H'. destruct (F (k', v')) as [k1 v1] eqn:E.
  simpl in H'. subst k1. destruct (key_eqb k k') eqn:K; [|exact IH].
  apply key_eqb_eq in K. subst k'. simpl. now rewrite E.
Qed.

Lemma combine_entry_key (pvars : dict value) (forced : value) (inj : dict value)
    (e : key * value) :
  fst (combine_entry pvars forced inj e) = fst e.
Proof. destruct e as [k j]. simpl. now destruct (is_jobname k && is_dict j). Qed.

Lemma is_jobname_not_variables (jobname : key) :
  is_jobname jobname = true -> KStr PIPELINEKEY_VARIABLES <> jobname.
Proof. intros H <-. discriminate. Qed.

(** Where a job stands after the combination. *)
Lemma combine_job_lookup (self : CiFile) (jobname : key) (job : value) :
  is_jobname jobname = true -> is_dict job = true ->
  dict_get jobname (_cidict self) = Some job ->
  dict_get jobname (_cidict (_job_combine_variables self []))
  = Some (VDict (dict_set (KStr JOBKEY_VARIABLES)
                   (VDict (combine_job_variables
                             (extract_str_dict (variables_of (_cidict self)))
                             (_forced_variables self) [] job))
                   (dict_items job))).
Proof.
  intros J D G. unfold _job_combine_variables. simpl.
  rewrite dict_get_del_other by now apply is_jobname_not_variables.
  rewrite dict_get_map by apply combine_entry_key.
  rewrite dict_get_set_other by now apply is_jobname_not_variables.
  rewrite G. simpl. now rewrite J, D.
Qed.

Lemma combine_removes_pipeline_variables (self : CiFile) (injectdict : dict value) :
  dict_get (KStr PIPELINEKEY_VARIABLES) (_cidict (_job_combine_variables self injectdict))
  = None.
Proof. unfold _job_combine_variables. simpl. apply dict_get_del_same. Qed.

(** An entry that went through the combination is left as it is by a
    second one. *)
Lemma combine_entry_again (pvars : dict value) (forced : value) (e : key * value) :
  Spec.coerced pvars ->
  combine_entry [] forced [] (combine_entry pvars forced [] e)
  = combine_entry pvars forced [] e.
Proof.
  intro C. destruct e as [k j]. simpl.
  destruct (is_jobname k && is_dict j) eqn:B; simpl; [|now rewrite B].
  apply andb_true_iff in B. destruct B as [-> _]. simpl.
  rewrite combine_job_variables_again by assumption.
  now rewrite dict_set_same_value by apply dict_get_set_same.
Qed.

Lemma dict_del_last {V : Type} (k : key) (v : V) (d : dict V) :
  dict_del k (d ++ [(k, v)]) = dict_del k d.
Proof.
  unfold dict_del. rewrite filter_app. cbn [filter fst].
  rewrite key_eqb_refl. apply app_nil_r.
Qed.

(** The combination on a pipeline without [variables] whose entries a
    combination leaves alone. *)
Lemma combine_dict_fixed (forced : value) (d : dict value) :
  dict_get (KStr PIPELINEKEY_VARIABLES) d = None ->
  (forall e, In e d -> combine_entry [] forced [] e = e) ->
  dict_del (KStr PIPELINEKEY_VARIABLES)
    (map (combine_entry [] forced [])
         (dict_set (KStr PIPELINEKEY_VARIABLES) (VDict []) d)) = d.
Proof.
  intros G H. rewrite dict_set_fresh by assumption.
  rewrite map_app.
  change (map (combine_entry [] forced []) [(KStr PIPELINEKEY_VARIABLES, VDict [])])
    with [(KStr PIPELINEKEY_VARIABLES, VDict [])].
  rewrite dict_del_last.
  rewrite (map_ext_in _ (fun e => e) d H), map_id.
  now apply dict_del_absent.
Qed.

(** Running the combination a second time changes nothing. *)
Lemma combine_idempotent (self : CiFile) :
  _job_combine_variables (_job_combine_variables self []) []
  = _job_combine_variables self [].
Proof.
  pose proof (combine_removes_pipeline_variables self []) as Gone.
  assert (variables_of (_cidict (_job_combine_variables self [])) = VDict []) as NoVars
      by (unfold variables_of; now rewrite Gone).
  unfold _job_combine_variables at 1. cbv zeta. rewrite NoVars.
  change (extract_str_dict (VDict [])) with (@nil (key * value)).
  rewrite combine_dict_fixed; [now destruct self|assumption|].
  intros e I. unfold _job_combine_variables in I. simpl in I.
  apply filter_In in I. destruct I as [I _].
  apply in_map_iff in I. destruct I as (e0 & <- & _).
  apply combine_entry_again, extract_str_dict_coerced.
Qed.

(** What coercion keeps of a mapping without repeated keys: the entries
    whose value coerces to a non-empty string. *)
Lemma extract_str_dict_get (d : dict value) (X : key) :
  NoDup (dict_keys d) ->
  dict_get X (extract_str_dict (VDict d))
  = match dict_get X d with
    | Some v => let s := extract_str v VNone in if truthy s then Some s else None
    | None => None
    end.
Proof.
  unfold extract_str_dict. simpl.
  assert (forall l acc,
             NoDup (dict_keys l) ->
             dict_get X (fold_left
                           (fun ret '(var, value) =>
                              let value := extract_str value VNone in
                              if truthy value then dict_set var value ret else ret)
                           l acc)
             = match dict_get X l with
               | Some v => let s := extract_str v VNone in
                           if truthy s then Some s else dict_get X acc
               | None => dict_get X acc
               end) as G.
  { induction l as [|[k v] l IH]; intros acc N; simpl; [reflexivity|].
    inversion N as [|? ? Hk N']; subst. rewrite IH by assumption.
    destruct (key_eqb X k) eqn:E.
    - apply key_eqb_eq in E. subst k.
      assert (dict_get X l = None) as -> by now apply dict_get_none_notin.
      destruct (truthy (extract_str v VNone)); [apply dict_get_set_same|reflexivity].
    - assert (k <> X) as Nk by (intros ->; now rewrite key_eqb_refl in E).
      destruct (truthy (extract_str v VNone));
        [now rewrite dict_get_set_other by assumption|reflexivity]. }
  intro N. rewrite G by assumption. simpl.
  destruct (dict_get X d) as [v|]; [|reflexivity].
  now destruct (truthy (extract_str v VNone)).
Qed.

Lemma extract_str_shape (v : value) :
  extract_str v VNone = VNone \/ exists s, extract_str v VNone = VStr s.
Proof.
  unfold extract_str. destruct (py_str v) as [s|]; [right; now exists s|].
  destruct v as [| | | | |l|]; try (now left).
  destruct (filter is_str l) as [|x xs] eqn:F; [now left|].
  assert (In x (filter is_str l)) as I by (rewrite F; now left).
  apply filter_In in I. destruct I as [_ I].
  destruct x as [| | | |s| |]; try discriminate. right. now exists s.
Qed.

(** Coercion keeps exactly the declared strings of a mapping that has
    no key twice, as far as they are not empty. *)
Lemma extract_str_dict_declared (d : value) (X : key) :
  NoDup (dict_keys (dict_items d)) ->
  Spec.not_blank (dict_items d) X ->
  dict_get X (extract_str_dict d) = Spec.declared (dict_items d) X.
Proof.
  intros N B.
  change (extract_str_dict d) with (extract_str_dict (VDict (dict_items d))).
  rewrite extract_str_dict_get by assumption.
  unfold Spec.declared. destruct (dict_get X (dict_items d)) as [v|] eqn:G; [|reflexivity].
  specialize (B v G). cbv zeta.
  destruct (extract_str_shape v) as [E|[s E]]; rewrite E in *; [reflexivity|].
  simpl. destruct (String.eqb s "") eqn:S; [|reflexivity].
  apply String.eqb_eq in S. subst s. contradiction.
Qed.

(** The variables of a job after the combination, for every pipeline,
    in terms of the three mappings as coercion leaves them. *)
Lemma combined_variables_resolved
    (self : CiFile) (jobname : key) (job : value) (X : key) :
  is_jobname jobname = true ->
  is_dict job = true ->
  dict_get jobname (_cidict self) = Some job ->
  exists job' jvars,
    dict_get jobname (_cidict (_job_combine_variables self [])) = Some job'
    /\ dict_get (KStr JOBKEY_VARIABLES) (dict_items job') = Some (VDict jvars)
    /\ dict_get X jvars
       = Spec.resolve (extract_str_dict (_forced_variables self))
                      (extract_str_dict (variables_of (dict_items job)))
                      (extract_str_dict (variables_of (_cidict self))) X.
Proof.
  intros J D G.
  eexists. eexists. split; [exact (combine_job_lookup self jobname job J D G)|].
  split; [apply dict_get_set_same|].
  apply combine_job_variables_get.
Qed.

(** What does hold of the priorities, for every job and every variable
    key X to which none of the three variable mappings gives a value
    that coerces to the empty string, a value that cannot be coerced to
    a string counting as not declared: after the combination X has the
    forced value if one is declared, else the job's own if one is
    declared, else the pipeline's; the pipeline has no [variables] key
    any more; and a second combination changes nothing. *)
Theorem combined_variables_priority
    (self : CiFile) (jobname : key) (job : value) (X : key) :
  let forced := dict_items (_forced_variables self) in
  let own := dict_items (variables_of (dict_items job)) in
  let pipeline := dict_items (variables_of (_cidict self)) in
  let self' := _job_combine_variables self [] in
  is_jobname jobname = true ->
  is_dict job = true ->
  dict_get jobname (_cidict self) = Some job ->
  NoDup (dict_keys forced) -> NoDup (dict_keys own) -> NoDup (dict_keys pipeline) ->
  Spec.not_blank forced X -> Spec.not_blank own X -> Spec.not_blank pipeline X ->
  (exists job' jvars,
      dict_get jobname (_cidict self') = Some job'
      /\ dict_get (KStr JOBKEY_VARIABLES) (dict_items job') = Some (VDict jvars)
      /\ dict_get X jvars
         = Spec.priority (Spec.declared forced X) (Spec.declared own X)
                         (Spec.declared pipeline X))
  /\ dict_get (KStr PIPELINEKEY_VARIABLES) (_cidict self') = None
  /\ _job_combine_variables self' [] = self'.
Proof.
  intros forced own pipeline self' J D G Nf No Np Bf Bo Bp. repeat split.
  - destruct (combined_variables_resolved self jobname job X J D G)
      as (job' & jvars & L & V & R).
    exists job', jvars. repeat split; try assumption.
    rewrite R. unfold Spec.resolve, Spec.priority.
    now rewrite !extract_str_dict_declared by assumption.
  - apply combine_removes_pipeline_variables.
  - apply combine_idempotent.
Qed.

Lemma combined_variables_priority_witness :
  let self := Doc.three_sources in
  let job := Doc.mapping [("variables", Doc.mapping [("X", VStr "3"); ("Y", VStr "4")])] in
  let self' := _job_combine_variables self [] in
  (exists job' jvars,
      dict_get (KStr "job") (_cidict self') = Some job'
      /\ dict_get (KStr JOBKEY_VARIABLES) (dict_items job') = Some (VDict jvars)
      /\ dict_get (KStr "X") jvars
         = Spec.priority
             (Spec.declared (dict_items (_forced_variables self)) (KStr "X"))
             (Spec.declared (dict_items (variables_of (dict_items job))) (KStr "X"))
             (Spec.declared (dict_items (variables_of (_cidict self))) (KStr "X")))
  /\ dict_get (KStr PIPELINEKEY_VARIABLES) (_cidict self') = None
  /\ _job_combine_variables self' [] = self'.
Proof.
  apply (combined_variables_priority Doc.three_sources (KStr "job")
           (Doc.mapping [("variables", Doc.mapping [("X", VStr "3"); ("Y", VStr "4")])])
           (KStr "X")); try reflexivity;
    try (repeat constructor; simpl; intuition discriminate);
    intros v [= <-]; discriminate.
Defined.

(** The three sources on one example: X is the job's own 3 (not the
    pipeline's 1), Y is the forced 5 (not the job's 4), Z is the
    pipeline's 9. *)
Example three_sources_resolved :
  let self' := _job_combine_variables Doc.three_sources [] in
  Doc.subfield self' "job" "variables" "X" = Some (VStr "3")
  /\ Doc.subfield self' "job" "variables" "Y" = Some (VStr "5")
  /\ Doc.subfield self' "job" "variables" "Z" = Some (VStr "9").
Proof. vm_compute. repeat split. Qed.

(* ================================================================== *)
(** ** Normalisation on particular documents                           *)
(* ================================================================== *)

(** A root that is not a mapping is refused, whatever it is. *)
Lemma parse_cidict_not_a_mapping (self : CiFile) (cidict : value) :
  is_dict cidict = false -> _parse_cidict self cidict = Raise TypeError.
Proof. destruct cidict; simpl; intro H; try reflexivity. discriminate. Qed.

(** C1.  The document [job: {script: }] is a mapping and normalisation
    accepts it, yet the job's [script] is then [None], not a list; and
    for [job: {script: [make], stage: ""}] the job's stage is the empty
    string, which is not among the pipeline's stages. *)
Theorem script_none_and_stage_empty_survive :
  is_ok (Doc.parse Doc.script_null) = true
  /\ Doc.parsed_field Doc.script_null "job" "script" = Some VNone
  /\ is_list VNone = false
  /\ is_ok (Doc.parse Doc.stage_empty) = true
  /\ Doc.parsed_field Doc.stage_empty "job" "stage" = Some (VStr "")
  /\ Doc.parsed_stages Doc.stage_empty = Some (VList [VStr "test"])
  /\ str_in "" (VList [VStr "test"]) = Ok false.
Proof. vm_compute. repeat split. Qed.

(** C4.  Mapping roots on which normalisation raises: a job that is a
    bare string, a job that is an empty list, a job that is a list
    without a coercible element, and a job whose artifacts give
    [expire_in] but no [name]. *)
Theorem parse_cidict_raises_on_mappings :
  _parse_cidict (init VNone) Doc.job_scalar = Raise TypeError
  /\ _parse_cidict (init VNone) Doc.job_empty_list = Raise TypeError
  /\ _parse_cidict (init VNone) Doc.job_nested_list = Raise TypeError
  /\ _parse_cidict (init VNone) Doc.expire_only = Raise KeyError.
Proof. vm_compute. repeat split. Qed.

(** C8.  A job that declares [artifacts: {name: build, expire_in: 7 days}]
    has "build" as [expire_in] after normalisation, not "7 days". *)
Theorem expire_in_takes_the_name :
  is_ok (Doc.parse Doc.expire_and_name) = true
  /\ Doc.parsed_subfield Doc.expire_and_name "job" "artifacts" "expire_in"
     = Some (VStr "build")
  /\ Doc.parsed_subfield Doc.expire_and_name "job" "artifacts" "name"
     = Some (VStr "build").
Proof. vm_compute. repeat split. Qed.

(** C5.  A value that is the empty string has no priority.  The job
    declares X as the empty string and the pipeline declares X as 1:
    after normalisation the job's X is 1, the pipeline's value, not the
    job's own.  And for a job that declares X as 3 in a CiFile created
    with the forced variable X as the empty string, the job's X is
    still 3: the forced value did not overwrite it. *)
Theorem empty_string_has_no_priority :
  Doc.declared_in Doc.own_empty "job" "X" = Some (VStr "")
  /\ py_str (VStr "") = Some ""
  /\ is_ok (Doc.parse Doc.own_empty) = true
  /\ Doc.parsed_subfield Doc.own_empty "job" "variables" "X" = Some (VStr "1")
  /\ dict_get (KStr "X") (dict_items Doc.forced_empty) = Some (VStr "")
  /\ Doc.declared_in Doc.own_three "job" "X" = Some (VStr "3")
  /\ is_ok (Doc.parse_with Doc.forced_empty Doc.own_three) = true
  /\ Doc.subfield (Doc.parsed_with Doc.forced_empty Doc.own_three) "job" "variables" "X"
     = Some (VStr "3").
Proof. vm_compute. repeat split. Qed.

(** C9.  In [variables: {X: "", Y: 3}] the value of X is a string, yet X
    does not survive normalisation; Y does, as "3". *)
Theorem empty_string_variable_dropped :
  py_str (VStr "") = Some ""
  /\ extract_str_dict (Doc.mapping [("X", VStr ""); ("Y", VInt 3)])
     = [(KStr "Y", VStr "3")]
  /\ is_ok (Doc.parse Doc.empty_variable) = true
  /\ Doc.parsed_subfield Doc.empty_variable "job" "variables" "X" = None
  /\ Doc.parsed_subfield Doc.empty_variable "job" "variables" "Y" = Some (VStr "3")
  /\ Doc.parsed_field Doc.empty_variable "job" "variables"
     = Some (VDict [(KStr "Y", VStr "3")]).
Proof. vm_compute. repeat split. Qed.

(* ================================================================== *)
(** ** Run preparation on particular documents                         *)
(* ================================================================== *)

(** C3.  The job of [job: {script: [make], only: [triggers]}] is still
    there after [prepare_run_with] with the pipeline source "push",
    which is none of trigger, api, pipeline, schedule, web: its
    CI_PIPELINE_TRIGGERED is the string "False", which is true -- as is
    the string the flag becomes for any other source. *)
Theorem triggers_job_runs_on_push :
  let r := Doc.prepare Doc.only_triggers [] "master" "push" in
  CI_PIPELINE_TRIGGERED "push" = false
  /\ Doc.jobs_left r = Some [KStr "job"]
  /\ Doc.field_left r "job" "only"
     = Some (VDict [(KStr "refs", VList [VStr "triggers"]);
                    (KStr "variables", VList [])])
  /\ Doc.env_left r "CI_PIPELINE_TRIGGERED" = Some "False"
  /\ truthy (VStr "False") = true
  /\ forall source,
       truthy (extract_str (VBool (CI_PIPELINE_TRIGGERED source)) VNone) = true.
Proof.
  split; [|split; [|split; [|split; [|split]]]]; try (vm_compute; reflexivity).
  intro source. now destruct (CI_PIPELINE_TRIGGERED source).
Qed.

(** C6.  Job [b] runs on master if [$FOO == 1] and has no FOO of its
    own.  It is kept when job [a], evaluated before it, has the variable
    FOO=1, removed when [a] has no such variable, and removed when [a]
    with FOO=1 comes after it; and FOO=1 is still in the process
    environment when the run is over. *)
Theorem job_variables_leak_through_environ :
  let a_foo := Doc.job_a [("FOO", VStr "1")] in
  let a_plain := Doc.job_a [] in
  let b := Doc.job_b in
  Doc.jobs_left (Doc.prepare (Doc.mapping [a_foo; b]) [] "master" "push")
  = Some [KStr "a"; KStr "b"]
  /\ Doc.jobs_left (Doc.prepare (Doc.mapping [a_plain; b]) [] "master" "push")
     = Some [KStr "a"]
  /\ Doc.jobs_left (Doc.prepare (Doc.mapping [b; a_foo]) [] "master" "push")
     = Some [KStr "a"]
  /\ Doc.env_left (Doc.prepare (Doc.mapping [a_foo; b]) [] "master" "push") "FOO"
     = Some "1".
Proof. vm_compute. repeat split. Qed.

(** C2.  The job named by the empty string depends on [ghost], which is
    no key of the pipeline; it is still there after [prepare_run_with],
    because its name, used as the loop flag, counts as false.  And a
    job that depends on [image] stays although [image] is no job. *)
Theorem dangling_dependency_survives :
  let r := Doc.prepare Doc.nameless_job [] "master" "push" in
  Doc.jobs_left r = Some [KStr ""]
  /\ Doc.field_left r "" "dependencies" = Some (VList [VStr "ghost"])
  /\ Doc.field_left r "ghost" "stage" = None
  /\ truthy (key_value (KStr "")) = false
  /\ Doc.jobs_left (Doc.prepare Doc.depends_on_image [] "master" "push")
     = Some [KStr "job"].
Proof. vm_compute. repeat split. Qed.

(** The usual case: [c] lacks its dependency and goes, then [b], then
    [a]; [d], which only needs itself, stays. *)
Example chain_is_pruned :
  Doc.jobs_left (Doc.prepare Doc.chain [] "master" "push") = Some [KStr "d"].
Proof. vm_compute. reflexivity. Qed.

(* ================================================================== *)
(** ** What the accessors share with the internal pipeline             *)
(* ================================================================== *)

(** C7.  The matrix of [convert_to_matrix] holds the internal [stages]
    list and the internal job dicts themselves: after the caller appends
    to [matrix["stages"]] the internal pipeline has the stage "deploy",
    and after the caller sets [matrix["jobs"][0]["job"]["script"]] the
    internal job has lost its script.  The copy of [get_cidict] shares
    nothing: the same changes made to it leave the internal pipeline as
    it was. *)
Theorem matrix_shares_stages_and_jobs :
  let before := Doc.internal_after Doc.matrix_accessor Doc.no_change in
  let appended := Doc.internal_after Doc.matrix_accessor Doc.caller_appends_stage in
  let cleared := Doc.internal_after Doc.matrix_accessor Doc.caller_clears_script in
  Doc.stages_of before = Some (VList [VStr "test"])
  /\ Doc.script_of before = Some (VList [VStr "make"])
  /\ Doc.stages_of appended = Some (VList [VStr "test"; VStr "deploy"])
  /\ Doc.script_of cleared = Some VNone
  /\ appended <> before
  /\ cleared <> before
  /\ Doc.internal_after Doc.copy_accessor Doc.caller_appends_stage = before
  /\ Doc.internal_after Doc.copy_accessor Doc.caller_clears_copied_script = before.
Proof. vm_compute. repeat split; discriminate. Qed.

(* ================================================================== *)
(** ** The pruning loop ends, and what its fixed point is              *)
(* ================================================================== *)

Lemma bind_ok {A B : Type} (m : result A) (k : A -> result B) (b : B) :
  bind m k = Ok b -> exists a, m = Ok a /\ k a = Ok b.
Proof. destruct m as [a|e]; simpl; [now exists a|discriminate]. Qed.

Lemma foldM_invariant {A S : Type} (P : S -> Prop) (f : S -> A -> result S)
    (l : list A) :
  (forall s x s', In x l -> P s -> f s x = Ok s' -> P s') ->
  forall s s', P s -> foldM f l s = Ok s' -> P s'.
Proof.
  induction l as [|x l IH]; intros Step s s' Ps; simpl.
  - now intros [= <-].
  - intro H. apply bind_ok in H. destruct H as (s1 & F & H).
    apply (IH (fun s x s' I => Step s x s' (or_intror I)) s1 s'); [|assumption].
    apply (Step s x s1); [now left|assumption|assumption].
Qed.

Lemma filter_shrinks {A : Type} (f : A -> bool) (x : A) (l : list A) :
  In x l -> f x = false -> List.length (filter f l) < List.length l.
Proof.
  induction l as [|y l IH]; simpl; [contradiction|].
  intros [->|I] F.
  - rewrite F. pose proof (filter_length_le f l). lia.
  - specialize (IH I F). destruct (f y); simpl; lia.
Qed.

Lemma key_value_eq (k : key) : py_eq (key_value k) (key_value k) = true.
Proof.
  destruct k; simpl; [apply String.eqb_refl|apply Z.eqb_refl|reflexivity].
Qed.

(** What one scan answers: [False], or the name of a job of the
    pipeline. *)
Lemma scan_dependencies_names_a_job (d : dict value) (r : value) :
  scan_dependencies d = Ok r ->
  r = VBool false \/ exists k j, In (k, j) d /\ r = key_value k.
Proof.
  unfold scan_dependencies.
  apply (foldM_invariant
           (fun r => r = VBool false \/ exists k j, In (k, j) d /\ r = key_value k));
    [|now left].
  intros s [k j] s' I Ps. simpl.
  destruct (is_jobname k && is_dict j); [|now intros [= <-]].
  intro H. apply bind_ok in H. destruct H as (deps & _ & H).
  apply bind_ok in H. destruct H as (ds & _ & H).
  apply bind_ok in H. destruct H as (missing & _ & H).
  injection H as <-. destruct missing; [|assumption].
  right. now exists k, j.
Qed.

(** A scan that found something is followed by a strictly smaller
    pipeline. *)
Lemma remove_job_shrinks (d : dict value) (r : value) :
  scan_dependencies d = Ok r -> truthy r = true ->
  List.length (remove_job r d) < List.length d.
Proof.
  intros S T. apply scan_dependencies_names_a_job in S.
  destruct S as [->|(k & j & I & ->)]; [discriminate|].
  unfold remove_job. apply (filter_shrinks _ (k, j)); [assumption|].
  rewrite key_value_eq. apply andb_false_r.
Qed.

Lemma remove_job_incl (d : dict value) (r : value) : incl (remove_job r d) d.
Proof. intros e I. unfold remove_job in I. now apply filter_In in I. Qed.

(** The [while] loop ends: as many passes as the pipeline has entries,
    and one more, always suffice. *)
Lemma prune_terminates (passes : nat) (d : dict value) :
  List.length d < passes -> prune passes d <> None.
Proof.
  revert d. induction passes as [|n IH]; intros d L; [lia|]. simpl.
  destruct (scan_dependencies d) as [r|e] eqn:S; [|discriminate].
  destruct (truthy r) eqn:T; [|discriminate].
  apply IH. pose proof (remove_job_shrinks d r S T). lia.
Qed.

(** More passes than needed change nothing. *)
Lemma prune_more_passes (n m : nat) (d : dict value) (r : result (dict value)) :
  prune n d = Some r -> n <= m -> prune m d = Some r.
Proof.
  revert m d. induction n as [|n IH]; intros m d; simpl; [discriminate|].
  intros H L. destruct m as [|m]; [lia|]. simpl.
  destruct (scan_dependencies d) as [v|e]; [|assumption].
  destruct (truthy v); [|assumption].
  apply IH; [assumption|lia].
Qed.

(** The loop only removes entries, and it stops at a pipeline on which a
    scan finds nothing that counts as true. *)
Lemma prune_fixed_point (passes : nat) (d d' : dict value) :
  prune passes d = Some (Ok d') ->
  incl d' d
  /\ exists r, scan_dependencies d' = Ok r /\ truthy r = false.
Proof.
  revert d. induction passes as [|n IH]; intro d; simpl; [discriminate|].
  destruct (scan_dependencies d) as [r|e] eqn:S; [|discriminate].
  destruct (truthy r) eqn:T.
  - intro H. destruct (IH _ H) as [I F]. split; [|assumption].
    intros e In'. apply (remove_job_incl d r), I, In'.
  - intros [= <-]. split; [apply incl_refl|]. now exists r.
Qed.

(** [_evaluate_jobs] and [prepare_run_with] come to an end on every
    pipeline, cyclic dependencies or not. *)
Lemma evaluate_jobs_terminates (self : CiFile) (env : environ) :
  _evaluate_jobs self env <> None.
Proof.
  unfold _evaluate_jobs.
  destruct (evaluate_all (_cidict self) env) as [[env' jobs_to_remove]|e];
    [|discriminate].
  match goal with
  | |- context [prune (S (List.length ?d)) ?d] =>
      pose proof (prune_terminates (S (List.length d)) d (Nat.lt_succ_diag_r _)) as P;
      destruct (prune (S (List.length d)) d) as [[d'|e]|]
  end; [discriminate|discriminate|contradiction].
Qed.

Lemma prepare_run_with_terminates (self : CiFile) (env : environ)
    (ref source message sha : string) (tag : value) :
  prepare_run_with self env ref source message sha tag <> None.
Proof.
  unfold prepare_run_with.
  destruct (_pipeline_add_buildinfo self ref source message sha tag) as [self1|e];
    [|discriminate].
  pose proof (evaluate_jobs_terminates self1 env) as T.
  destruct (_evaluate_jobs self1 env) as [[[self2 env2]|e]|];
    [|discriminate|contradiction].
  destruct (_assign_ids self2); discriminate.
Qed.

Lemma key_value_not_bool (k : key) (b : bool) : key_value k <> VBool b.
Proof. destruct k; discriminate. Qed.

Lemma some_dep_missing_none (d : dict value) (deps : list value) :
  some_dep_missing d deps = Ok false ->
  forall dep, In dep deps ->
  exists k, value_key dep = Ok (Some k) /\ dict_mem k d = true.
Proof.
  induction deps as [|x deps IH]; simpl; [contradiction|].
  intro H. apply bind_ok in H. destruct H as ([k|] & V & H); [|discriminate].
  destruct (dict_mem k d) eqn:M; [|discriminate].
  intros dep [<-|I]; [now exists k|now apply IH].
Qed.

(** Once a job with a missing dependency is met, the scan cannot end
    with [False]. *)
Lemma scan_keeps_a_name (d : dict value) (l : dict value) (v : value) :
  v <> VBool false -> foldM (scan_job d) l v <> Ok (VBool false).
Proof.
  revert v. induction l as [|[k j] l IH]; intros v N; simpl.
  - now intros [= ->].
  - intro H. apply bind_ok in H. destruct H as (s & Step & H).
    revert H. apply IH. destruct (is_jobname k && is_dict j).
    + apply bind_ok in Step. destruct Step as (? & _ & Step).
      apply bind_ok in Step. destruct Step as (? & _ & Step).
      apply bind_ok in Step. destruct Step as (m & _ & Step).
      injection Step as <-. destruct m; [apply key_value_not_bool|assumption].
    + now injection Step as <-.
Qed.

Lemma scan_fold_false (d l : dict value) (acc : value) :
  foldM (scan_job d) l acc = Ok (VBool false) ->
  forall k j, In (k, j) l -> is_jobname k = true -> is_dict j = true ->
  exists deps ds,
    getitem j JOBKEY_DEPENDENCIES = Ok deps /\ iter deps = Ok ds
    /\ some_dep_missing d ds = Ok false.
Proof.
  revert acc. induction l as [|[k0 j0] l IH]; intros acc H k j I; [contradiction|].
  simpl in H. apply bind_ok in H. destruct H as (s1 & Step & H).
  destruct I as [[= -> ->]|I]; [|now apply (IH s1)].
  intros J D. rewrite J, D in Step. simpl in Step.
  apply bind_ok in Step. destruct Step as (deps & G & Step).
  apply bind_ok in Step. destruct Step as (ds & It & Step).
  apply bind_ok in Step. destruct Step as (missing & M & Step).
  exists deps, ds. repeat split; try assumption.
  destruct missing; [|assumption].
  exfalso. injection Step as <-.
  now apply (scan_keeps_a_name d l (key_value k) (key_value_not_bool k false)).
Qed.

(** A scan that answers [False] has found the dependencies of every job
    among the keys of the pipeline. *)
Lemma scan_dependencies_false (d : dict value) :
  scan_dependencies d = Ok (VBool false) ->
  forall k j, In (k, j) d -> is_jobname k = true -> is_dict j = true ->
  exists deps ds,
    getitem j JOBKEY_DEPENDENCIES = Ok deps /\ iter deps = Ok ds
    /\ forall dep, In dep ds ->
       exists k', value_key dep = Ok (Some k') /\ dict_mem k' d = true.
Proof.
  intros H k j I J D.
  destruct (scan_fold_false d d _ H k j I J D) as (deps & ds & G & It & M).
  exists deps, ds. repeat split; try assumption.
  now apply some_dep_missing_none.
Qed.

(** The dependency closure that the loop does establish: when no entry
    left has a name that counts as false, every dependency of every job
    left is a key of the pipeline left. *)
Lemma prune_closed_under_keys (passes : nat) (d d' : dict value) :
  prune passes d = Some (Ok d') ->
  (forall k j, In (k, j) d' -> truthy (key_value k) = true) ->
  forall k j, In (k, j) d' -> is_jobname k = true -> is_dict j = true ->
  exists deps ds,
    getitem j JOBKEY_DEPENDENCIES = Ok deps /\ iter deps = Ok ds
    /\ forall dep, In dep ds ->
       exists k', value_key dep = Ok (Some k') /\ dict_mem k' d' = true.
Proof.
  intros P Names. apply prune_fixed_point in P. destruct P as (_ & r & S & T).
  apply scan_dependencies_false.
  destruct (scan_dependencies_names_a_job d' r S) as [->|(k & j & I & ->)];
    [assumption|].
  rewrite (Names k j I) in T. discriminate.
Qed.

(** What [_evaluate_jobs] establishes when it completes and leaves no
    job named by the empty string: every dependency of every job left
    is a key of the pipeline left -- a job or a reserved key. *)
Lemma evaluate_jobs_closed_under_keys (self self' : CiFile) (env env' : environ) :
  _evaluate_jobs self env = Some (Ok (self', env')) ->
  dict_get (KStr "") (_cidict self') = None ->
  forall k j, In (k, j) (_cidict self') -> is_jobname k = true -> is_dict j = true ->
  exists deps ds,
    getitem j JOBKEY_DEPENDENCIES = Ok deps /\ iter deps = Ok ds
    /\ forall dep, In dep ds ->
       exists k', value_key dep = Ok (Some k') /\ dict_mem k' (_cidict self') = true.
Proof.
  unfold _evaluate_jobs.
  destruct (evaluate_all (_cidict self) env) as [[env1 jobs_to_remove]|e];
    [|discriminate].
  match goal with
  | |- context [prune ?n ?d] => destruct (prune n d) as [[d'|e]|] eqn:P
  end; try discriminate.
  intros [= <- <-] Nameless. cbn [_cidict with_cidict] in *.
  apply (prune_closed_under_keys _ _ _ P).
  intros k j I.
  assert (k <> KStr "") as N.
  { intros ->. apply dict_get_none_notin in Nameless. apply Nameless.
    change (KStr "") with (fst (KStr "", j)). now apply in_map. }
  apply prune_fixed_point in P. destruct P as [Incl _].
  apply Incl, filter_In in I. destruct I as [_ I].
  destruct k as [s| |]; try discriminate. simpl.
  destruct (String.eqb s "") eqn:E; [|reflexivity].
  apply String.eqb_eq in E. now subst s.
Qed.

(* ================================================================== *)
(** ** What normalisation establishes for every job                    *)
(* ================================================================== *)

Ltac inv_bind H :=
  repeat (let x := fresh "x" in
          let E := fresh "E" in
          apply bind_ok in H; destruct H as (x & E & H)).

Lemma mapM_in {A B : Type} (f : A -> result B) (l : list A) (l' : list B) :
  mapM f l = Ok l' -> forall y, In y l' -> exists x, In x l /\ f x = Ok y.
Proof.
  revert l'. induction l as [|a l IH]; intros l'; simpl.
  - intros [= <-] y [].
  - intro H. inv_bind H. injection H as <-.
    intros y [<-|I].
    + exists a. split; [now left|assumption].
    + destruct (IH _ E0 y I) as (x1 & I1 & F). exists x1. split; [now right|assumption].
Qed.

Lemma for_each_job_in (body : key -> value -> result value) (d d' : dict value) :
  for_each_job body d = Ok d' ->
  forall k j', In (k, j') d' -> is_jobname k = true ->
  exists j, In (k, j) d /\ body k j = Ok j'.
Proof.
  intros H k j' I J. unfold for_each_job in H.
  destruct (mapM_in _ _ _ H _ I) as ([k0 j0] & I0 & F).
  destruct (is_jobname k0) eqn:J0.
  - inv_bind F. injection F as <- <-. now exists j0.
  - injection F as <- <-. congruence.
Qed.

Lemma setitem_ok (job : value) (name : string) (v job' : value) :
  setitem job name v = Ok job' ->
  exists items, job = VDict items /\ job' = VDict (dict_set (KStr name) v items).
Proof. destruct job; simpl; try discriminate. intros [= <-]. now eexists. Qed.

Lemma getitem_ok (job : value) (name : string) (v : value) :
  getitem job name = Ok v ->
  exists items, job = VDict items /\ dict_get (KStr name) items = Some v.
Proof.
  destruct job as [| | | | | |items]; simpl; try discriminate.
  destruct (dict_get (KStr name) items) eqn:G; [|discriminate].
  intros [= <-]. now exists items.
Qed.

(** Setting a key establishes its field and keeps every other field. *)
Lemma setitem_has_field (job : value) (name : string) (v job' : value)
    (P : value -> Prop) :
  setitem job name v = Ok job' -> P v -> Spec.has_field name P job'.
Proof.
  intros H Pv. apply setitem_ok in H. destruct H as (items & -> & ->).
  exists (dict_set (KStr name) v items), v. repeat split; [|assumption].
  apply dict_get_set_same.
Qed.

Lemma setitem_keeps_field (job : value) (name other : string) (v job' : value)
    (P : value -> Prop) :
  setitem job other v = Ok job' -> name <> other ->
  Spec.has_field name P job -> Spec.has_field name P job'.
Proof.
  intros H N (items & w & -> & G & Pw). injection H as <-.
  exists (dict_set (KStr other) v items), w. repeat split; [|assumption].
  rewrite dict_get_set_other; [assumption|]. intros [= E]. congruence.
Qed.

Lemma str_list_strings (obj : value) : Spec.list_of_strings (extract_str_list obj (VList [])).
Proof.
  unfold extract_str_list. destruct (str_list obj) as [l|]; [now exists l|now exists []].
Qed.

Lemma various_tweaks_job_fields (job job' : value) :
  various_tweaks_job job = Ok job' ->
  Spec.has_field "tags" Spec.list_of_strings job'
  /\ Spec.has_field "dependencies" Spec.list_of_strings job'
  /\ exists items, job = VDict items
       /\ forall name P, name <> "tags" -> name <> "dependencies" ->
          Spec.has_field name P job -> Spec.has_field name P job'.
Proof.
  unfold various_tweaks_job. intro H. inv_bind H.
  pose proof (setitem_has_field _ _ _ _ Spec.list_of_strings E1 (str_list_strings _)) as T.
  pose proof (setitem_has_field _ _ _ _ Spec.list_of_strings H (str_list_strings _)) as D.
  split; [|split; [assumption|]].
  - now apply (setitem_keeps_field _ _ _ _ _ _ H).
  - destruct (setitem_ok _ _ _ _ E1) as (items & -> & _). exists items. split; [reflexivity|].
    intros name P N1 N2 F.
    apply (setitem_keeps_field _ _ _ _ _ _ H N2).
    now apply (setitem_keeps_field _ _ _ _ _ _ E1 N1).
Qed.

Lemma script_always_list_job_fields (job job' : value) :
  script_always_list_job job = Ok job' ->
  Spec.has_field "script" Spec.any_value job'
  /\ forall name P, name <> "script" ->
       Spec.has_field name P job -> Spec.has_field name P job'.
Proof.
  unfold script_always_list_job. intro H. inv_bind H.
  assert (forall name P, name <> "script" ->
            Spec.has_field name P job -> Spec.has_field name P x0) as Keep0.
  { intros name P N F. revert E0. destruct (negb x); intro E0.
    - now apply (setitem_keeps_field _ _ _ _ _ _ E0 N).
    - now injection E0 as <-. }
  revert H. destruct (truthy (extract_str_list x1 (VList []))); intro H.
  - split; [now apply (setitem_has_field _ _ _ _ _ H)|].
    intros name P N F. apply (setitem_keeps_field _ _ _ _ _ _ H N). now apply Keep0.
  - injection H as <-. split; [|assumption].
    apply getitem_ok in E1. destruct E1 as (items & -> & G).
    now exists items, x1.
Qed.

Lemma streamline_only_job_fields (job job' : value) :
  streamline_only_job job = Ok job' ->
  Spec.has_field "only" Spec.only_record job'
  /\ forall name P, name <> "only" ->
       Spec.has_field name P job -> Spec.has_field name P job'.
Proof.
  unfold streamline_only_job. intro H. inv_bind H. split.
  - apply (setitem_has_field _ _ _ _ _ H). red. eauto.
  - intros name P N F. apply (setitem_keeps_field _ _ _ _ _ _ H N).
    revert E0. destruct (negb x); intro E0.
    + now apply (setitem_keeps_field _ _ _ _ _ _ E0 N).
    + now injection E0 as <-.
Qed.

Lemma artifacts_of_paths (dflt_name dflt_expire job name expire_in paths : value) :
  artifacts_of dflt_name dflt_expire job = Ok (name, expire_in, paths) ->
  Spec.list_of_strings paths.
Proof.
  unfold artifacts_of. intro H.
  apply bind_ok in H. destruct H as (has & _ & H).
  destruct has; [|injection H as <- <- <-; now exists []].
  apply bind_ok in H. destruct H as (a & _ & H).
  apply bind_ok in H. destruct H as (hasp & _ & H).
  apply bind_ok in H. destruct H as (paths' & Paths & H).
  apply bind_ok in H. destruct H as (hasn & _ & H).
  apply bind_ok in H. destruct H as (name' & _ & H).
  apply bind_ok in H. destruct H as (hase & _ & H).
  apply bind_ok in H. destruct H as (expire' & _ & H).
  injection H as <- <- <-.
  destruct hasp.
  - apply bind_ok in Paths. destruct Paths as (p & _ & Paths).
    injection Paths as <-. apply str_list_strings.
  - injection Paths as <-. destruct (is_list a); [apply str_list_strings|now exists []].
Qed.

Lemma streamline_artifacts_job_fields (dflt_name dflt_expire job job' : value) :
  streamline_artifacts_job dflt_name dflt_expire job = Ok job' ->
  Spec.has_field "artifacts" Spec.artifacts_record job'
  /\ forall name P, name <> "artifacts" ->
       Spec.has_field name P job -> Spec.has_field name P job'.
Proof.
  unfold streamline_artifacts_job. intro H.
  apply bind_ok in H. destruct H as ([[name expire_in] paths] & A & H). split.
  - apply (setitem_has_field _ _ _ _ _ H).
    destruct (artifacts_of_paths _ _ _ _ _ _ A) as (l & ->). red. eauto.
  - intros other P N F. now apply (setitem_keeps_field _ _ _ _ _ _ H N).
Qed.

Lemma combine_entry_keeps_field (pvars : dict value) (forced : value)
    (inj : dict value) (k : key) (job : value) (name : string) (P : value -> Prop) :
  name <> "variables" ->
  Spec.has_field name P job ->
  Spec.has_field name P (snd (combine_entry pvars forced inj (k, job))).
Proof.
  intros N (items & v & -> & G & Pv). simpl.
  destruct (is_jobname k); simpl; [|now exists items, v].
  eexists. exists v. repeat split; [|assumption].
  rewrite dict_get_set_other; [assumption|]. intros [= E]. apply N. now rewrite <- E.
Qed.

Lemma in_dict_set {V : Type} (k k0 : key) (v v0 : V) (d : dict V) :
  In (k, v) (dict_set k0 v0 d) -> (k = k0 /\ v = v0) \/ In (k, v) d.
Proof.
  induction d as [|[k1 v1] d IH]; simpl.
  - intros [[= <- <-]|[]]. now left.
  - destruct (key_eqb k0 k1) eqn:E.
    + apply key_eqb_eq in E. subst k1.
      intros [[= <- <-]|I]; [now left|right; now right].
    + intros [I|I]; [right; now left|].
      destruct (IH I) as [?|?]; [now left|right; now right].
Qed.

Lemma assign_stage_field (stages : value) (k k' : key) (v v' : value) :
  assign_stage stages (k, v) = Ok (k', v') ->
  k' = k
  /\ (is_jobname k && is_dict v = true -> Spec.has_field "stage" Spec.any_value v')
  /\ (is_jobname k && is_dict v = false -> v' = v).
Proof.
  unfold assign_stage. destruct (is_jobname k && is_dict v).
  - intro H. inv_bind H. injection H as <- <-. repeat split; [|discriminate].
    intros _. now apply (setitem_has_field _ _ _ _ _ E2).
  - intros [= <- <-]. repeat split. discriminate.
Qed.

(** After the stage scan every job that is a mapping has a stage. *)
Lemma scan_apply_stages_field (self self' : CiFile) :
  _job_scan_apply_stages self = Ok self' ->
  forall k j, In (k, j) (_cidict self') -> is_jobname k = true -> is_dict j = true ->
  Spec.has_field "stage" Spec.any_value j.
Proof.
  unfold _job_scan_apply_stages.
  destruct (match dict_get (KStr PIPELINEKEY_STAGES) (_cidict self) with
            | Some s => (s, dict_del (KStr PIPELINEKEY_STAGES) (_cidict self))
            | None => (VList [], _cidict self)
            end) as [stages d].
  intro H. apply bind_ok in H. destruct H as (stages1 & _ & H).
  apply bind_ok in H. destruct H as (d' & M & H). injection H as <-.
  intros k j I J D. cbn [_cidict with_cidict] in I.
  apply in_dict_set in I. destruct I as [[-> _]|I]; [discriminate|].
  destruct (mapM_in _ _ _ M _ I) as ([k0 j0] & _ & A).
  apply assign_stage_field in A. destruct A as (<- & Has & Same).
  destruct (is_jobname k && is_dict j0) eqn:C; [now apply Has|].
  pose proof (Same eq_refl) as ->. rewrite J, D in C. discriminate.
Qed.

(** A synthetic job comes with its stage; the other jobs are those
    that were there. *)
Lemma convert_script_key_in (jobkey newkey : string) (d d' : dict value) :
  convert_script_key jobkey newkey d = Ok d' ->
  forall k j, In (k, j) d' -> is_jobname k = true ->
  In (k, j) d \/ Spec.has_field "stage" Spec.any_value j.
Proof.
  unfold convert_script_key. intro H.
  apply bind_ok in H. destruct H as (n & _ & H).
  destruct (0 <? n)%nat; [|injection H as <-; now left].
  match type of H with
  | match dict_get _ ?d1 with _ => _ end = _ =>
      destruct (dict_get (KStr PIPELINEKEY_STAGES) d1) as [stages|]; [|discriminate]
  end.
  apply bind_ok in H. destruct H as (s1 & _ & H).
  apply bind_ok in H. destruct H as (s2 & _ & H). injection H as <-.
  intros k j I J.
  apply in_dict_set in I. destruct I as [[-> _]|I]; [discriminate|].
  apply in_dict_set in I. destruct I as [[_ ->]|I].
  - right. eexists. eexists. repeat split.
  - left. unfold dict_del in I. now apply filter_In in I.
Qed.

Lemma combine_variables_in (self : CiFile) (inj : dict value) (k : key) (j : value) :
  In (k, j) (_cidict (_job_combine_variables self inj)) ->
  exists j0, In (k, j0) (_cidict self)
    /\ j = snd (combine_entry (extract_str_dict (variables_of (_cidict self)))
                              (_forced_variables self) inj (k, j0)).
Proof.
  unfold _job_combine_variables. cbn [_cidict with_cidict]. intro I.
  apply filter_In in I. destruct I as [I N].
  apply in_map_iff in I. destruct I as ([k0 j0] & F & I).
  pose proof (combine_entry_key (extract_str_dict (variables_of (_cidict self)))
                (_forced_variables self) inj (k0, j0)) as K.
  rewrite F in K. simpl in K. subst k0.
  apply in_dict_set in I. destruct I as [[-> _]|I].
  - simpl in N. discriminate.
  - exists j0. split; [assumption|]. now rewrite F.
Qed.

Lemma various_tweaks_in (self self' : CiFile) :
  _job_various_tweaks self = Ok self' ->
  forall k j', In (k, j') (_cidict self') -> is_jobname k = true ->
  exists j, In (k, j) (_cidict self) /\ various_tweaks_job j = Ok j'.
Proof.
  unfold _job_various_tweaks. intro H. inv_bind H. injection H as <-.
  intros k j' I J. now apply (for_each_job_in _ _ _ E).
Qed.

Lemma script_always_list_in (self self' : CiFile) :
  _job_script_always_list self = Ok self' ->
  forall k j', In (k, j') (_cidict self') -> is_jobname k = true ->
  exists j, In (k, j) (_cidict self) /\ script_always_list_job j = Ok j'.
Proof.
  unfold _job_script_always_list. intro H. inv_bind H. injection H as <-.
  intros k j' I J. now apply (for_each_job_in _ _ _ E).
Qed.

Lemma streamline_only_in (self self' : CiFile) :
  _job_streamline_only self = Ok self' ->
  forall k j', In (k, j') (_cidict self') -> is_jobname k = true ->
  exists j, In (k, j) (_cidict self) /\ streamline_only_job j = Ok j'.
Proof.
  unfold _job_streamline_only. intro H. inv_bind H. injection H as <-.
  intros k j' I J. now apply (for_each_job_in _ _ _ E).
Qed.

Lemma streamline_artifacts_in (self self' : CiFile) :
  _job_streamline_artifacts self = Ok self' ->
  forall k j', In (k, j') (_cidict self') -> is_jobname k = true ->
  exists j, In (k, j) (_cidict self)
    /\ streamline_artifacts_job (VStr (_default_artifact_name self))
                                (VStr (_default_artifact_expire_in self)) j = Ok j'.
Proof.
  unfold _job_streamline_artifacts. intro H. inv_bind H. injection H as <-.
  intros k j' I J. now apply (for_each_job_in _ _ _ E).
Qed.

(** What holds for every document: after a normalisation that did not
    raise, every job is a mapping with the keys [stage] and
    [script], with [tags] and [dependencies] that are lists of strings,
    and with complete [only] and [artifacts] records. *)
Lemma normalised_jobs_populated (self self' : CiFile) (cidict : value) :
  _parse_cidict self cidict = Ok self' ->
  forall k j, In (k, j) (_cidict self') -> is_jobname k = true -> Spec.populated j.
Proof.
  destruct cidict as [| | | | | |d]; try discriminate. unfold _parse_cidict.
  intro H.
  apply bind_ok in H. destruct H as (s2 & _ & H).
  apply bind_ok in H. destruct H as (s3 & Scan & H).
  apply bind_ok in H. destruct H as (s4 & Conv & H).
  apply bind_ok in H. destruct H as (s5 & Tweaks & H).
  apply bind_ok in H. destruct H as (s6 & Script & H).
  apply bind_ok in H. destruct H as (s8 & Only & Arts).
  intros k j9 I9 J.
  destruct (streamline_artifacts_in _ _ Arts k j9 I9 J) as (j8 & I8 & B9).
  destruct (streamline_only_in _ _ Only k j8 I8 J) as (j7 & I7 & B8).
  destruct (combine_variables_in _ _ _ _ I7) as (j6 & I6 & B7).
  destruct (script_always_list_in _ _ Script k j6 I6 J) as (j5 & I5 & B6).
  destruct (various_tweaks_in _ _ Tweaks k j5 I5 J) as (j4 & I4 & B5).
  apply various_tweaks_job_fields in B5.
  destruct B5 as (Tags & Deps & items4 & -> & Keep5).
  apply script_always_list_job_fields in B6. destruct B6 as (Scr & Keep6).
  apply streamline_only_job_fields in B8. destruct B8 as (Onl & Keep8).
  apply streamline_artifacts_job_fields in B9. destruct B9 as (Art & Keep9).
  assert (Spec.has_field "stage" Spec.any_value (VDict items4)) as Stage.
  { unfold _job_convert_before_after_script in Conv.
    apply bind_ok in Conv. destruct Conv as (d1 & Before & Conv).
    apply bind_ok in Conv. destruct Conv as (d2 & After & Conv).
    injection Conv as <-. cbn [_cidict with_cidict] in I4.
    destruct (convert_script_key_in _ _ _ _ After _ _ I4 J) as [I|?]; [|assumption].
    destruct (convert_script_key_in _ _ _ _ Before _ _ I J) as [I'|?]; [|assumption].
    now apply (scan_apply_stages_field _ _ Scan k). }
  assert (forall name P, name <> "variables" ->
            Spec.has_field name P j6 -> Spec.has_field name P j7) as Keep7.
  { intros name P N F. subst j7. now apply combine_entry_keeps_field. }
  repeat split.
  - apply Keep9, Keep8, Keep7, Keep6, Keep5; try discriminate. exact Stage.
  - apply Keep9, Keep8, Keep7; try discriminate. exact Scr.
  - apply Keep9, Keep8, Keep7, Keep6; try discriminate. exact Tags.
  - apply Keep9, Keep8, Keep7, Keep6; try discriminate. exact Deps.
  - apply Keep9; try discriminate. exact Onl.
  - exact Art.
Qed.

(* ================================================================== *)
(** ** [get_cidict]: the copy lives in a part of the store of its own  *)
(* ================================================================== *)

Section CopyRegion.
Import Store.

Lemma nth_error_update_other (h : heap) (l l' : loc) (o : obj) :
  l' <> l -> nth_error (update h l o) l' = nth_error h l'.
Proof.
  revert l l'. induction h as [|x h IH]; intros l l' N; [now destruct l|].
  destruct l as [|l], l' as [|l']; simpl; try reflexivity; [contradiction|].
  apply IH. congruence.
Qed.

Lemma nth_error_update (h : heap) (l l' : loc) (o x : obj) :
  nth_error (update h l o) l' = Some x ->
  (l' = l /\ x = o) \/ nth_error h l' = Some x.
Proof.
  destruct (Nat.eq_dec l' l) as [->|N].
  - revert l. induction h as [|y h IH]; intros [|l]; simpl; try discriminate.
    + intros [= <-]. now left.
    + intro H. destruct (IH _ H) as [[_ ->]|?]; [now left|now right].
  - rewrite nth_error_update_other by assumption. now right.
Qed.

Lemma update_length (h : heap) (l : loc) (o : obj) :
  List.length (update h l o) = List.length h.
Proof.
  revert l. induction h as [|x h IH]; intros [|l]; simpl; try reflexivity.
  now rewrite IH.
Qed.

Lemma same_below_refl (n : nat) (h : heap) : same_below n h h.
Proof. now intros l L. Qed.

Lemma same_below_trans (n : nat) (h1 h2 h3 : heap) :
  same_below n h1 h2 -> same_below n h2 h3 -> same_below n h1 h3.
Proof. intros A B l L. now rewrite B, A. Qed.

Lemma same_below_app (n : nat) (h : heap) (o : obj) :
  n <= List.length h -> same_below n h (h ++ [o]).
Proof. intros N l L. apply nth_error_app1. lia. Qed.

Lemma same_below_update (n : nat) (h : heap) (l : loc) (o : obj) :
  n <= l -> same_below n h (update h l o).
Proof. intros N l' L. apply nth_error_update_other. lia. Qed.

Variable n0 : nat.

Lemma copy_each_apart {A : Type} copy (slot : A -> ref) (put : A -> ref -> A) :
  copies_apart n0 copy ->
  (forall x r, slot (put x r) = r) ->
  forall xs memo h xs' memo' h',
    copy_each copy slot put xs memo h = Some (xs', memo', h') -> copying n0 memo h ->
    copying n0 memo' h' /\ same_below n0 h h'
    /\ Forall (ref_from n0) (map slot xs').
Proof.
  intros C SP. induction xs as [|x xs IH]; intros memo h xs' memo' h'; simpl.
  - intros [= <- <- <-] I. repeat split; try apply I. constructor.
  - destruct (copy (slot x) memo h) as [[[r1 memo1] h1]|] eqn:E; [|discriminate].
    destruct (copy_each copy slot put xs memo1 h1) as [[[xs2 memo2] h2]|] eqn:E2;
      [|discriminate].
    intros [= <- <- <-] I.
    destruct (C _ _ _ _ _ _ E I) as (I1 & S1 & R1).
    destruct (IH _ _ _ _ _ E2 I1) as (I2 & S2 & F2).
    repeat split; try apply I2.
    + now apply (same_below_trans _ _ h1).
    + simpl. constructor; [now rewrite SP|assumption].
Qed.

Lemma memo_get_in (l l' : loc) (memo : list (loc * loc)) :
  memo_get l memo = Some l' -> exists a, In (a, l') memo.
Proof.
  unfold memo_get.
  destruct (find (fun p => Nat.eqb l (fst p)) memo) as [[a b]|] eqn:F; [|discriminate].
  intros [= <-]. apply find_some in F. now exists a.
Qed.

Lemma copying_alloc (memo : list (loc * loc)) (h : heap) (l : loc) (o : obj) :
  slots o = [] -> copying n0 memo h ->
  copying n0 ((l, List.length h) :: memo) (h ++ [o]).
Proof.
  intros Empty (L & M & R). repeat split.
  - rewrite length_app. simpl. lia.
  - intros a b [[= <- <-]|I]; [assumption|now apply (M a)].
  - intros l1 o1 N1 G. destruct (Nat.lt_ge_cases l1 (List.length h)) as [Lt|Ge].
    + rewrite nth_error_app1 in G by assumption. now apply (R l1).
    + rewrite nth_error_app2 in G by assumption.
      destruct (l1 - List.length h) as [|[|k]]; simpl in G; try discriminate.
      injection G as <-. rewrite Empty. constructor.
Qed.

Lemma copying_update (memo : list (loc * loc)) (h : heap) (l : loc) (o : obj) :
  Forall (ref_from n0) (slots o) -> copying n0 memo h -> copying n0 memo (update h l o).
Proof.
  intros F (L & M & R). repeat split; [now rewrite update_length|assumption|].
  intros l1 o1 N1 G. apply nth_error_update in G.
  destruct G as [[_ ->]|G]; [assumption|now apply (R l1)].
Qed.

(** A deep copy never touches the first [n0] objects, and what it
    returns refers to nothing among them. *)
Lemma deepcopy_apart (depth : nat) : copies_apart n0 (deepcopy depth).
Proof.
  assert (forall l l1 memo h, memo_get l memo = Some l1 -> copying n0 memo h ->
            copying n0 memo h /\ same_below n0 h h /\ ref_from n0 (RObj l1)) as Memo.
  { intros l l1 memo h G I. repeat split; try apply I.
    destruct (memo_get_in _ _ _ G) as (a & In'). simpl. now apply I in In'. }
  assert (forall r memo h, ref_from n0 r -> copying n0 memo h ->
            copying n0 memo h /\ same_below n0 h h /\ ref_from n0 r) as Scalar.
  { intros r memo h R I. repeat split; try apply I. exact R. }
  induction depth as [|depth IH]; intros r memo h r' memo' h' H I.
  - destruct r; simpl in H;
      try (injection H as <- <- <-; now apply Scalar).
    destruct (memo_get l memo) as [l1|] eqn:G; [|discriminate].
    injection H as <- <- <-. now apply (Memo l).
  - destruct r; simpl in H;
      try (injection H as <- <- <-; now apply Scalar).
    destruct (memo_get l memo) as [l1|] eqn:G.
    { injection H as <- <- <-. now apply (Memo l). }
    assert (n0 <= List.length h) as L by apply I.
    destruct (nth_error h l) as [[rs|es]|]; [| |discriminate].
    + destruct (copy_each (deepcopy depth) (fun r => r) (fun _ r => r) rs
                  ((l, List.length h) :: memo) (h ++ [OList []]))
        as [[[rs' memo1] h1]|] eqn:E; [|discriminate].
      injection H as <- <- <-.
      destruct (copy_each_apart _ _ _ IH (fun _ r => eq_refl) _ _ _ _ _ _ E
                  (copying_alloc memo h l (OList []) eq_refl I)) as (I1 & S1 & F1).
      rewrite map_id in F1. split; [|split].
      * now apply copying_update.
      * apply (same_below_trans _ _ (h ++ [OList []])); [now apply same_below_app|].
        apply (same_below_trans _ _ h1); [assumption|now apply same_below_update].
      * exact L.
    + destruct (copy_each (deepcopy depth) snd (fun e r => (fst e, r)) es
                  ((l, List.length h) :: memo) (h ++ [ODict []]))
        as [[[es' memo1] h1]|] eqn:E; [|discriminate].
      injection H as <- <- <-.
      destruct (copy_each_apart (deepcopy depth) snd (fun e r => (fst e, r)) IH
                  (fun _ _ => eq_refl) _ _ _ _ _ _ E
                  (copying_alloc memo h l (ODict []) eq_refl I)) as (I1 & S1 & F1).
      split; [|split].
      * now apply copying_update.
      * apply (same_below_trans _ _ (h ++ [ODict []])); [now apply same_below_app|].
        apply (same_below_trans _ _ h1); [assumption|now apply same_below_update].
      * exact L.
Qed.

End CopyRegion.

Section CopyFrame.
Import Store.

Lemma load_each_ext {A B : Type} (ld ld' : ref -> option value) (slot : A -> ref)
    (mk : A -> value -> B) (xs : list A) :
  (forall x, In x xs -> ld' (slot x) = ld (slot x)) ->
  load_each ld' slot mk xs = load_each ld slot mk xs.
Proof.
  induction xs as [|x xs IH]; intro H; simpl; [reflexivity|].
  rewrite H by now left. rewrite IH; [reflexivity|].
  intros y I. apply H. now right.
Qed.

(** Reading from a reference below [n] only looks at the first [n]
    objects, when these refer to nothing beyond themselves. *)
Lemma load_same_below (n : nat) (h1 h2 : heap) :
  same_below n h1 h2 ->
  (forall l o, l < n -> nth_error h1 l = Some o -> Forall (ref_below n) (slots o)) ->
  forall depth r, ref_below n r -> load depth h2 r = load depth h1 r.
Proof.
  intros S C. induction depth as [|depth IH]; intros r R;
    destruct r; try reflexivity.
  simpl in R. simpl. rewrite (S l R).
  destruct (nth_error h1 l) as [[rs|es]|] eqn:G; [| |reflexivity].
  - f_equal. apply load_each_ext. intros x I. apply IH.
    specialize (C l _ R G). simpl in C. rewrite Forall_forall in C. now apply C.
  - f_equal. apply load_each_ext. intros x I. apply IH.
    specialize (C l _ R G). simpl in C. rewrite Forall_forall in C.
    apply C. now apply in_map.
Qed.

(** A caller who changes an object of the copy's part of the store
    leaves the first [n] objects as they are. *)
Lemma setitem_same_below (n : nat) (h h' : heap) (r v : ref) (s : string) :
  ref_from n r -> Store.setitem h r s v = Ok h' -> same_below n h h'.
Proof.
  destruct r; simpl; try discriminate. intro N.
  destruct (nth_error h l) as [[rs|es]|]; try discriminate.
  intros [= <-]. now apply same_below_update.
Qed.

Lemma append_same_below (n : nat) (h h' : heap) (r v : ref) :
  ref_from n r -> Store.append h r v = Ok h' -> same_below n h h'.
Proof.
  destruct r; simpl; try discriminate. intro N.
  destruct (nth_error h l) as [[rs|es]|]; try discriminate.
  intros [= <-]. now apply same_below_update.
Qed.

(** What the caller finds in the copy's part of the store leads nowhere
    else. *)
Lemma getitem_stays_apart (n : nat) (h : heap) (r v : ref) (s : string) :
  region_closed n h -> ref_from n r -> Store.getitem h r s = Ok v -> ref_from n v.
Proof.
  intro C. destruct r; simpl; try discriminate. intro N.
  destruct (nth_error h l) as [[rs|es]|] eqn:G; try discriminate.
  destruct (dict_get (KStr s) es) as [w|] eqn:D; [|discriminate].
  intros [= <-]. specialize (C l _ N G). simpl in C. rewrite Forall_forall in C.
  apply C. clear - D. induction es as [|[k x] es IH]; [discriminate|].
  cbn [dict_get map snd] in *.
  revert D. destruct (key_eqb (KStr s) k); intro D.
  - injection D as ->. now left.
  - right. now apply IH.
Qed.

Lemma getindex_stays_apart (n : nat) (h : heap) (r v : ref) (i : nat) :
  region_closed n h -> ref_from n r -> Store.getindex h r i = Ok v -> ref_from n v.
Proof.
  intro C. destruct r; simpl; try discriminate. intro N.
  destruct (nth_error h l) as [[rs|es]|] eqn:G; try discriminate.
  destruct (nth_error rs i) as [w|] eqn:D; [|discriminate].
  intros [= <-]. specialize (C l _ N G). simpl in C. rewrite Forall_forall in C.
  apply C. now apply nth_error_In in D.
Qed.

(** On a store whose objects refer to each other only, [get_cidict] returns a reference into a part of the
    store that is new and closed, and leaves the objects that were there
    untouched; so whatever is done afterwards to objects of the new part
    (the only ones a caller can reach from the copy), the internal
    pipeline reads as before. *)
Lemma get_cidict_shares_nothing (h h1 : heap) (cidict copy : ref) :
  heap_closed h ->
  ref_below (List.length h) cidict ->
  Store.get_cidict h cidict = Some (copy, h1) ->
  ref_from (List.length h) copy
  /\ region_closed (List.length h) h1
  /\ same_below (List.length h) h h1
  /\ forall h2, same_below (List.length h) h1 h2 ->
       forall depth, load depth h2 cidict = load depth h cidict.
Proof.
  intros Closed Below. unfold get_cidict.
  destruct (deepcopy (S (List.length h)) cidict [] h) as [[[r memo] h']|] eqn:E;
    [|discriminate].
  intros [= <- <-].
  assert (copying (List.length h) [] h) as I.
  { repeat split; [lia|intros a b []|].
    intros l o N G. assert (nth_error h l <> None) as G' by congruence.
    apply nth_error_Some in G'. lia. }
  destruct (deepcopy_apart _ _ _ _ _ _ _ _ E I) as ((_ & _ & R) & S & F).
  repeat split; try assumption.
  intros h2 S2 depth. apply (load_same_below (List.length h)).
  - now apply (same_below_trans _ _ h').
  - intros l o _. apply Closed.
  - assumption.
Qed.

End CopyFrame.

Lemma heap_closedb_closed (h : Store.heap) :
  Store.heap_closedb h = true -> Store.heap_closed h.
Proof.
  unfold Store.heap_closedb. intros H l o G.
  rewrite forallb_forall in H. specialize (H o (nth_error_In _ _ G)).
  rewrite forallb_forall in H. apply Forall_forall. intros r I.
  specialize (H r I). destruct r; simpl in *; try exact Logic.I.
  now apply Nat.ltb_lt.
Qed.

(** The normalised pipeline of [Doc.internal] is such a store, so its
    copy shares nothing with it. *)
Example internal_copy_shares_nothing :
  forall copy h1,
    Store.get_cidict (fst Doc.internal) (snd Doc.internal) = Some (copy, h1) ->
    forall h2, Store.same_below (List.length (fst Doc.internal)) h1 h2 ->
    forall depth,
      Store.load depth h2 (snd Doc.internal)
      = Store.load depth (fst Doc.internal) (snd Doc.internal).
Proof.
  intros copy h1 G.
  apply (get_cidict_shares_nothing (fst Doc.internal) h1 (snd Doc.internal) copy);
    [apply heap_closedb_closed; vm_compute; reflexivity
    |vm_compute; lia
    |assumption].
Qed.

(* ================================================================== *)
(** ** The artifacts record for every job                              *)
(* ================================================================== *)

(** A job that declares both [name] and [expire_in] in an artifacts
    mapping gets the name as [expire_in], whatever the two are. *)
Lemma artifacts_of_declared_expire_in
    (dflt_name dflt_expire : value) (job_items a : dict value) (n e : value) :
  dict_get (KStr "artifacts") job_items = Some (VDict a) ->
  dict_get (KStr "name") a = Some n ->
  dict_get (KStr "expire_in") a = Some e ->
  exists paths,
    artifacts_of dflt_name dflt_expire (VDict job_items) = Ok (n, n, paths).
Proof.
  intros A N E. unfold artifacts_of, str_in, getitem, dict_mem.
  change (KStr JOBKEY_ARTIFACTS) with (KStr "artifacts"). rewrite A.
  cbn [bind is_list].
  change (KStr JOBKEY_ARTIFACTS_NAME) with (KStr "name").
  change (KStr JOBKEY_ARTIFACTS_EXPIRE_IN) with (KStr "expire_in").
  rewrite N, E. cbn [bind].
  destruct (dict_get (KStr JOBKEY_ARTIFACTS_PATHS) a); cbn [bind]; eauto.
Qed.

(** Without a declared [expire_in] the record has the configured
    default. *)
Lemma artifacts_of_default_expire_in
    (dflt_name dflt_expire job name expire_in paths : value) :
  artifacts_of dflt_name dflt_expire job = Ok (name, expire_in, paths) ->
  (forall a, getitem job JOBKEY_ARTIFACTS = Ok a ->
             str_in JOBKEY_ARTIFACTS_EXPIRE_IN a = Ok false) ->
  expire_in = dflt_expire.
Proof.
  unfold artifacts_of. intros H No.
  apply bind_ok in H. destruct H as (has & _ & H).
  destruct has; [|now injection H as <- <- <-].
  apply bind_ok in H. destruct H as (a & A & H).
  apply bind_ok in H. destruct H as (hasp & _ & H).
  apply bind_ok in H. destruct H as (paths' & _ & H).
  apply bind_ok in H. destruct H as (hasn & _ & H).
  apply bind_ok in H. destruct H as (name' & _ & H).
  apply bind_ok in H. destruct H as (hase & Hase & H).
  apply bind_ok in H. destruct H as (expire' & Exp & H).
  injection H as <- <- <-.
  rewrite (No a A) in Hase. injection Hase as <-. now injection Exp as <-.
Qed.

(* ================================================================== *)
(** ** The process environment after a job was evaluated               *)
(* ================================================================== *)

Lemma env_get_put_same (name val : string) (env : environ) :
  env_get name (env_put name val env) = Some val.
Proof.
  induction env as [|[n v] env IH]; simpl.
  - now rewrite String.eqb_refl.
  - destruct (String.eqb name n) eqn:E; simpl; rewrite E; [reflexivity|exact IH].
Qed.

Lemma env_get_put_other (name other val : string) (env : environ) :
  other <> name -> env_get other (env_put name val env) = env_get other env.
Proof.
  intro N. induction env as [|[n v] env IH]; simpl.
  - apply String.eqb_neq in N. now rewrite N.
  - destruct (String.eqb name n) eqn:E; simpl.
    + apply String.eqb_eq in E. subst n.
      apply String.eqb_neq in N. now rewrite N.
    + now rewrite IH.
Qed.

Lemma environ_set_ok (env env' : environ) (k : key) (v : value) :
  environ_set env (key_value k) v = Ok env' ->
  exists name val, k = KStr name /\ v = VStr val /\ env' = env_put name val env.
Proof.
  destruct k as [name| |]; simpl; try discriminate.
  destruct v as [| | | |val| |]; try discriminate.
  destruct (_ || _); [discriminate|]. intros [= <-]. now exists name, val.
Qed.

(** Every variable of the job is in the environment when the loop over
    its variables is through, and the variables that were there under
    other names still are. *)
Lemma export_variables (its : dict value) (env env' : environ) :
  foldM (fun env '(jvar, jvalue) => environ_set env (key_value jvar) jvalue) its env
  = Ok env' ->
  NoDup (dict_keys its) ->
  (forall k v, In (k, v) its ->
     exists name val, k = KStr name /\ v = VStr val /\ env_get name env' = Some val)
  /\ (forall name, ~ In (KStr name) (dict_keys its) ->
        env_get name env' = env_get name env).
Proof.
  revert env. induction its as [|[k0 v0] its IH]; intros env H N; simpl in H.
  - injection H as <-. split; [intros k v []|reflexivity].
  - apply bind_ok in H. destruct H as (env1 & Set0 & H).
    inversion N as [|? ? Fresh N']; subst.
    destruct (IH _ H N') as (Bound & Other).
    apply environ_set_ok in Set0. destruct Set0 as (name0 & val0 & -> & -> & ->).
    split.
    + intros k v [[= <- <-]|I]; [|now apply Bound].
      exists name0, val0. repeat split.
      rewrite (Other name0 Fresh). apply env_get_put_same.
    + intros name Out. simpl in Out.
      rewrite Other by tauto. apply env_get_put_other.
      intros ->. apply Out. now left.
Qed.

(** The variables of an evaluated job stay in the process environment:
    the environment [evaluate_job] hands to the next job, and in the end
    to the caller, holds every one of them. *)
Lemma evaluate_job_exports (env env' : environ) (job : value) (vars : dict value)
    (job_run : bool) :
  evaluate_job env job = Ok (env', job_run) ->
  getitem job JOBKEY_VARIABLES = Ok (VDict vars) ->
  NoDup (dict_keys vars) ->
  forall k v, In (k, v) vars ->
  exists name val, k = KStr name /\ v = VStr val /\ env_get name env' = Some val.
Proof.
  unfold evaluate_job. intros H G N.
  apply bind_ok in H. destruct H as (only & _ & H).
  apply bind_ok in H. destruct H as (ov & _ & H).
  apply bind_ok in H. destruct H as (n & _ & H).
  apply bind_ok in H. destruct H as (vars' & G' & H).
  rewrite G in G'. injection G' as <-.
  apply bind_ok in H. destruct H as (its & It & H). injection It as <-.
  apply bind_ok in H. destruct H as (env1 & Exp & H).
  apply bind_ok in H. destruct H as (s & _ & H).
  apply bind_ok in H. destruct H as (ok & _ & H).
  apply bind_ok in H. destruct H as (conds & _ & H).
  apply bind_ok in H. destruct H as (okv & _ & H).
  injection H as <- _.
  now apply (export_variables _ _ _ Exp N).
Qed.

(* ================================================================== *)
(** ** Further properties: strings                                     *)
(* ================================================================== *)

Lemma ascii_eqb_sym (a b : ascii) : Ascii.eqb a b = Ascii.eqb b a.
Proof.
  destruct (Ascii.eqb a b) eqn:E.
  - apply Ascii.eqb_eq in E. subst. symmetry. apply Ascii.eqb_refl.
  - symmetry. apply Ascii.eqb_neq. apply Ascii.eqb_neq in E. congruence.
Qed.

Lemma expand_from_copy_all (env : environ) (s : string) (copy : nat) :
  String.length s <= copy -> expand_from env 0 copy s = s.
Proof.
  revert copy. induction s as [|c s IH]; intros copy L; simpl; [reflexivity|].
  destruct copy as [|k]; simpl in L; [lia|]. rewrite IH by lia. reflexivity.
Qed.

(** Where no variable is set, nothing is replaced. *)
Lemma expand_from_unset (env : environ) :
  (forall name, env_get name env = None) ->
  forall s copy, expand_from env 0 copy s = s.
Proof.
  intros U s. induction s as [|c s IH]; intro copy; simpl; [reflexivity|].
  destruct copy as [|k]; [|now rewrite IH].
  destruct (Ascii.eqb c "$"); [|now rewrite IH].
  destruct (var_at s) as [[name n]|]; [|now rewrite IH].
  rewrite U. now rewrite IH.
Qed.

(** A text without a dollar sign is left alone. *)
Lemma expand_from_no_dollar (env : environ) (s : string) :
  has_char "$" s = false -> forall copy, expand_from env 0 copy s = s.
Proof.
  induction s as [|c s IH]; intros H copy; [reflexivity|].
  cbn [has_char] in H. apply orb_false_iff in H. destruct H as [C H].
  rewrite ascii_eqb_sym in C. cbn [expand_from]. rewrite C.
  destruct copy; now rewrite IH.
Qed.

(** X1.  [os.path.expandvars] as [_evaluate_jobs] uses it leaves a text
    as it is when the environment is empty, and when the text has no
    dollar sign, whatever the environment. *)
Theorem expandvars_leaves_alone :
  (forall path, expandvars [] path = path)
  /\ (forall env path, has_char "$" path = false -> expandvars env path = path).
Proof.
  split.
  - intro path. now apply expand_from_unset.
  - intros env path H. now apply expand_from_no_dollar.
Qed.

Lemma expandvars_leaves_alone_witness :
  expandvars [("FOO", "1")] "make all" = "make all".
Proof.
  apply (proj2 expandvars_leaves_alone [("FOO", "1")] "make all"). reflexivity.
Defined.

Lemma span_word_app (name tail : string) :
  all_chars is_word name = true ->
  match tail with
  | EmptyString => True
  | String c _ => is_word c = false
  end ->
  span_word (name ++ tail) = name.
Proof.
  intros W T. induction name as [|c name IH]; simpl.
  - destruct tail as [|c t]; simpl; [reflexivity|now rewrite T].
  - simpl in W. apply andb_true_iff in W. destruct W as [-> W]. now rewrite IH.
Qed.

Lemma expand_from_skip (env : environ) (name tail : string) :
  expand_from env (String.length name) 0 (name ++ tail) = expand_from env 0 0 tail.
Proof.
  induction name as [|c name IH]; simpl; [|exact IH].
  destruct tail; reflexivity.
Qed.

Lemma expand_from_copy (env : environ) (name tail : string) :
  expand_from env 0 (String.length name) (name ++ tail)
  = (name ++ expand_from env 0 0 tail)%string.
Proof.
  induction name as [|c name IH]; simpl; [|now rewrite IH].
  destruct tail; reflexivity.
Qed.

Lemma var_at_word (name tail : string) :
  name <> EmptyString ->
  all_chars is_word name = true ->
  match tail with
  | EmptyString => True
  | String c _ => is_word c = false
  end ->
  var_at (name ++ tail) = Some (name, String.length name).
Proof.
  intros N W T. pose proof (span_word_app name tail W T) as Sp.
  destruct name as [|c name']; [contradiction|].
  cbn [all_chars] in W. apply andb_true_iff in W. destruct W as [Wc _].
  unfold var_at. cbn [String.append] in *. now rewrite Wc, Sp.
Qed.

(** X2.  A reference [$NAME], where NAME is made of letters, digits and
    underscores and the text goes on with a character of another kind or
    ends, is replaced by the value of NAME when NAME is set -- the value
    is not expanded again -- and stays as it is when NAME is not set. *)
Theorem expandvars_reference (env : environ) (name tail : string) :
  name <> EmptyString ->
  all_chars is_word name = true ->
  match tail with
  | EmptyString => True
  | String c _ => is_word c = false
  end ->
  expandvars env (String "$" (name ++ tail))
  = match env_get name env with
    | Some val => (val ++ expandvars env tail)%string
    | None => String "$" (name ++ expandvars env tail)
    end.
Proof.
  intros N W T. unfold expandvars. cbn [expand_from].
  rewrite Ascii.eqb_refl, var_at_word by assumption.
  destruct (env_get name env).
  - now rewrite expand_from_skip.
  - now rewrite expand_from_copy.
Qed.

Lemma expandvars_reference_witness :
  expandvars [("CI_JOB_NAME", "$HOME")] "$CI_JOB_NAME/$x" = "$HOME/$x".
Proof.
  exact (expandvars_reference [("CI_JOB_NAME", "$HOME")] "CI_JOB_NAME" "/$x"
           ltac:(discriminate) eq_refl eq_refl).
Defined.

Lemma split_eqeq_nonempty (s : string) : split_eqeq s <> [].
Proof.
  destruct s as [|c s]; simpl; [discriminate|].
  destruct (Ascii.eqb c "=");
    [destruct s as [|c' s']; [|destruct (Ascii.eqb c' "=")]|];
    try discriminate; destruct (split_eqeq _); discriminate.
Qed.

Lemma concat_cons_char (sep : string) (c : ascii) (p : string) (ps : list string) :
  String.concat sep (String c p :: ps) = String c (String.concat sep (p :: ps)).
Proof. destruct ps; reflexivity. Qed.

Lemma split_eqeq_joined (n : nat) :
  forall s, String.length s <= n -> String.concat "==" (split_eqeq s) = s.
Proof.
  induction n as [|n IH]; intros [|c s] L; simpl in L; try reflexivity; [lia|].
  assert (String.concat "=="
            match split_eqeq s with
            | piece :: pieces => String c piece :: pieces
            | [] => [String c EmptyString]
            end = String c s) as Plain.
  { pose proof (IH s ltac:(lia)) as J. pose proof (split_eqeq_nonempty s) as N.
    destruct (split_eqeq s) as [|p ps]; [contradiction|].
    now rewrite concat_cons_char, J. }
  cbn [split_eqeq]. destruct (Ascii.eqb c "=") eqn:E; [|exact Plain].
  destruct s as [|c' s']; [exact Plain|].
  destruct (Ascii.eqb c' "=") eqn:E'; [|exact Plain].
  apply Ascii.eqb_eq in E, E'. subst c c'.
  pose proof (IH s' ltac:(simpl in L; lia)) as J.
  pose proof (split_eqeq_nonempty s') as N.
  destruct (split_eqeq s') as [|p ps]; [contradiction|].
  change (String.concat "==" (EmptyString :: p :: ps))
    with (String "=" (String "=" (String.concat "==" (p :: ps)))).
  now rewrite J.
Qed.

Lemma split_eqeq_no_equals (s : string) :
  has_char "=" s = false -> split_eqeq s = [s].
Proof.
  induction s as [|c s IH]; [reflexivity|].
  cbn [has_char]. intro H. apply orb_false_iff in H. destruct H as [C H].
  rewrite ascii_eqb_sym in C. cbn [split_eqeq]. rewrite C. now rewrite IH.
Qed.

(** X3.  [condition.split("==")] never loses text: it gives at least one
    piece, the pieces joined by [==] are the condition again, and a
    condition without an equals sign is one piece, itself -- the case in
    which [_evaluate_jobs] takes the right side as [None]. *)
Theorem split_eqeq_round_trip (condition : string) :
  split_eqeq condition <> []
  /\ String.concat "==" (split_eqeq condition) = condition
  /\ (has_char "=" condition = false -> split_eqeq condition = [condition]).
Proof.
  split; [apply split_eqeq_nonempty|split].
  - now apply (split_eqeq_joined (String.length condition)).
  - apply split_eqeq_no_equals.
Qed.

Lemma split_eqeq_round_trip_witness :
  split_eqeq "$DEPLOY" = ["$DEPLOY"].
Proof.
  apply (proj2 (proj2 (split_eqeq_round_trip "$DEPLOY"))). reflexivity.
Defined.

Lemma drop_first_line_joined (s r : string) :
  drop_first_line s = Some r -> (first_line s ++ String "010" r)%string = s.
Proof.
  induction s as [|c s IH]; simpl; [discriminate|].
  unfold is_newline. destruct (Ascii.eqb c "010") eqn:E.
  - apply Ascii.eqb_eq in E. subst c. now intros [= ->].
  - intro H. simpl. now rewrite IH.
Qed.

Lemma first_line_whole (s : string) :
  drop_first_line s = None -> first_line s = s.
Proof.
  induction s as [|c s IH]; simpl; [reflexivity|].
  destruct (is_newline c); [discriminate|]. intro H. now rewrite IH.
Qed.

Lemma first_line_no_newline (s : string) : has_char "010" (first_line s) = false.
Proof.
  induction s as [|c s IH]; simpl; [reflexivity|].
  unfold is_newline. destruct (Ascii.eqb c "010") eqn:E; [reflexivity|].
  cbn [has_char]. now rewrite ascii_eqb_sym, E, IH.
Qed.

(** X4.  The commit title never holds a line break.  A message of fewer
    than 100 characters (characters as [len] counts them, not bytes) is
    its own description, first line included; a longer one is the title,
    a line break and the description, and a longer one without a line
    break is title and description at once. *)
Theorem commit_title_and_description (message : string) :
  has_char "010" (first_line message) = false
  /\ (str_len message < 100 -> CI_COMMIT_DESCRIPTION message = message)
  /\ (100 <= str_len message ->
      (first_line message ++ String "010" (CI_COMMIT_DESCRIPTION message))%string
      = message
      \/ (first_line message = message
          /\ CI_COMMIT_DESCRIPTION message = message)).
Proof.
  split; [apply first_line_no_newline|]. unfold CI_COMMIT_DESCRIPTION. split.
  - intro L. apply Nat.ltb_lt in L. now rewrite L.
  - intro L. apply Nat.ltb_ge in L. rewrite L.
    destruct (drop_first_line message) as [r|] eqn:D.
    + left. now apply drop_first_line_joined.
    + right. split; [now apply first_line_whole|reflexivity].
Qed.

Lemma commit_title_and_description_witness :
  CI_COMMIT_DESCRIPTION Doc.accented_message = Doc.accented_message
  /\ ((first_line Doc.long_message
       ++ String "010" (CI_COMMIT_DESCRIPTION Doc.long_message))%string
      = Doc.long_message
      \/ (first_line Doc.long_message = Doc.long_message
          /\ CI_COMMIT_DESCRIPTION Doc.long_message = Doc.long_message)).
Proof.
  split.
  - apply (proj1 (proj2 (commit_title_and_description Doc.accented_message))).
    vm_compute. lia.
  - apply (proj2 (proj2 (commit_title_and_description Doc.long_message))).
    vm_compute. lia.
Defined.

Lemma rstrip_last (drop : ascii -> bool) (s : string) :
  match Doc.last_char (rstrip drop s) with
  | Some c => drop c = false
  | None => True
  end.
Proof.
  induction s as [|c s IH]; simpl; [exact I|].
  destruct (rstrip drop s) as [|c' r] eqn:R.
  - destruct (drop c) eqn:D; simpl; [exact I|exact D].
  - change (Doc.last_char (String c (String c' r)))
      with (Doc.last_char (String c' r)). exact IH.
Qed.

(** X5.  Whatever the ref name, CI_COMMIT_REF_SLUG has at most 63
    characters, all of them digits, small letters or dashes, and neither
    begins nor ends with a dash. *)
Theorem ref_slug_is_a_slug (name : string) :
  String.length (CI_COMMIT_REF_SLUG name) <= 63
  /\ all_chars Spec.slug_char (CI_COMMIT_REF_SLUG name) = true
  /\ startswith (CI_COMMIT_REF_SLUG name) "-" = false
  /\ Doc.last_char (CI_COMMIT_REF_SLUG name) <> Some "-"%char.
Proof.
  destruct (ref_slug_shape name) as (L & A & S). repeat split; try assumption.
  unfold CI_COMMIT_REF_SLUG, strip.
  match goal with
  | |- Doc.last_char (rstrip ?d ?t) <> _ => pose proof (rstrip_last d t) as R
  end.
  intro E. rewrite E in R. discriminate R.
Qed.

Lemma partition_eq_joined (item : string) :
  has_char "=" item = true ->
  let '(k, v) := partition_eq item in
  (k ++ String "=" v)%string = item /\ has_char "=" k = false.
Proof.
  induction item as [|c item IH]; [discriminate|].
  cbn [has_char partition_eq]. rewrite ascii_eqb_sym.
  destruct (Ascii.eqb c "=") eqn:E.
  - intros _. apply Ascii.eqb_eq in E. subst c. now split.
  - simpl. intro H. specialize (IH H). destruct (partition_eq item) as [k v].
    destruct IH as [J N]. split; [simpl; now rewrite J|].
    cbn [has_char]. now rewrite ascii_eqb_sym, E.
Qed.

Lemma partition_eq_none (item : string) :
  has_char "=" item = false -> partition_eq item = (item, EmptyString).
Proof.
  induction item as [|c item IH]; [reflexivity|].
  cbn [has_char partition_eq]. rewrite ascii_eqb_sym.
  destruct (Ascii.eqb c "="); [discriminate|]. simpl. intro H. now rewrite IH.
Qed.

Lemma partition_eq_built (k v : string) :
  has_char "=" k = false -> partition_eq (k ++ String "=" v) = (k, v).
Proof.
  induction k as [|c k IH]; [reflexivity|].
  cbn [has_char]. intro H. apply orb_false_iff in H. destruct H as [C H].
  cbn [String.append partition_eq]. rewrite ascii_eqb_sym in C. rewrite C.
  now rewrite IH.
Qed.

Lemma main_env_app (items : list string) (item : string) :
  main_env (items ++ [item])
  = let '(k, v) := partition_eq item in dict_set (KStr k) (VStr v) (main_env items).
Proof. unfold main_env. now rewrite fold_left_app. Qed.

(** X6.  The [--env] items of [main]: an item [KEY=VALUE] is split at
    its first equals sign, an item without one is a key with the empty
    value, and of two items for one key the later one counts. *)
Theorem main_env_items (items : list string) (k v : string) :
  has_char "=" k = false ->
  partition_eq (k ++ String "=" v) = (k, v)
  /\ partition_eq k = (k, EmptyString)
  /\ dict_get (KStr k) (main_env (items ++ [(k ++ String "=" v)%string]))
     = Some (VStr v).
Proof.
  intro N. split; [now apply partition_eq_built|split; [now apply partition_eq_none|]].
  rewrite main_env_app, partition_eq_built by assumption.
  apply dict_get_set_same.
Qed.

Lemma main_env_items_witness :
  dict_get (KStr "TARGET") (main_env (["TARGET=x86"; "DEBUG"] ++ ["TARGET=arm=v7"]))
  = Some (VStr "arm=v7").
Proof.
  apply (proj2 (proj2 (main_env_items ["TARGET=x86"; "DEBUG"] "TARGET" "arm=v7" eq_refl))).
Defined.

(* ================================================================== *)
(** ** Further properties: the id generator                            *)
(* ================================================================== *)

Lemma job_ids_from (n : nat) (g : IdGenerator) :
  Doc.job_ids n g
  = (map (fun i => (_last_job_id g + Z.of_nat i)%Z) (seq 1 n),
     mkIdGenerator (_last_job_id g + Z.of_nat n) (_last_pipeline_id g)).
Proof.
  revert g. induction n as [|n IH]; intro g.
  - simpl. rewrite Z.add_0_r. now destruct g.
  - cbn [Doc.job_ids]. unfold next_job_id at 1. cbv zeta. rewrite IH.
    cbn [_last_job_id _last_pipeline_id]. f_equal.
    + cbn [seq map]. f_equal.
      rewrite <- (seq_shift n 1), map_map. apply map_ext. intro i. lia.
    + f_equal. lia.
Qed.

(** X7.  Successive calls of [next_job_id] on a generator whose last job
    id is [j] return j+1, j+2, ... -- no id twice -- and leave the
    pipeline counter alone; [next_pipeline_id] in turn adds one to the
    pipeline counter, returns the new count and leaves the job counter
    alone, and [current_ids] tells the last ids given out. *)
Theorem job_ids_consecutive (n : nat) (g : IdGenerator) :
  fst (Doc.job_ids n g) = map (fun i => (_last_job_id g + Z.of_nat i)%Z) (seq 1 n)
  /\ NoDup (fst (Doc.job_ids n g))
  /\ _last_job_id (snd (Doc.job_ids n g)) = (_last_job_id g + Z.of_nat n)%Z
  /\ _last_pipeline_id (snd (Doc.job_ids n g)) = _last_pipeline_id g
  /\ _last_pipeline_id (snd (next_pipeline_id g)) = (_last_pipeline_id g + 1)%Z
  /\ _last_job_id (snd (next_pipeline_id g)) = _last_job_id g
  /\ fst (next_pipeline_id g) = (_last_pipeline_id g + 1)%Z
  /\ current_ids (snd (Doc.job_ids n g))
     = [(KStr "job", VInt (_last_job_id g + Z.of_nat n));
        (KStr "pipeline", VInt (_last_pipeline_id g))]
  /\ current_ids (snd (next_pipeline_id g))
     = [(KStr "job", VInt (_last_job_id g));
        (KStr "pipeline", VInt (_last_pipeline_id g + 1))].
Proof.
  rewrite job_ids_from. cbn [fst snd]. repeat split.
  apply Injective_map_NoDup; [|apply seq_NoDup].
  intros a b E. lia.
Qed.

(* ================================================================== *)
(** ** Further properties: coercion                                    *)
(* ================================================================== *)

(** X8.  What [extract_str_dict] returns has no key twice and only
    non-empty strings as values, whatever it is given, and coercing it
    once more gives it back. *)
Theorem extract_str_dict_strings (d : value) :
  Spec.coerced (extract_str_dict d)
  /\ extract_str_dict (VDict (extract_str_dict d)) = extract_str_dict d.
Proof.
  split; [apply extract_str_dict_coerced|].
  apply extract_str_dict_fixed, extract_str_dict_coerced.
Qed.

(** X9.  Of a mapping without repeated keys [extract_str_dict] keeps
    exactly the entries whose value coerces to a non-empty string, each
    with that string; an entry whose value is [None], a mapping, a list
    without a string or the empty string is dropped. *)
Theorem extract_str_dict_lookup (d : dict value) (X : key) :
  NoDup (dict_keys d) ->
  dict_get X (extract_str_dict (VDict d))
  = match dict_get X d with
    | Some v => let s := extract_str v VNone in if truthy s then Some s else None
    | None => None
    end.
Proof. apply extract_str_dict_get. Qed.

Lemma extract_str_dict_lookup_witness :
  dict_get (KStr "N") (extract_str_dict (Doc.mapping [("N", VInt 3); ("E", VStr "")]))
  = Some (VStr "3").
Proof.
  refine (eq_trans
    (extract_str_dict_lookup [(KStr "N", VInt 3); (KStr "E", VStr "")] (KStr "N") _)
    eq_refl).
  repeat constructor; simpl; intuition discriminate.
Defined.

Lemma str_list_of_strings (l : list string) : str_list (VList (map VStr l)) = Some l.
Proof.
  simpl. f_equal. induction l as [|x l IH]; simpl; [reflexivity|now rewrite IH].
Qed.

(** X10.  The two list and string coercions settle at once: coercing
    what [extract_str_list] or [extract_str] returned, with the same
    default, changes nothing. *)
Theorem coercions_idempotent (obj : value) (l : list string) (s : string) :
  let dl := VList (map VStr l) in
  extract_str_list (extract_str_list obj dl) dl = extract_str_list obj dl
  /\ extract_str (extract_str obj (VStr s)) (VStr s) = extract_str obj (VStr s).
Proof.
  split.
  - unfold extract_str_list at 2 3. destruct (str_list obj) as [l'|].
    + unfold extract_str_list. now rewrite str_list_of_strings.
    + unfold extract_str_list. now rewrite str_list_of_strings.
  - assert (exists t, extract_str obj (VStr s) = VStr t) as (t & ->); [|reflexivity].
    unfold extract_str. destruct (py_str obj) as [t|]; [now exists t|].
    destruct obj as [| | | | |xs|]; try (now exists s).
    destruct (filter is_str xs) as [|x rest] eqn:F; [now exists s|].
    assert (In x (filter is_str xs)) as I by (rewrite F; now left).
    apply filter_In in I. destruct I as [_ I].
    destruct x as [| | | |t| |]; try discriminate. now exists t.
Qed.

(* ================================================================== *)
(** ** Further properties: normalisation                               *)
(* ================================================================== *)

(** X11.  After a normalisation that did not raise, every job is a
    mapping with the keys [stage] and [script], with [tags] and
    [dependencies] that are lists of strings, and with complete [only]
    and [artifacts] records, whatever the document was. *)
Theorem normalised_jobs_complete (self self' : CiFile) (cidict : value) :
  _parse_cidict self cidict = Ok self' ->
  forall k j, In (k, j) (_cidict self') -> is_jobname k = true -> Spec.populated j.
Proof. apply normalised_jobs_populated. Qed.

Lemma normalised_jobs_complete_witness :
  Spec.populated (Doc.the_job (Doc.parsed Doc.two_jobs) "a").
Proof.
  apply (normalised_jobs_complete (init VNone) (Doc.parsed Doc.two_jobs) Doc.two_jobs
           ltac:(vm_compute; reflexivity) (KStr "a")).
  - vm_compute. auto.
  - reflexivity.
Defined.

Lemma in_remove_all (x r : string) (found : list string) :
  In r (remove_all x found) -> In r found /\ r <> x.
Proof.
  unfold remove_all. intro I. apply filter_In in I. destruct I as [I N].
  split; [assumption|]. intros ->. now rewrite String.eqb_refl in N.
Qed.

Lemma streamline_only_job_split (job job' : value) :
  streamline_only_job job = Ok job' -> Spec.has_field "only" Spec.only_split job'.
Proof.
  unfold streamline_only_job. intro H. inv_bind H.
  apply (setitem_has_field _ _ _ _ _ H).
  eexists. eexists. split; [reflexivity|]. split; apply Forall_forall; intros r I.
  - apply filter_In in I. destruct I as [I D].
    apply in_remove_all in I. destruct I as [I NV].
    apply in_remove_all in I. destruct I as [_ NR].
    repeat split; [|assumption|assumption].
    now destruct (startswith r "$").
  - apply filter_In in I. now destruct I as [_ D].
Qed.

(** X12.  After normalisation the [only] record of every job is
    split by the dollar sign: no ref begins with one, every condition
    does, and the words [refs] and [variables] are not among the refs. *)
Theorem normalised_only_split (self self' : CiFile) (cidict : value) :
  _parse_cidict self cidict = Ok self' ->
  forall k j, In (k, j) (_cidict self') -> is_jobname k = true ->
  Spec.has_field "only" Spec.only_split j.
Proof.
  destruct cidict as [| | | | | |d]; try discriminate. unfold _parse_cidict.
  intro H.
  apply bind_ok in H. destruct H as (s2 & _ & H).
  apply bind_ok in H. destruct H as (s3 & _ & H).
  apply bind_ok in H. destruct H as (s4 & _ & H).
  apply bind_ok in H. destruct H as (s5 & _ & H).
  apply bind_ok in H. destruct H as (s6 & _ & H).
  apply bind_ok in H. destruct H as (s8 & Only & Arts).
  intros k j9 I9 J.
  destruct (streamline_artifacts_in _ _ Arts k j9 I9 J) as (j8 & I8 & B9).
  destruct (streamline_only_in _ _ Only k j8 I8 J) as (j7 & I7 & B8).
  apply streamline_artifacts_job_fields in B9. destruct B9 as (_ & Keep9).
  apply Keep9; [discriminate|]. now apply streamline_only_job_split in B8.
Qed.

Lemma normalised_only_split_witness :
  Spec.has_field "only" Spec.only_split
    (Doc.the_job (Doc.parsed (Doc.mapping [Doc.job_b])) "b").
Proof.
  apply (normalised_only_split (init VNone) (Doc.parsed (Doc.mapping [Doc.job_b]))
           (Doc.mapping [Doc.job_b]) ltac:(vm_compute; reflexivity) (KStr "b")).
  - vm_compute. auto.
  - reflexivity.
Defined.

Lemma coerced_strings_by_name (d : dict value) :
  Spec.coerced d -> Spec.strings_by_name (VDict d).
Proof. intros [N F]. exists d. repeat split; assumption. Qed.

(** X13.  After normalisation every job has a [variables] mapping of
    its own, without a repeated name, and every value in it is a
    non-empty string. *)
Theorem normalised_variables_strings (self self' : CiFile) (cidict : value) :
  _parse_cidict self cidict = Ok self' ->
  forall k j, In (k, j) (_cidict self') -> is_jobname k = true ->
  Spec.has_field "variables" Spec.strings_by_name j.
Proof.
  destruct cidict as [| | | | | |d]; try discriminate. unfold _parse_cidict.
  intro H.
  apply bind_ok in H. destruct H as (s2 & _ & H).
  apply bind_ok in H. destruct H as (s3 & _ & H).
  apply bind_ok in H. destruct H as (s4 & _ & H).
  apply bind_ok in H. destruct H as (s5 & _ & H).
  apply bind_ok in H. destruct H as (s6 & Script & H).
  apply bind_ok in H. destruct H as (s8 & Only & Arts).
  intros k j9 I9 J.
  destruct (streamline_artifacts_in _ _ Arts k j9 I9 J) as (j8 & I8 & B9).
  destruct (streamline_only_in _ _ Only k j8 I8 J) as (j7 & I7 & B8).
  destruct (combine_variables_in _ _ _ _ I7) as (j6 & I6 & B7).
  destruct (script_always_list_in _ _ Script k j6 I6 J) as (j5 & I5 & B6).
  apply script_always_list_job_fields in B6. destruct B6 as ((items6 & _ & -> & _) & _).
  apply streamline_only_job_fields in B8. destruct B8 as (_ & Keep8).
  apply streamline_artifacts_job_fields in B9. destruct B9 as (_ & Keep9).
  apply Keep9, Keep8; try discriminate. subst j7. simpl. rewrite J. simpl.
  eexists. eexists. split; [reflexivity|]. split; [apply dict_get_set_same|].
  apply coerced_strings_by_name, combine_job_variables_coerced, extract_str_dict_coerced.
Qed.

Lemma normalised_variables_strings_witness :
  Spec.has_field "variables" Spec.strings_by_name
    (Doc.the_job (Doc.parsed Doc.empty_variable) "job").
Proof.
  apply (normalised_variables_strings (init VNone) (Doc.parsed Doc.empty_variable)
           Doc.empty_variable ltac:(vm_compute; reflexivity) (KStr "job")).
  - vm_compute. auto.
  - reflexivity.
Defined.

Lemma named_set (s : string) (v : value) (d : dict value) :
  startswith s "." = false -> Spec.named d -> Spec.named (dict_set (KStr s) v d).
Proof.
  intros S N k w I. apply in_dict_set in I. destruct I as [[-> _]|I]; [now exists s|].
  now apply (N k w).
Qed.

Lemma named_del (r : key) (d : dict value) : Spec.named d -> Spec.named (dict_del r d).
Proof. intros N k w I. apply filter_In in I. now apply (N k w). Qed.

Lemma named_mapM (f : key * value -> result (key * value)) (d d' : dict value) :
  (forall e e', f e = Ok e' -> fst e' = fst e) ->
  mapM f d = Ok d' -> Spec.named d -> Spec.named d'.
Proof.
  intros K M N k w I. destruct (mapM_in _ _ _ M _ I) as ([k0 w0] & I0 & F).
  apply K in F. simpl in F. subst k0. now apply (N k w0).
Qed.

Lemma named_map (F : key * value -> key * value) (d : dict value) :
  (forall e, fst (F e) = fst e) -> Spec.named d -> Spec.named (map F d).
Proof.
  intros K N k w I. apply in_map_iff in I. destruct I as ([k0 w0] & E & I).
  specialize (K (k0, w0)). rewrite E in K. simpl in K. subst k0. now apply (N k w0).
Qed.

(** A loop over the entries that keeps every key, and every value under
    the key [r], keeps what is stored under [r]. *)
Lemma mapM_get (f : key * value -> result (key * value)) (r : key) (d d' : dict value) :
  (forall k v k' v', f (k, v) = Ok (k', v') -> k' = k /\ (k = r -> v' = v)) ->
  mapM f d = Ok d' -> dict_get r d' = dict_get r d.
Proof.
  intro K. revert d'. induction d as [|[k v] d IH]; intros d'; simpl.
  - now intros [= <-].
  - intro H. inv_bind H. injection H as <-. destruct x as [k' v'].
    apply K in E. destruct E as [-> Same]. simpl.
    destruct (key_eqb r k) eqn:R.
    + apply key_eqb_eq in R. now rewrite Same.
    + now apply IH.
Qed.

Lemma for_each_job_key (body : key -> value -> result value) (k k' : key) (v v' : value) :
  (if is_jobname k then job' <- body k v ;; Ok (k, job') else Ok (k, v)) = Ok (k', v') ->
  k' = k /\ (is_jobname k = false -> v' = v).
Proof.
  destruct (is_jobname k).
  - intro H. inv_bind H. injection H as <- <-. split; [reflexivity|discriminate].
  - intros [= <- <-]. now split.
Qed.

(** A pass over the jobs leaves the keys of the pipeline alone. *)
Lemma for_each_job_frame (body : key -> value -> result value) (d d' : dict value) :
  for_each_job body d = Ok d' ->
  (Spec.named d -> Spec.named d')
  /\ forall r, is_jobname r = false -> dict_get r d' = dict_get r d.
Proof.
  unfold for_each_job. intro M. split.
  - refine (named_mapM _ _ _ _ M). intros [k v] [k' v'] F.
    now apply for_each_job_key in F.
  - intros r R. refine (mapM_get _ r _ _ _ M). intros k v k' v' F.
    apply for_each_job_key in F. destruct F as [-> Same].
    split; [reflexivity|]. intros ->. now apply Same.
Qed.

Lemma scan_apply_stages_frame (self self' : CiFile) :
  _job_scan_apply_stages self = Ok self' ->
  (Spec.named (_cidict self) -> Spec.named (_cidict self'))
  /\ Spec.has_stages (_cidict self')
  /\ forall r, is_jobname r = false -> r <> KStr "stages" ->
       dict_get r (_cidict self') = dict_get r (_cidict self).
Proof.
  unfold _job_scan_apply_stages.
  destruct (match dict_get (KStr PIPELINEKEY_STAGES) (_cidict self) with
            | Some s => (s, dict_del (KStr PIPELINEKEY_STAGES) (_cidict self))
            | None => (VList [], _cidict self)
            end) as [stages d] eqn:D.
  assert ((Spec.named (_cidict self) -> Spec.named d)
          /\ forall r, r <> KStr "stages" -> dict_get r d = dict_get r (_cidict self))
    as [N0 G0].
  { destruct (dict_get (KStr PIPELINEKEY_STAGES) (_cidict self)); injection D as <- <-.
    - split; [apply named_del|]. intros r R. apply dict_get_del_other.
      intro E. apply R. now rewrite <- E.
    - now split. }
  intro H. apply bind_ok in H. destruct H as (stages1 & _ & H).
  apply bind_ok in H. destruct H as (d' & M & H). injection H as <-.
  cbn [_cidict with_cidict].
  assert (forall k v k' v',
            assign_stage (if truthy stages1 then stages1
                          else VList [VStr (_default_stage self)]) (k, v) = Ok (k', v') ->
            k' = k /\ (is_jobname k = false -> v' = v)) as K.
  { intros k v k' v' A. apply assign_stage_field in A. destruct A as (-> & _ & Same).
    split; [reflexivity|]. intros J. apply Same. now rewrite J. }
  repeat split.
  - intro N. apply named_set; [reflexivity|].
    refine (named_mapM _ _ _ _ M (N0 N)). intros [k v] [k' v'] A.
    now apply K in A.
  - eexists. split; [apply dict_get_set_same|].
    now destruct (truthy stages1) eqn:T.
  - intros r J R. rewrite dict_get_set_other by (intro E; apply R; now rewrite <- E).
    rewrite <- G0 by assumption. refine (mapM_get _ r _ _ _ M).
    intros k v k' v' A. apply K in A. destruct A as [-> Same].
    split; [reflexivity|]. intros ->. now apply Same.
Qed.

Lemma convert_list_to_script_frame (self : CiFile) :
  (Spec.named (_cidict self) -> Spec.named (_cidict (_job_convert_list_to_script self)))
  /\ forall r, is_jobname r = false ->
       dict_get r (_cidict (_job_convert_list_to_script self)) = dict_get r (_cidict self).
Proof.
  unfold _job_convert_list_to_script. cbn [_cidict with_cidict].
  match goal with |- context [map ?F _] => set (f := F) end.
  assert (forall e, fst (f e) = fst e) as K.
  { intros [k v]. unfold f. destruct (is_jobname k && is_list v); [|reflexivity].
    now destruct (truthy (extract_str_list v VNone)). }
  split; [now apply named_map|].
  intros r R. rewrite dict_get_map by assumption.
  destruct (dict_get r (_cidict self)) as [v|]; [|reflexivity].
  simpl. unfold f. now rewrite R.
Qed.

Lemma convert_script_key_frame (jobkey newkey : string) (d d' : dict value) :
  startswith newkey "." = false ->
  jobkey = PIPELINEKEY_BEFORE_SCRIPT \/ jobkey = PIPELINEKEY_AFTER_SCRIPT ->
  convert_script_key jobkey newkey d = Ok d' ->
  (Spec.named d -> Spec.named d')
  /\ (Spec.has_stages d -> Spec.has_stages d')
  /\ forall r, r <> KStr jobkey -> r <> KStr newkey -> r <> KStr "stages" ->
       dict_get r d' = dict_get r d.
Proof.
  intros S Which. unfold convert_script_key. intro H.
  apply bind_ok in H. destruct H as (n & _ & H).
  destruct (0 <? n)%nat; [|injection H as <-; now repeat split].
  match type of H with
  | match dict_get _ ?d1 with _ => _ end = _ =>
      destruct (dict_get (KStr PIPELINEKEY_STAGES) d1) as [stages|] eqn:G; [|discriminate]
  end.
  apply bind_ok in H. destruct H as (s1 & E1 & H).
  apply bind_ok in H. destruct H as (s2 & E2 & H). injection H as <-.
  repeat split.
  - intro N. apply named_set; [reflexivity|]. apply named_set; [assumption|].
    now apply named_del.
  - intros _. exists s2. split; [apply dict_get_set_same|].
    destruct Which as [-> | ->]; simpl in E1, E2.
    + injection E2 as <-. destruct stages; try discriminate. now injection E1 as <-.
    + injection E1 as <-. destruct stages as [| | | | |l|]; try discriminate.
      injection E2 as <-. now destruct l.
  - intros r R1 R2 R3. rewrite dict_get_set_other by (intro E; apply R3; now rewrite <- E).
    rewrite dict_get_set_other by congruence.
    apply dict_get_del_other. congruence.
Qed.

Lemma convert_before_after_script_frame (self self' : CiFile) :
  _job_convert_before_after_script self = Ok self' ->
  (Spec.named (_cidict self) -> Spec.named (_cidict self'))
  /\ (Spec.has_stages (_cidict self) -> Spec.has_stages (_cidict self'))
  /\ dict_get (KStr "image") (_cidict self') = dict_get (KStr "image") (_cidict self).
Proof.
  unfold _job_convert_before_after_script. intro H.
  apply bind_ok in H. destruct H as (d1 & Before & H).
  apply bind_ok in H. destruct H as (d2 & After & H). injection H as <-.
  cbn [_cidict with_cidict].
  apply convert_script_key_frame in Before; [|reflexivity|now left].
  apply convert_script_key_frame in After; [|reflexivity|now right].
  destruct Before as (N1 & S1 & G1), After as (N2 & S2 & G2).
  repeat split; [tauto|tauto|].
  rewrite G2 by discriminate. now apply G1.
Qed.

Lemma combine_variables_frame (self : CiFile) (inj : dict value) :
  (Spec.named (_cidict self) -> Spec.named (_cidict (_job_combine_variables self inj)))
  /\ forall r, is_jobname r = false -> r <> KStr "variables" ->
       dict_get r (_cidict (_job_combine_variables self inj)) = dict_get r (_cidict self).
Proof.
  unfold _job_combine_variables. cbn [_cidict with_cidict]. split.
  - intro N. apply named_del, named_map; [apply combine_entry_key|].
    now apply named_set.
  - intros r J R. rewrite dict_get_del_other by (intro E; apply R; now rewrite <- E).
    rewrite dict_get_map by apply combine_entry_key.
    rewrite dict_get_set_other by (intro E; apply R; now rewrite <- E).
    destruct (dict_get r (_cidict self)) as [v|]; [|reflexivity].
    simpl. now rewrite J.
Qed.

Lemma pipeline_various_tweaks_shape (self : CiFile) :
  Spec.named (_cidict (_pipeline_various_tweaks self))
  /\ exists image,
       dict_get (KStr "image") (_cidict (_pipeline_various_tweaks self)) = Some (VStr image).
Proof.
  unfold _pipeline_various_tweaks. cbn [_cidict with_cidict]. split.
  - apply named_set; [reflexivity|]. intros k v I. apply filter_In in I.
    destruct I as [_ I]. destruct k as [s| |]; try discriminate.
    exists s. split; [reflexivity|]. now destruct (startswith s ".").
  - match goal with |- context [dict_set _ ?v _] => assert (exists image, v = VStr image) as (image & ->) end.
    { match goal with |- context [is_str ?t] => destruct t as [| | | |img| |]; simpl; eauto end. }
    exists image. apply dict_get_set_same.
Qed.

Lemma normalised_pipeline_shaped_of (self self' : CiFile) (cidict : value) :
  _parse_cidict self cidict = Ok self' -> Spec.pipeline_shaped (_cidict self').
Proof.
  destruct cidict as [| | | | | |d]; try discriminate. unfold _parse_cidict.
  intro H.
  apply bind_ok in H. destruct H as (s2 & Scan1 & H).
  apply bind_ok in H. destruct H as (s3 & Scan2 & H).
  apply bind_ok in H. destruct H as (s4 & Conv & H).
  apply bind_ok in H. destruct H as (s5 & Tweaks & H).
  apply bind_ok in H. destruct H as (s6 & Script & H).
  apply bind_ok in H. destruct H as (s8 & Only & Arts).
  destruct (pipeline_various_tweaks_shape (with_cidict self d)) as (N1 & image & G1).
  apply scan_apply_stages_frame in Scan1. destruct Scan1 as (N2 & _ & G2).
  destruct (convert_list_to_script_frame s2) as (N3 & G3).
  apply scan_apply_stages_frame in Scan2. destruct Scan2 as (N4 & S4 & G4).
  apply convert_before_after_script_frame in Conv. destruct Conv as (N5 & S5 & G5).
  unfold _job_various_tweaks in Tweaks. inv_bind Tweaks. injection Tweaks as <-.
  apply for_each_job_frame in E. destruct E as (N6 & G6).
  unfold _job_script_always_list in Script. inv_bind Script. injection Script as <-.
  apply for_each_job_frame in E. destruct E as (N7 & G7).
  match type of Only with _job_streamline_only (_job_combine_variables ?s _) = _ =>
    destruct (combine_variables_frame s []) as (N8 & G8);
    pose proof (combine_removes_pipeline_variables s []) as V8
  end.
  unfold _job_streamline_only in Only. inv_bind Only. injection Only as <-.
  apply for_each_job_frame in E. destruct E as (N9 & G9).
  unfold _job_streamline_artifacts in Arts. inv_bind Arts. injection Arts as <-.
  apply for_each_job_frame in E. destruct E as (N10 & G10).
  cbn [_cidict with_cidict] in *.
  repeat split.
  - exists image.
    rewrite G10, G9, G8, G7, G6, G5, G4, G3, G2 by (reflexivity || discriminate).
    exact G1.
  - destruct (S5 S4) as (stages & G & T). exists stages. split; [|assumption].
    now rewrite G10, G9, G8, G7, G6 by (reflexivity || discriminate).
  - now rewrite G10, G9 by reflexivity.
  - auto 15.
Qed.

(** X14.  After a normalisation that did not raise the pipeline has an
    image that is a string and stages that are not empty, its
    pipeline-level [variables] are gone, and every key is a string that
    does not begin with a dot: templates and non-string keys are
    dropped. *)
Theorem normalised_pipeline_shaped (self self' : CiFile) (cidict : value) :
  _parse_cidict self cidict = Ok self' -> Spec.pipeline_shaped (_cidict self').
Proof. apply normalised_pipeline_shaped_of. Qed.

Lemma normalised_pipeline_shaped_witness :
  Spec.pipeline_shaped (_cidict (Doc.parsed Doc.two_jobs)).
Proof.
  apply (normalised_pipeline_shaped (init VNone) (Doc.parsed Doc.two_jobs) Doc.two_jobs).
  vm_compute. reflexivity.
Defined.

Lemma parse_cidict_settings (self self' : CiFile) (cidict : value) :
  _parse_cidict self cidict = Ok self' -> Spec.settings self' = Spec.settings self.
Proof.
  destruct cidict as [| | | | | |d]; try discriminate. unfold _parse_cidict.
  intro H.
  apply bind_ok in H. destruct H as (s2 & Scan1 & H).
  apply bind_ok in H. destruct H as (s3 & Scan2 & H).
  apply bind_ok in H. destruct H as (s4 & Conv & H).
  apply bind_ok in H. destruct H as (s5 & Tweaks & H).
  apply bind_ok in H. destruct H as (s6 & Script & H).
  apply bind_ok in H. destruct H as (s8 & Only & Arts).
  assert (forall a b, _job_scan_apply_stages a = Ok b -> Spec.settings b = Spec.settings a)
    as Scan.
  { intros a b. unfold _job_scan_apply_stages.
    destruct (match dict_get (KStr PIPELINEKEY_STAGES) (_cidict a) with
              | Some s => (s, dict_del (KStr PIPELINEKEY_STAGES) (_cidict a))
              | None => (VList [], _cidict a)
              end) as [stages d0].
    intro S. inv_bind S. now injection S as <-. }
  apply Scan in Scan1, Scan2.
  unfold _job_convert_before_after_script in Conv. inv_bind Conv. injection Conv as <-.
  unfold _job_various_tweaks in Tweaks. inv_bind Tweaks. injection Tweaks as <-.
  unfold _job_script_always_list in Script. inv_bind Script. injection Script as <-.
  unfold _job_streamline_only in Only. inv_bind Only. injection Only as <-.
  unfold _job_streamline_artifacts in Arts. inv_bind Arts. injection Arts as <-.
  unfold Spec.settings, with_cidict in *. cbn in *. congruence.
Qed.

(* ================================================================== *)
(** ** Further properties: the conditions of [only: variables]         *)
(* ================================================================== *)

Lemma word_is_plain (c : ascii) :
  is_word c = true ->
  is_space c = false /\ is_quote c = false
  /\ Ascii.eqb c "=" = false /\ Ascii.eqb c "$" = false.
Proof.
  destruct c as [[] [] [] [] [] [] [] []]; vm_compute; intro H;
    try discriminate H; repeat split.
Qed.

Lemma all_chars_impl (p q : ascii -> bool) (s : string) :
  (forall c, p c = true -> q c = true) -> all_chars p s = true -> all_chars q s = true.
Proof.
  intro I. induction s as [|c s IH]; simpl; [reflexivity|].
  intro H. apply andb_true_iff in H. destruct H as [Pc H].
  now rewrite (I c Pc), IH.
Qed.

Lemma all_chars_has_char (p : ascii -> bool) (x : ascii) (s : string) :
  p x = false -> all_chars p s = true -> has_char x s = false.
Proof.
  intro X. induction s as [|c s IH]; simpl; [reflexivity|].
  intro H. apply andb_true_iff in H. destruct H as [Pc H]. rewrite IH by assumption.
  destruct (Ascii.eqb x c) eqn:E; [|reflexivity].
  apply Ascii.eqb_eq in E. congruence.
Qed.

Lemma rstrip_kept (drop : ascii -> bool) (s : string) :
  all_chars (fun c => negb (drop c)) s = true -> rstrip drop s = s.
Proof.
  induction s as [|c s IH]; simpl; [reflexivity|].
  intro H. apply andb_true_iff in H. destruct H as [D H]. rewrite IH by assumption.
  apply negb_true_iff in D. rewrite D. now destruct s.
Qed.

Lemma strip_kept (drop : ascii -> bool) (s : string) :
  all_chars (fun c => negb (drop c)) s = true -> strip drop s = s.
Proof.
  intro H. unfold strip.
  assert (lstrip drop s = s) as ->; [|now apply rstrip_kept].
  destruct s as [|c s]; [reflexivity|]. simpl in *.
  apply andb_true_iff in H. destruct H as [D _]. apply negb_true_iff in D. now rewrite D.
Qed.

Lemma append_empty (s : string) : (s ++ "")%string = s.
Proof. induction s as [|c s IH]; simpl; [reflexivity|now rewrite IH]. Qed.

(** A reference that ends the text. *)
Lemma expand_word (env : environ) (name : string) :
  name <> EmptyString -> all_chars is_word name = true ->
  expandvars env (String "$" name)
  = match env_get name env with
    | Some val => val
    | None => String "$" name
    end.
Proof.
  intros N W. unfold expandvars. cbn [expand_from].
  rewrite Ascii.eqb_refl.
  pose proof (var_at_word name "" N W I) as V.
  pose proof (expand_from_skip env name "") as Sk.
  pose proof (expand_from_copy env name "") as Cp.
  rewrite append_empty in V, Sk, Cp. rewrite V.
  destruct (env_get name env) as [val|].
  - rewrite Sk. simpl. apply append_empty.
  - rewrite Cp. simpl. now rewrite append_empty.
Qed.

(** A reference and a text of letters, digits and underscores are left
    whole by both [strip] calls. *)
Lemma strips_keep_word (s : string) :
  all_chars is_word s = true -> strip is_quote (strip is_space s) = s.
Proof.
  intro W. rewrite (strip_kept is_space).
  - apply strip_kept. apply (all_chars_impl is_word); [|assumption].
    intros c Wc. apply word_is_plain in Wc. destruct Wc as (_ & -> & _). reflexivity.
  - apply (all_chars_impl is_word); [|assumption].
    intros c Wc. apply word_is_plain in Wc. destruct Wc as (-> & _). reflexivity.
Qed.

Lemma strips_keep_reference (name : string) :
  all_chars is_word name = true ->
  strip is_quote (strip is_space (String "$" name)) = String "$" name.
Proof.
  intro W.
  assert (forall drop, drop "$"%char = false ->
            (forall c, is_word c = true -> drop c = false) ->
            strip drop (String "$" name) = String "$" name) as K.
  { intros drop D P. apply strip_kept. simpl. rewrite D. simpl.
    apply (all_chars_impl is_word); [|assumption].
    intros c Wc. now rewrite (P c Wc). }
  rewrite (K is_space); [apply K|reflexivity|]; try reflexivity.
  - intros c Wc. now apply word_is_plain in Wc.
  - intros c Wc. now apply word_is_plain in Wc.
Qed.

(** X16.  The presence check [$NAME] of [only: variables] holds for a
    variable that is not set at all, since the reference then stays as
    it is, and for a variable with a non-empty value; it fails only for
    a variable that is set to the empty string. *)
Theorem presence_check (env : environ) (name : string) :
  name <> EmptyString -> all_chars is_word name = true ->
  condition_holds env (String "$" name)
  = match env_get name env with
    | Some val => negb (String.eqb val "")
    | None => true
    end.
Proof.
  intros N W. unfold condition_holds.
  assert (has_char "=" (String "$" name) = false) as E.
  { cbn [has_char]. rewrite (all_chars_has_char is_word) by (reflexivity || assumption).
    reflexivity. }
  rewrite (split_eqeq_no_equals _ E). cbn [hd].
  rewrite strips_keep_reference, expand_word by assumption.
  now destruct (env_get name env).
Qed.

Lemma presence_check_witness :
  condition_holds [("EMPTY", "")] "$UNSET" = true
  /\ condition_holds [("EMPTY", "")] "$EMPTY" = false.
Proof.
  split.
  - exact (presence_check [("EMPTY", "")] "UNSET" ltac:(discriminate) eq_refl).
  - exact (presence_check [("EMPTY", "")] "EMPTY" ltac:(discriminate) eq_refl).
Defined.

Lemma split_eqeq_at (left right : string) :
  has_char "=" left = false ->
  split_eqeq (left ++ String "=" (String "=" right)) = left :: split_eqeq right.
Proof.
  induction left as [|c left IH]; [reflexivity|].
  cbn [has_char]. intro H. apply orb_false_iff in H. destruct H as [C H].
  rewrite ascii_eqb_sym in C. cbn [String.append split_eqeq]. rewrite C.
  now rewrite IH.
Qed.

(** X17.  The comparison [$NAME==text], for a text of letters, digits
    and underscores: it holds when NAME has exactly that value; for the
    texts [null], [nil] and [None] it also holds when NAME is not set,
    and when the value of NAME has a dollar sign in it. *)
Theorem equality_check (env : environ) (name text : string) :
  name <> EmptyString -> all_chars is_word name = true ->
  text <> EmptyString -> all_chars is_word text = true ->
  condition_holds env (String "$" name ++ String "=" (String "=" text))
  = match env_get name env with
    | Some val => (has_char "$" val && Spec.is_null text) || String.eqb val text
    | None => Spec.is_null text
    end.
Proof.
  intros N W NT WT. unfold condition_holds.
  assert (forall x, is_word x = false -> has_char x text = false) as TextFree.
  { intros x X. now apply (all_chars_has_char is_word). }
  rewrite split_eqeq_at.
  2:{ cbn [has_char]. rewrite (all_chars_has_char is_word) by (reflexivity || assumption).
      reflexivity. }
  rewrite (split_eqeq_no_equals text) by now apply TextFree.
  cbn [hd]. rewrite strips_keep_reference, expand_word by assumption.
  assert (expandvars env text = text) as ->
    by (apply expand_from_no_dollar; now apply TextFree).
  rewrite strips_keep_word by assumption.
  assert (String.eqb text "" = false) as T0 by now apply String.eqb_neq.
  rewrite T0. cbn [negb]. rewrite andb_false_r. unfold Spec.is_null.
  destruct (env_get name env) as [val|].
  - rewrite andb_true_r.
    now destruct (has_char "$" val && existsb (String.eqb text) ["null"; "nil"; "None"]).
  - cbn [has_char]. rewrite Ascii.eqb_refl. cbn [orb andb].
    destruct (existsb (String.eqb text) ["null"; "nil"; "None"]); [reflexivity|].
    destruct text as [|c text']; [contradiction|].
    cbn [all_chars] in WT. apply andb_true_iff in WT. destruct WT as [Wc _].
    apply word_is_plain in Wc. destruct Wc as (_ & _ & _ & D).
    cbn [String.eqb]. rewrite ascii_eqb_sym in D. now rewrite D.
Qed.

Lemma equality_check_witness :
  condition_holds [("TARGET", "arm")] "$TARGET==arm" = true
  /\ condition_holds [("TARGET", "arm")] "$OTHER==null" = true.
Proof.
  split.
  - exact (equality_check [("TARGET", "arm")] "TARGET" "arm"
             ltac:(discriminate) eq_refl ltac:(discriminate) eq_refl).
  - exact (equality_check [("TARGET", "arm")] "OTHER" "null"
             ltac:(discriminate) eq_refl ltac:(discriminate) eq_refl).
Defined.

(* ================================================================== *)
(** ** Further properties: the evaluation of jobs                      *)
(* ================================================================== *)

(** X18.  [_evaluate_jobs] and [prepare_run_with] come to an end on
    every pipeline and in every environment, with a result or an
    exception: the [while removedsomething] loop cannot run for ever,
    cyclic dependencies or not. *)
Theorem run_preparation_ends (self : CiFile) (env : environ)
    (ref source message sha : string) (tag : value) :
  _evaluate_jobs self env <> None
  /\ prepare_run_with self env ref source message sha tag <> None
  /\ forall d, exists r, prune (S (List.length d)) d = Some r.
Proof.
  split; [apply evaluate_jobs_terminates|split; [apply prepare_run_with_terminates|]].
  intro d. pose proof (prune_terminates (S (List.length d)) d (Nat.lt_succ_diag_r _)) as P.
  destruct (prune (S (List.length d)) d) as [r|]; [now exists r|contradiction].
Qed.

(** X19.  [_evaluate_jobs] only takes entries away: what it leaves is
    part of what was there, job by job unchanged, under string keys
    only; the settings of the [CiFile] are untouched; and a further
    scan of the dependencies finds nothing that counts as true. *)
Theorem evaluate_jobs_only_removes (self self' : CiFile) (env env' : environ) :
  _evaluate_jobs self env = Some (Ok (self', env')) ->
  incl (_cidict self') (_cidict self)
  /\ (forall k j, In (k, j) (_cidict self') -> is_kstr k = true)
  /\ Spec.settings self' = Spec.settings self
  /\ exists r, scan_dependencies (_cidict self') = Ok r /\ truthy r = false.
Proof.
  unfold _evaluate_jobs.
  destruct (evaluate_all (_cidict self) env) as [[env1 jobs_to_remove]|e];
    [|discriminate].
  match goal with
  | |- context [prune (S (List.length ?d)) ?d] =>
      set (d0 := d); destruct (prune (S (List.length d0)) d0) as [[d'|e]|] eqn:P
  end; try discriminate.
  intros [= <- <-]. cbn [_cidict with_cidict].
  apply prune_fixed_point in P. destruct P as [Incl Fixed].
  repeat split; [| |assumption].
  - intros e I. apply Incl in I. unfold d0 in I. now apply filter_In in I.
  - intros k j I. apply Incl in I. unfold d0 in I. apply filter_In in I.
    destruct I as [_ I]. now apply andb_true_iff in I.
Qed.

Lemma evaluate_jobs_only_removes_witness :
  incl (_cidict (fst (Doc.evaluated Doc.chain []))) (_cidict (Doc.parsed Doc.chain)).
Proof.
  apply (evaluate_jobs_only_removes (Doc.parsed Doc.chain)
           (fst (Doc.evaluated Doc.chain [])) [] (snd (Doc.evaluated Doc.chain []))).
  vm_compute. reflexivity.
Defined.

(** X20.  What [_evaluate_jobs] establishes when it completes and
    leaves no job named by the empty string: every dependency of every
    job left is a key of the pipeline left -- a job or a reserved key. *)
Theorem evaluated_dependencies_present (self self' : CiFile) (env env' : environ) :
  _evaluate_jobs self env = Some (Ok (self', env')) ->
  dict_get (KStr "") (_cidict self') = None ->
  forall k j, In (k, j) (_cidict self') -> is_jobname k = true -> is_dict j = true ->
  exists deps ds,
    getitem j JOBKEY_DEPENDENCIES = Ok deps /\ iter deps = Ok ds
    /\ forall dep, In dep ds ->
       exists k', value_key dep = Ok (Some k') /\ dict_mem k' (_cidict self') = true.
Proof. apply evaluate_jobs_closed_under_keys. Qed.

Lemma evaluated_dependencies_present_witness :
  exists deps ds,
    getitem (Doc.the_job (fst (Doc.evaluated Doc.two_jobs [])) "a") JOBKEY_DEPENDENCIES
    = Ok deps
    /\ iter deps = Ok ds
    /\ forall dep, In dep ds ->
       exists k', value_key dep = Ok (Some k')
         /\ dict_mem k' (_cidict (fst (Doc.evaluated Doc.two_jobs []))) = true.
Proof.
  apply (evaluated_dependencies_present (Doc.parsed Doc.two_jobs)
           (fst (Doc.evaluated Doc.two_jobs [])) [] (snd (Doc.evaluated Doc.two_jobs []))
           ltac:(vm_compute; reflexivity) ltac:(vm_compute; reflexivity) (KStr "a")).
  - vm_compute. auto.
  - reflexivity.
  - reflexivity.
Defined.

(** X21.  The evaluation of one job writes the job's variables into the
    process environment and takes none of them back: the environment
    [evaluate_job] leaves, the one the next job is evaluated in, holds
    every one of them (a later job that sets the same name overwrites
    it there); and a job whose variables are not all strings under
    string names is not evaluated without an exception. *)
Theorem evaluated_job_variables_exported (env env' : environ) (job : value)
    (vars : dict value) (job_run : bool) :
  evaluate_job env job = Ok (env', job_run) ->
  getitem job JOBKEY_VARIABLES = Ok (VDict vars) ->
  NoDup (dict_keys vars) ->
  forall k v, In (k, v) vars ->
  exists name val, k = KStr name /\ v = VStr val /\ env_get name env' = Some val.
Proof. apply evaluate_job_exports. Qed.

Lemma evaluated_job_variables_exported_witness :
  exists name val,
    KStr "Y" = KStr name /\ VStr "3" = VStr val
    /\ env_get name
         (fst (Doc.job_evaluated [] (Doc.the_job (Doc.parsed Doc.empty_variable) "job")))
       = Some val.
Proof.
  apply (evaluated_job_variables_exported []
           (fst (Doc.job_evaluated [] (Doc.the_job (Doc.parsed Doc.empty_variable) "job")))
           (Doc.the_job (Doc.parsed Doc.empty_variable) "job")
           (Doc.variables_of_job (Doc.the_job (Doc.parsed Doc.empty_variable) "job"))
           (snd (Doc.job_evaluated [] (Doc.the_job (Doc.parsed Doc.empty_variable) "job")))).
  - vm_compute. reflexivity.
  - vm_compute. reflexivity.
  - vm_compute. repeat constructor; simpl; intuition discriminate.
  - vm_compute. auto.
Defined.

(* ================================================================== *)
(** ** Further properties: the build information                       *)
(* ================================================================== *)





(* ================================================================== *)
(** ** Further properties: the ids of a run                            *)
(* ================================================================== *)

Lemma assign_job_ids_step (pid : string) (d d' : dict value) (g g' : IdGenerator)
    (k : key) :
  assign_job_ids pid (d, g) k = Ok (d', g') ->
  g' = mkIdGenerator (_last_job_id g + 1) (_last_pipeline_id g)
  /\ dict_keys d' = dict_keys d
  /\ (forall k', k' <> k -> dict_get k' d' = dict_get k' d)
  /\ Spec.has_ids pid (_last_job_id g) (_last_job_id g + 1) d' k.
Proof.
  unfold assign_job_ids. destruct (dict_get k d) as [job|] eqn:G; [|discriminate].
  intro H. apply bind_ok in H. destruct H as (has & _ & H).
  apply bind_ok in H. destruct H as (vars & _ & H).
  unfold next_job_id in H. cbv zeta in H.
  apply bind_ok in H. destruct H as (job' & Put & H). injection H as <- <-.
  apply setitem_ok in Put. destruct Put as (items & -> & ->).
  repeat split.
  - apply dict_keys_set_present. congruence.
  - intros k' N. apply dict_get_set_other. congruence.
  - eexists. eexists. exists (_last_job_id g + 1)%Z.
    split; [apply dict_get_set_same|].
    split; [apply dict_get_set_same|].
    split; [rewrite dict_get_set_other by discriminate; apply dict_get_set_same|].
    split; [apply dict_get_set_same|lia].
Qed.

Lemma has_ids_kept (pid : string) (lo : Z) (d d' : dict value) (g g' : IdGenerator)
    (k k' : key) :
  assign_job_ids pid (d, g) k = Ok (d', g') ->
  (lo <= _last_job_id g)%Z ->
  Spec.has_ids pid lo (_last_job_id g) d k' ->
  Spec.has_ids pid lo (_last_job_id g') d' k'.
Proof.
  intros A L H. apply assign_job_ids_step in A. destruct A as (-> & _ & Other & New).
  cbn [_last_job_id].
  destruct (key_eqb k' k) eqn:E.
  - apply key_eqb_eq in E. subst k'.
    destruct New as (items & vars & n & ? & ? & ? & ? & ?).
    exists items, vars, n. repeat split; try assumption; lia.
  - apply key_eqb_neq in E.
    destruct H as (items & vars & n & ? & ? & ? & ? & ?).
    exists items, vars, n. rewrite Other by assumption.
    repeat split; try assumption; lia.
Qed.

Lemma assign_names (pid : string) (lo : Z) (names : list key) :
  forall d g d' g',
    foldM (assign_job_ids pid) names (d, g) = Ok (d', g') ->
    (lo <= _last_job_id g)%Z ->
    _last_job_id g' = (_last_job_id g + Z.of_nat (List.length names))%Z
    /\ _last_pipeline_id g' = _last_pipeline_id g
    /\ dict_keys d' = dict_keys d
    /\ (forall k, Spec.has_ids pid lo (_last_job_id g) d k ->
                  Spec.has_ids pid lo (_last_job_id g') d' k)
    /\ (forall k, In k names -> Spec.has_ids pid lo (_last_job_id g') d' k).
Proof.
  induction names as [|k names IH]; intros d g d' g' H L.
  - injection H as <- <-. cbn [List.length Z.of_nat]. rewrite Z.add_0_r.
    repeat split; [auto|intros k []].
  - cbn [foldM] in H. apply bind_ok in H. destruct H as ([d1 g1] & A & H).
    pose proof (assign_job_ids_step _ _ _ _ _ _ A) as (G1 & K1 & _ & New).
    assert (_last_job_id g1 = _last_job_id g + 1)%Z as J1 by now subst g1.
    assert (_last_pipeline_id g1 = _last_pipeline_id g) as P1 by now subst g1.
    destruct (IH d1 g1 d' g' H ltac:(lia)) as (J & P & K & Kept & Names).
    repeat split.
    + rewrite J, J1. cbn [List.length]. lia.
    + congruence.
    + congruence.
    + intros k' Hk. apply Kept. now apply (has_ids_kept _ _ _ _ _ _ _ _ A L).
    + intros k' [<-|I]; [|now apply Names].
      apply Kept. rewrite J1.
      destruct New as (items & vars & n & ? & ? & ? & ? & ?).
      exists items, vars, n. repeat split; try assumption; lia.
Qed.

Lemma assign_groups (pid : string) (lo : Z) (groups : list value) :
  forall d g d' g',
    foldM (fun st group => foldM (assign_job_ids pid) (dict_keys (dict_items group)) st)
          groups (d, g) = Ok (d', g') ->
    (lo <= _last_job_id g)%Z ->
    _last_job_id g'
    = (_last_job_id g
       + Z.of_nat (list_sum (map (fun group => List.length (dict_items group)) groups)))%Z
    /\ _last_pipeline_id g' = _last_pipeline_id g
    /\ dict_keys d' = dict_keys d
    /\ (forall k, Spec.has_ids pid lo (_last_job_id g) d k ->
                  Spec.has_ids pid lo (_last_job_id g') d' k)
    /\ (forall group k, In group groups -> In k (dict_keys (dict_items group)) ->
                        Spec.has_ids pid lo (_last_job_id g') d' k).
Proof.
  induction groups as [|group groups IH]; intros d g d' g' H L.
  - injection H as <- <-. cbn. rewrite Z.add_0_r.
    repeat split; [auto|intros ? ? []].
  - cbn [foldM] in H. apply bind_ok in H. destruct H as ([d1 g1] & A & H).
    destruct (assign_names _ lo _ _ _ _ _ A L) as (J1 & P1 & K1 & Kept1 & Names1).
    unfold dict_keys in J1 at 1. rewrite length_map in J1.
    destruct (IH d1 g1 d' g' H ltac:(lia)) as (J & P & K & Kept & Groups).
    repeat split.
    + rewrite J, J1. cbn [map]. unfold list_sum. cbn [fold_right]. lia.
    + congruence.
    + congruence.
    + intros k Hk. now apply Kept, Kept1.
    + intros gr k [<-|I] Ik; [now apply Kept, Names1|now apply (Groups gr)].
Qed.

(** X23.  What [_assign_ids] does to the counters and to the jobs: the
    pipeline counter goes up by one, the job counter by the number of
    jobs in the groups of the matrix; no key of the pipeline is added
    or lost; and every job of the matrix carries the new pipeline id
    and a job id that was handed out in this run. *)
Theorem assign_ids_counts (self self' : CiFile) (matrix : value) :
  _assign_ids self = Ok self' ->
  convert_to_matrix self = Ok matrix ->
  let g := _id_generator self in
  let g' := _id_generator self' in
  _last_pipeline_id g' = (_last_pipeline_id g + 1)%Z
  /\ _last_job_id g' = (_last_job_id g + Z.of_nat (Doc.matrix_size matrix))%Z
  /\ dict_keys (_cidict self') = dict_keys (_cidict self)
  /\ forall group jobname,
       In group (Doc.matrix_groups matrix) ->
       In jobname (dict_keys (dict_items group)) ->
       Spec.has_ids (str_of_int (_last_pipeline_id g + 1))
                    (_last_job_id g) (_last_job_id g') (_cidict self') jobname.
Proof.
  unfold _assign_ids, next_pipeline_id. cbv zeta. intros H M. rewrite M in H.
  cbn [bind] in H.
  assert (exists groups stages image,
            matrix = VDict [(KStr MATRIXKEY_JOBS, VList groups);
                            (KStr MATRIXKEY_STAGES, stages);
                            (KStr MATRIXKEY_IMAGE, image)]) as (groups & stages & image & ->).
  { revert M. unfold convert_to_matrix.
    destruct (dict_get (KStr PIPELINEKEY_STAGES) (_cidict self)) as [stages|];
      [|discriminate].
    destruct (dict_get (KStr PIPELINEKEY_IMAGE) (_cidict self)) as [image|];
      [|discriminate].
    intro M. inv_bind M. injection M as <-. eauto. }
  cbn in H. apply bind_ok in H. destruct H as ([d' g'] & A & H). injection H as <-.
  cbn [_id_generator _cidict with_id_generator with_cidict].
  apply (assign_groups _ (_last_job_id (_id_generator self))) in A;
    [|cbn [_last_job_id]; lia].
  cbn [_last_job_id _last_pipeline_id] in A.
  destruct A as (J & P & K & _ & Groups).
  unfold Doc.matrix_size, Doc.matrix_groups. cbn.
  repeat split; assumption.
Qed.

Lemma assign_ids_counts_witness :
  _last_pipeline_id (_id_generator (snd (Doc.numbered Doc.two_jobs))) = 1%Z
  /\ _last_job_id (_id_generator (snd (Doc.numbered Doc.two_jobs)))
     = Z.of_nat (Doc.matrix_size (fst (Doc.numbered Doc.two_jobs))).
Proof.
  destruct (assign_ids_counts (Doc.parsed Doc.two_jobs) (snd (Doc.numbered Doc.two_jobs))
              (fst (Doc.numbered Doc.two_jobs))
              ltac:(vm_compute; reflexivity) ltac:(vm_compute; reflexivity))
    as (P & J & _).
  split; [exact P|exact J].
Defined.

(* ================================================================== *)
(** ** Further properties: the matrix                                  *)
(* ================================================================== *)

Lemma mapM_Forall2 {A B : Type} (f : A -> result B) (R : A -> B -> Prop)
    (l : list A) (l' : list B) :
  (forall x y, f x = Ok y -> R x y) -> mapM f l = Ok l' -> Forall2 R l l'.
Proof.
  intro Step. revert l'. induction l as [|a l IH]; intros l'; simpl.
  - intros [= <-]. constructor.
  - intro H. inv_bind H. injection H as <-. constructor; auto.
Qed.

Lemma in_dict_set_same {V : Type} (k : key) (v : V) (d : dict V) :
  In (k, v) (dict_set k v d).
Proof.
  induction d as [|[k' v'] d IH]; simpl; [now left|].
  destruct (key_eqb k k') eqn:E.
  - apply key_eqb_eq in E. subst k'. now left.
  - now right.
Qed.

Lemma in_dict_set_other {V : Type} (k k0 : key) (v v0 : V) (d : dict V) :
  k <> k0 -> In (k, v) d -> In (k, v) (dict_set k0 v0 d).
Proof.
  intro N. induction d as [|[k' v'] d IH]; simpl; [contradiction|].
  destruct (key_eqb k0 k') eqn:E.
  - apply key_eqb_eq in E. subst k'.
    intros [[= ? ?]|I]; [congruence|now right].
  - intros [?|I]; [now left|right; now apply IH].
Qed.

Lemma jobs_of_stage_sound (d : dict value) (stage : value) (jobs : dict value) :
  jobs_of_stage d stage = Ok jobs ->
  forall k j, In (k, j) jobs ->
  In (k, j) d /\ is_jobname k = true /\ Spec.in_stage stage j.
Proof.
  unfold jobs_of_stage. intro H.
  refine (foldM_invariant
            (fun acc => forall k j, In (k, j) acc ->
               In (k, j) d /\ is_jobname k = true /\ Spec.in_stage stage j)
            _ d _ [] jobs _ H); [|intros k j []].
  intros acc [k0 j0] acc' I0 P F.
  destruct (is_jobname k0 && is_dict j0) eqn:C; [|now injection F as <-].
  apply andb_true_iff in C. destruct C as [J0 D0].
  apply bind_ok in F. destruct F as (s & G & F). injection F as <-.
  destruct (py_eq s stage) eqn:E; [|assumption].
  intros k j I. apply in_dict_set in I. destruct I as [[-> ->]|I]; [|now apply P].
  repeat split; try assumption. now exists s.
Qed.

Lemma jobs_of_stage_complete (stage : value) (l : dict value) :
  forall acc jobs,
    foldM (fun jobs '(jobname, job) =>
             if is_jobname jobname && is_dict job then
               s <- getitem job JOBKEY_STAGE ;;
               Ok (if py_eq s stage then dict_set jobname job jobs else jobs)
             else Ok jobs) l acc = Ok jobs ->
    NoDup (dict_keys l) ->
    (forall k j, In (k, j) acc -> ~ In k (dict_keys l) -> In (k, j) jobs)
    /\ (forall k j, In (k, j) l -> is_jobname k = true -> Spec.in_stage stage j ->
                    In (k, j) jobs).
Proof.
  induction l as [|[k0 j0] l IH]; intros acc jobs H N.
  - injection H as <-. split; [auto|intros k j []].
  - cbn [foldM] in H. apply bind_ok in H. destruct H as (acc1 & F & H).
    inversion N as [|? ? Fresh N']; subst.
    destruct (IH acc1 jobs H N') as (Kept & Found).
    split.
    + intros k j I Out.
      apply Kept; [|intro Ik; apply Out; right; exact Ik].
      destruct (is_jobname k0 && is_dict j0); [|now injection F as <-].
      apply bind_ok in F. destruct F as (s & _ & F). injection F as <-.
      destruct (py_eq s stage); [|assumption].
      apply in_dict_set_other; [|assumption]. intros ->. apply Out. now left.
    + intros k j [[= -> ->]|I] J S; [|now apply Found].
      apply Kept; [|assumption].
      destruct S as (D & s & G & E). rewrite J, D in F. cbn [andb] in F.
      change (getitem j JOBKEY_STAGE) with (getitem j "stage") in F.
      rewrite G in F. cbn [bind] in F. rewrite E in F. injection F as <-.
      apply in_dict_set_same.
Qed.

(** X24.  The matrix of [convert_to_matrix] has the stages and the
    image of the pipeline, and one group for every stage, in the order
    of the stages: every entry of a group is a job of the pipeline, a
    mapping with that stage, and every such job is in the group. *)
Theorem matrix_groups_by_stage (self : CiFile) (matrix : value) :
  convert_to_matrix self = Ok matrix ->
  exists stages image sts groups,
    dict_get (KStr "stages") (_cidict self) = Some stages
    /\ dict_get (KStr "image") (_cidict self) = Some image
    /\ iter stages = Ok sts
    /\ matrix = VDict [(KStr "jobs", VList groups); (KStr "stages", stages);
                       (KStr "image", image)]
    /\ Forall2 (Spec.stage_group (_cidict self)) sts groups.
Proof.
  unfold convert_to_matrix.
  change (KStr PIPELINEKEY_STAGES) with (KStr "stages").
  change (KStr PIPELINEKEY_IMAGE) with (KStr "image").
  destruct (dict_get (KStr "stages") (_cidict self)) as [stages|]; [|discriminate].
  destruct (dict_get (KStr "image") (_cidict self)) as [image|]; [|discriminate].
  intro H. apply bind_ok in H. destruct H as (sts & It & H).
  apply bind_ok in H. destruct H as (groups & M & H). injection H as <-.
  exists stages, image, sts, groups. repeat split; try assumption.
  refine (mapM_Forall2 _ _ _ _ _ M). intros stage group F.
  apply bind_ok in F. destruct F as (jobs & Jobs & F). injection F as <-.
  exists jobs. split; [reflexivity|]. split.
  - now apply jobs_of_stage_sound.
  - intros N k j I J S.
    now apply (proj2 (jobs_of_stage_complete stage _ [] jobs Jobs N) k j).
Qed.

Lemma matrix_groups_by_stage_witness :
  exists stages image sts groups,
    dict_get (KStr "stages") (_cidict (Doc.parsed Doc.two_jobs)) = Some stages
    /\ dict_get (KStr "image") (_cidict (Doc.parsed Doc.two_jobs)) = Some image
    /\ iter stages = Ok sts
    /\ fst (Doc.numbered Doc.two_jobs)
       = VDict [(KStr "jobs", VList groups); (KStr "stages", stages);
                (KStr "image", image)]
    /\ Forall2 (Spec.stage_group (_cidict (Doc.parsed Doc.two_jobs))) sts groups.
Proof.
  apply (matrix_groups_by_stage (Doc.parsed Doc.two_jobs) (fst (Doc.numbered Doc.two_jobs))).
  vm_compute. reflexivity.
Defined.

(* ================================================================== *)
(** ** Further properties: the copy of [get_cidict]                    *)
(* ================================================================== *)

(** X25.  [get_cidict] on a store without dangling references returns
    an object of a part of the store that is new and closed, and leaves
    the objects that were there untouched; so whatever is done
    afterwards to objects of the new part (the only ones a caller can
    reach from the copy), the internal pipeline reads as before. *)
Theorem get_cidict_copy_is_apart (h h1 : Store.heap) (cidict copy : Store.ref) :
  Store.heap_closed h ->
  Store.ref_below (List.length h) cidict ->
  Store.get_cidict h cidict = Some (copy, h1) ->
  Store.ref_from (List.length h) copy
  /\ Store.region_closed (List.length h) h1
  /\ Store.same_below (List.length h) h h1
  /\ forall h2, Store.same_below (List.length h) h1 h2 ->
       forall depth, Store.load depth h2 cidict = Store.load depth h cidict.
Proof. apply get_cidict_shares_nothing. Qed.

Lemma get_cidict_copy_is_apart_witness :
  Store.ref_from (List.length (fst Doc.internal)) (fst Doc.internal_copy)
  /\ Store.region_closed (List.length (fst Doc.internal)) (snd Doc.internal_copy)
  /\ Store.same_below (List.length (fst Doc.internal)) (fst Doc.internal)
                      (snd Doc.internal_copy)
  /\ forall h2,
       Store.same_below (List.length (fst Doc.internal)) (snd Doc.internal_copy) h2 ->
       forall depth,
         Store.load depth h2 (snd Doc.internal)
         = Store.load depth (fst Doc.internal) (snd Doc.internal).
Proof.
  apply (get_cidict_copy_is_apart (fst Doc.internal) (snd Doc.internal_copy)
           (snd Doc.internal) (fst Doc.internal_copy)).
  - apply heap_closedb_closed. vm_compute. reflexivity.
  - vm_compute. lia.
  - vm_compute. reflexivity.
Defined.

(* ================================================================== *)
(** ** Further properties: what normalisation leaves alone             *)
(* ================================================================== *)

(** X26.  [_job_combine_variables] settles at once: run a second time
    with nothing to inject, on the pipeline the first run left, it
    changes nothing. *)
Theorem combine_variables_twice (self : CiFile) :
  _job_combine_variables (_job_combine_variables self []) []
  = _job_combine_variables self [].
Proof. apply combine_idempotent. Qed.

Lemma setitem_other (job : value) (name other : string) (v job' : value) :
  setitem job other v = Ok job' -> name <> other ->
  dict_get (KStr name) (dict_items job') = dict_get (KStr name) (dict_items job).
Proof.
  intros H N. apply setitem_ok in H. destruct H as (items & -> & ->).
  cbn [dict_items]. apply dict_get_set_other. congruence.
Qed.

Lemma various_tweaks_job_other (job job' : value) (name : string) :
  various_tweaks_job job = Ok job' -> name <> "tags" -> name <> "dependencies" ->
  dict_get (KStr name) (dict_items job') = dict_get (KStr name) (dict_items job).
Proof.
  unfold various_tweaks_job. intros H N1 N2. inv_bind H.
  rewrite (setitem_other _ _ _ _ _ H N2). now apply (setitem_other _ _ _ _ _ E1).
Qed.

Lemma script_always_list_job_other (job job' : value) (name : string) :
  script_always_list_job job = Ok job' -> name <> "script" ->
  dict_get (KStr name) (dict_items job') = dict_get (KStr name) (dict_items job).
Proof.
  unfold script_always_list_job. intros H N. inv_bind H.
  assert (dict_get (KStr name) (dict_items x0) = dict_get (KStr name) (dict_items job))
    as <-.
  { revert E0. destruct (negb x); intro E0; [|now injection E0 as <-].
    now apply (setitem_other _ _ _ _ _ E0). }
  revert H. destruct (truthy (extract_str_list x1 (VList []))); intro H.
  - now apply (setitem_other _ _ _ _ _ H).
  - now injection H as <-.
Qed.

Lemma streamline_only_job_other (job job' : value) (name : string) :
  streamline_only_job job = Ok job' -> name <> "only" ->
  dict_get (KStr name) (dict_items job') = dict_get (KStr name) (dict_items job).
Proof.
  unfold streamline_only_job. intros H N. inv_bind H.
  rewrite (setitem_other _ _ _ _ _ H N).
  revert E0. destruct (negb x); intro E0; [|now injection E0 as <-].
  now apply (setitem_other _ _ _ _ _ E0).
Qed.

Lemma streamline_artifacts_job_other (dn de job job' : value) (name : string) :
  streamline_artifacts_job dn de job = Ok job' -> name <> "artifacts" ->
  dict_get (KStr name) (dict_items job') = dict_get (KStr name) (dict_items job).
Proof.
  unfold streamline_artifacts_job. intros H N.
  apply bind_ok in H. destruct H as ([[n e] p] & _ & H).
  now apply (setitem_other _ _ _ _ _ H).
Qed.

Lemma combine_entry_other (pvars : dict value) (forced : value) (inj : dict value)
    (k : key) (job : value) (name : string) :
  name <> "variables" ->
  dict_get (KStr name) (dict_items (snd (combine_entry pvars forced inj (k, job))))
  = dict_get (KStr name) (dict_items job).
Proof.
  intro N. cbn [combine_entry]. destruct (is_jobname k && is_dict job); [|reflexivity].
  cbn [snd dict_items]. apply dict_get_set_other. intros [= E]. apply N. now rewrite <- E.
Qed.

Lemma assign_stage_other (stages : value) (k k' : key) (v v' : value) (name : string) :
  assign_stage stages (k, v) = Ok (k', v') -> name <> "stage" ->
  k' = k /\ is_dict v' = is_dict v
  /\ dict_get (KStr name) (dict_items v') = dict_get (KStr name) (dict_items v).
Proof.
  unfold assign_stage. destruct (is_jobname k && is_dict v) eqn:C.
  - intros H N. inv_bind H. injection H as <- <-.
    rewrite (setitem_other _ _ _ _ _ E2 N).
    apply setitem_ok in E2. destruct E2 as (items & -> & ->). now repeat split.
  - intros [= <- <-] _. now repeat split.
Qed.







Lemma mapM_keys (f : key * value -> result (key * value)) (d d' : dict value) :
  (forall e e', f e = Ok e' -> fst e' = fst e) ->
  mapM f d = Ok d' -> dict_keys d' = dict_keys d.
Proof.
  intro K. revert d'. induction d as [|e d IH]; intros d'; simpl.
  - now intros [= <-].
  - intro H. inv_bind H. injection H as <-. simpl. now rewrite (K _ _ E), (IH _ E0).
Qed.

Lemma keys_set (k k0 : key) (v : value) (d : dict value) :
  In k (dict_keys d) -> In k (dict_keys (dict_set k0 v d)).
Proof.
  intro I. destruct (dict_get k0 d) eqn:G.
  - rewrite dict_keys_set_present; [assumption|congruence].
  - rewrite dict_keys_set_fresh by assumption. apply in_or_app. now left.
Qed.

Lemma keys_del (k r : key) (d : dict value) :
  k <> r -> In k (dict_keys d) -> In k (dict_keys (dict_del r d)).
Proof.
  intros N I. unfold dict_keys in *. apply in_map_iff in I.
  destruct I as ([k' v] & <- & I). apply in_map_iff. exists (k', v).
  split; [reflexivity|]. apply filter_In. split; [assumption|].
  apply negb_true_iff, key_eqb_neq. simpl in *. congruence.
Qed.

Lemma for_each_job_keys (body : key -> value -> result value) (d d' : dict value) :
  for_each_job body d = Ok d' -> dict_keys d' = dict_keys d.
Proof.
  unfold for_each_job. intro M. refine (mapM_keys _ _ _ _ M).
  intros [k v] [k' v'] F. now apply for_each_job_key in F.
Qed.

Lemma scan_apply_stages_keys (self self' : CiFile) (k : key) :
  _job_scan_apply_stages self = Ok self' -> is_jobname k = true ->
  In k (dict_keys (_cidict self)) -> In k (dict_keys (_cidict self')).
Proof.
  unfold _job_scan_apply_stages.
  destruct (match dict_get (KStr PIPELINEKEY_STAGES) (_cidict self) with
            | Some s => (s, dict_del (KStr PIPELINEKEY_STAGES) (_cidict self))
            | None => (VList [], _cidict self)
            end) as [stages d] eqn:D.
  intros H J I.
  assert (In k (dict_keys d)) as I0.
  { destruct (dict_get (KStr PIPELINEKEY_STAGES) (_cidict self)); injection D as <- <-;
      [|assumption].
    apply keys_del; [|assumption]. intros ->. discriminate. }
  apply bind_ok in H. destruct H as (stages1 & _ & H).
  apply bind_ok in H. destruct H as (d' & M & H). injection H as <-.
  cbn [_cidict with_cidict]. apply keys_set.
  rewrite (mapM_keys _ _ _ ltac:(intros [a b] [a' b'] A;
                                 now apply assign_stage_field in A) M).
  assumption.
Qed.

Lemma convert_script_key_keys (jobkey newkey : string) (d d' : dict value) (k : key) :
  convert_script_key jobkey newkey d = Ok d' -> k <> KStr jobkey ->
  In k (dict_keys d) -> In k (dict_keys d').
Proof.
  unfold convert_script_key. intros H N I.
  apply bind_ok in H. destruct H as (n & _ & H).
  destruct (0 <? n)%nat; [|now injection H as <-].
  match type of H with
  | match dict_get _ ?d1 with _ => _ end = _ =>
      destruct (dict_get (KStr PIPELINEKEY_STAGES) d1) as [stages|]; [|discriminate]
  end.
  apply bind_ok in H. destruct H as (s1 & _ & H).
  apply bind_ok in H. destruct H as (s2 & _ & H). injection H as <-.
  now apply keys_set, keys_set, keys_del.
Qed.

(** No job is lost on the way through the passes. *)
Lemma parse_cidict_keeps_jobs (self self' : CiFile) (doc : dict value) :
  _parse_cidict self (VDict doc) = Ok self' ->
  forall jobname,
    In (KStr jobname) (dict_keys doc) ->
    startswith jobname "." = false ->
    is_jobname (KStr jobname) = true ->
    In (KStr jobname) (dict_keys (_cidict self')).
Proof.
  unfold _parse_cidict. intro H.
  apply bind_ok in H. destruct H as (s2 & Scan1 & H).
  apply bind_ok in H. destruct H as (s3 & Scan2 & H).
  apply bind_ok in H. destruct H as (s4 & Conv & H).
  apply bind_ok in H. destruct H as (s5 & Tweaks & H).
  apply bind_ok in H. destruct H as (s6 & Script & H).
  apply bind_ok in H. destruct H as (s8 & Only & Arts).
  intros jobname I Dot J.
  unfold _job_streamline_artifacts in Arts. inv_bind Arts. injection Arts as <-.
  cbn [_cidict with_cidict]. rewrite (for_each_job_keys _ _ _ E).
  unfold _job_streamline_only in Only. inv_bind Only. injection Only as <-.
  cbn [_cidict with_cidict]. rewrite (for_each_job_keys _ _ _ E0).
  unfold _job_combine_variables. cbn [_cidict with_cidict].
  apply keys_del; [intros [= ->]; discriminate|].
  unfold dict_keys at 1. rewrite map_map.
  rewrite (map_ext _ fst) by (intro e; apply combine_entry_key).
  apply keys_set.
  unfold _job_script_always_list in Script. inv_bind Script. injection Script as <-.
  cbn [_cidict with_cidict]. rewrite (for_each_job_keys _ _ _ E1).
  unfold _job_various_tweaks in Tweaks. inv_bind Tweaks. injection Tweaks as <-.
  cbn [_cidict with_cidict]. rewrite (for_each_job_keys _ _ _ E2).
  unfold _job_convert_before_after_script in Conv.
  apply bind_ok in Conv. destruct Conv as (d1 & Before & Conv).
  apply bind_ok in Conv. destruct Conv as (d2 & After & Conv).
  injection Conv as <-. cbn [_cidict with_cidict].
  apply (convert_script_key_keys _ _ _ _ _ After); [intros [= ->]; discriminate|].
  apply (convert_script_key_keys _ _ _ _ _ Before); [intros [= ->]; discriminate|].
  apply (scan_apply_stages_keys _ _ _ Scan2 J).
  unfold _job_convert_list_to_script. cbn [_cidict with_cidict].
  unfold dict_keys at 1. rewrite map_map.
  match goal with
  | |- In _ (map ?F _) => rewrite (map_ext F fst)
  end.
  2:{ intros [k v]. destruct (is_jobname k && is_list v); [|reflexivity].
      now destruct (truthy (extract_str_list v VNone)). }
  apply (scan_apply_stages_keys _ _ _ Scan1 J).
  unfold _pipeline_various_tweaks. cbn [_cidict with_cidict].
  apply keys_set. unfold dict_keys in *. apply in_map_iff in I.
  destruct I as ([k v] & K & I). simpl in K. subst k.
  apply in_map_iff. exists (KStr jobname, v). split; [reflexivity|].
  apply filter_In. split; [assumption|]. now rewrite Dot.
Qed.

(** X28.  Normalisation loses no job: every key of the document that
    is a string, does not begin with a dot and is not one of the
    reserved pipeline keys is a key of the normalised pipeline. *)
Theorem normalisation_keeps_jobs (self self' : CiFile) (doc : dict value) :
  _parse_cidict self (VDict doc) = Ok self' ->
  forall jobname,
    In (KStr jobname) (dict_keys doc) ->
    startswith jobname "." = false ->
    is_jobname (KStr jobname) = true ->
    In (KStr jobname) (dict_keys (_cidict self')).
Proof. apply parse_cidict_keeps_jobs. Qed.

Lemma normalisation_keeps_jobs_witness :
  In (KStr "b") (dict_keys (_cidict (Doc.parsed Doc.two_jobs))).
Proof.
  apply (normalisation_keeps_jobs (init VNone) (Doc.parsed Doc.two_jobs)
           (dict_items Doc.two_jobs)).
  - vm_compute. reflexivity.
  - vm_compute. tauto.
  - reflexivity.
  - reflexivity.
Defined.

(** X15.  What [read_cifile] can do to a [CiFile]: it never touches the
    defaults, the forced variables or the id generator; an empty
    document leaves the pipeline as it was, without an image or stages
    being filled in; any other document that is accepted is a mapping
    with an entry, and the pipeline is then that document normalised:
    what [_parse_cidict] makes of it, with an image and stages, with
    every job of the document that is no template still there, and with
    every job a complete record. *)
Theorem read_cifile_outcome (self self' : CiFile) (dictionary : value) :
  read_cifile self dictionary = Ok self' ->
  Spec.settings self' = Spec.settings self
  /\ ((truthy dictionary = false /\ self' = self)
      \/ (exists doc,
            dictionary = VDict doc
            /\ doc <> []
            /\ _parse_cidict self (VDict doc) = Ok self'
            /\ Spec.pipeline_shaped (_cidict self')
            /\ (forall jobname,
                  In (KStr jobname) (dict_keys doc) ->
                  startswith jobname "." = false ->
                  is_jobname (KStr jobname) = true ->
                  In (KStr jobname) (dict_keys (_cidict self')))
            /\ (forall k j, In (k, j) (_cidict self') -> is_jobname k = true ->
                  Spec.populated j))).
Proof.
  unfold read_cifile. destruct (truthy dictionary) eqn:T.
  - intro H. split; [now apply parse_cidict_settings in H|]. right.
    destruct dictionary as [| | | | | |doc]; try discriminate.
    exists doc. split; [reflexivity|].
    split; [intros ->; discriminate|].
    split; [assumption|].
    split; [now apply normalised_pipeline_shaped_of in H|].
    split; [now apply parse_cidict_keeps_jobs with self|].
    now apply normalised_jobs_populated with self (VDict doc).
  - intros [= <-]. split; [reflexivity|now left].
Qed.

Lemma read_cifile_outcome_witness :
  Spec.settings (Doc.parsed Doc.two_jobs) = Spec.settings (init VNone)
  /\ ((truthy Doc.two_jobs = false /\ Doc.parsed Doc.two_jobs = init VNone)
      \/ (exists doc,
            Doc.two_jobs = VDict doc
            /\ doc <> []
            /\ _parse_cidict (init VNone) (VDict doc) = Ok (Doc.parsed Doc.two_jobs)
            /\ Spec.pipeline_shaped (_cidict (Doc.parsed Doc.two_jobs))
            /\ (forall jobname,
                  In (KStr jobname) (dict_keys doc) ->
                  startswith jobname "." = false ->
                  is_jobname (KStr jobname) = true ->
                  In (KStr jobname) (dict_keys (_cidict (Doc.parsed Doc.two_jobs))))
            /\ (forall k j, In (k, j) (_cidict (Doc.parsed Doc.two_jobs)) ->
                  is_jobname k = true -> Spec.populated j))).
Proof.
  apply (read_cifile_outcome (init VNone) (Doc.parsed Doc.two_jobs) Doc.two_jobs).
  vm_compute. reflexivity.
Defined.

(* ================================================================== *)
(** ** Further properties: the stages of the jobs                      *)
(* ================================================================== *)

Lemma extract_str_is_str (x : value) (d : string) :
  exists t, extract_str x (VStr d) = VStr t.
Proof.
  unfold extract_str. destruct (py_str x) as [t|]; [now exists t|].
  destruct x as [| | | | |xs|]; try (now exists d).
  destruct (filter is_str xs) as [|y rest] eqn:F; [now exists d|].
  assert (In y (filter is_str xs)) as I by (rewrite F; now left).
  apply filter_In in I. destruct I as [_ I].
  destruct y as [| | | |t| |]; try discriminate. now exists t.
Qed.

(** What [extract_str] returns depends on the default only where it is
    the default. *)
Lemma extract_str_default (x d1 d2 : value) :
  extract_str x d1 = extract_str x d2
  \/ (extract_str x d1 = d1 /\ extract_str x d2 = d2).
Proof.
  unfold extract_str. destruct (py_str x); [now left|].
  destruct x as [| | | | |xs|]; try (now right).
  destruct (filter is_str xs); [now right|now left].
Qed.

Lemma value_is_str_in (s : string) (l : list value) :
  existsb (value_is_str s) l = true -> In (VStr s) l.
Proof.
  intro H. apply existsb_exists in H. destruct H as (x & I & E).
  destruct x as [| | | |t| |]; try discriminate.
  apply String.eqb_eq in E. now subst t.
Qed.

Lemma scan_stage_keeps (st st' : value) (e : key * value) (s : string) :
  scan_stage st e = Ok st' -> str_in s st = Ok true -> str_in s st' = Ok true.
Proof.
  destruct e as [k v]. unfold scan_stage.
  destruct (is_jobname k && is_dict v); [|now intros [= <-]].
  intro H. apply bind_ok in H. destruct H as (has & _ & H).
  destruct has; [|now injection H as <-].
  apply bind_ok in H. destruct H as (x & _ & H).
  destruct (extract_str x (VStr "")) as [| | | |stage| |]; try (now injection H as <-).
  destruct (negb (String.eqb stage "")); [|now injection H as <-].
  apply bind_ok in H. destruct H as (listed & _ & H).
  destruct (negb listed); [|now injection H as <-].
  destruct st as [| | | | |l0|]; try discriminate. injection H as <-.
  cbn [str_in]. intros [= L]. now rewrite existsb_app, L.
Qed.

Lemma scan_stage_lists (st st' : value) (k : key) (v x : value) (s : string) :
  scan_stage st (k, v) = Ok st' ->
  is_jobname k && is_dict v = true ->
  dict_get (KStr "stage") (dict_items v) = Some x ->
  extract_str x (VStr "") = VStr s -> s <> EmptyString ->
  str_in s st' = Ok true.
Proof.
  unfold scan_stage. intros H C G E N. rewrite C in H.
  apply andb_true_iff in C. destruct C as [_ D].
  destruct v as [| | | | | |items]; try discriminate.
  cbn [str_in getitem bind dict_items] in *.
  unfold dict_mem in H. change (KStr JOBKEY_STAGE) with (KStr "stage") in H.
  rewrite G in H. cbn [bind] in H. rewrite E in H.
  apply String.eqb_neq in N. rewrite N in H. cbn [negb] in H.
  apply bind_ok in H. destruct H as (listed & L & H).
  destruct listed; cbn [negb] in H; [now injection H as <-|].
  destruct st as [| | | | |l0|]; try discriminate. injection H as <-.
  cbn [str_in]. rewrite existsb_app. cbn [existsb value_is_str].
  now rewrite String.eqb_refl, orb_true_r.
Qed.

Lemma scan_stage_fold (d : dict value) :
  forall st0 st1,
    foldM scan_stage d st0 = Ok st1 ->
    (forall s, str_in s st0 = Ok true -> str_in s st1 = Ok true)
    /\ forall k v, In (k, v) d -> is_jobname k && is_dict v = true ->
       forall x s, dict_get (KStr "stage") (dict_items v) = Some x ->
                   extract_str x (VStr "") = VStr s -> s <> EmptyString ->
                   str_in s st1 = Ok true.
Proof.
  induction d as [|[k v] d IH]; intros st0 st1 H.
  - injection H as ->. split; [auto|intros k v []].
  - cbn [foldM] in H. apply bind_ok in H. destruct H as (st & Step & H).
    destruct (IH _ _ H) as (Keeps & Rest). split.
    + intros s L. apply Keeps. now apply (scan_stage_keeps _ _ _ _ Step).
    + intros k' v' [[= <- <-]|I] C x s G E N.
      * apply Keeps. now apply (scan_stage_lists _ _ _ _ _ _ Step C G E).
      * now apply (Rest k' v' I C x s).
Qed.

(** After one stage scan every job that is a mapping has a stage that
    is the empty string or one of the stages, where the stages are a
    list that begins with a string. *)
Lemma scan_apply_stages_staged (self self' : CiFile) (f : string) (rest : list value) :
  _job_scan_apply_stages self = Ok self' ->
  dict_get (KStr "stages") (_cidict self') = Some (VList (VStr f :: rest)) ->
  forall k j, In (k, j) (_cidict self') -> is_jobname k = true -> is_dict j = true ->
  Spec.staged (VStr f :: rest) j.
Proof.
  unfold _job_scan_apply_stages.
  destruct (match dict_get (KStr PIPELINEKEY_STAGES) (_cidict self) with
            | Some s => (s, dict_del (KStr PIPELINEKEY_STAGES) (_cidict self))
            | None => (VList [], _cidict self)
            end) as [stages d].
  intro H. apply bind_ok in H. destruct H as (stages1 & Scan & H).
  apply bind_ok in H. destruct H as (d' & M & H). injection H as <-.
  cbn [_cidict with_cidict]. change (KStr PIPELINEKEY_STAGES) with (KStr "stages").
  rewrite dict_get_set_same. intros [= St] k j' I J D.
  apply in_dict_set in I. destruct I as [[-> _]|I]; [discriminate|].
  destruct (mapM_in _ _ _ M _ I) as ([k0 j] & I0 & A).
  rewrite St in A.
  pose proof (assign_stage_other _ _ _ _ _ "tags" A ltac:(discriminate)) as (Ek & Dj & _).
  subst k0. unfold assign_stage in A. rewrite J, <- Dj, D in A. cbn [andb] in A.
  apply bind_ok in A. destruct A as (has & Has & A).
  apply bind_ok in A. destruct A as (first & First & A).
  apply bind_ok in A. destruct A as (obj & Obj & A).
  apply bind_ok in A. destruct A as (v' & Put & A). injection A as <-.
  cbn [getitem0] in First. injection First as <-.
  apply setitem_ok in Put. destruct Put as (items & -> & ->).
  cbn [str_in] in Has. injection Has as <-. unfold dict_mem in Obj.
  cbn [getitem] in Obj. change (KStr JOBKEY_STAGE) with (KStr "stage") in *.
  destruct (extract_str_is_str obj f) as (s & E). rewrite E.
  exists s. cbn [dict_items]. split; [apply dict_get_set_same|].
  destruct (dict_get (KStr "stage") items) as [x|] eqn:G; injection Obj as <-.
  2:{ right. cbn in E. injection E as <-. now left. }
  destruct (extract_str_default x (VStr f) (VStr "")) as [Same|[Dflt _]].
  - destruct (String.eqb s "") eqn:S0; [left; now apply String.eqb_eq|right].
    apply String.eqb_neq in S0. rewrite E in Same. symmetry in Same.
    destruct (scan_stage_fold _ _ _ Scan) as (_ & Found).
    specialize (Found k (VDict items) I0 ltac:(now rewrite J) x s G Same S0).
    destruct (truthy stages1) eqn:T.
    + subst stages1. cbn [str_in] in Found. injection Found as Found.
      now apply value_is_str_in.
    + exfalso. destruct stages1 as [| |z| |t|l1|d1]; cbn in Found, T; try discriminate.
      * apply negb_false_iff, String.eqb_eq in T. subst t.
        destruct s; [contradiction|discriminate].
      * destruct l1; discriminate.
      * destruct d1; discriminate.
  - right. rewrite Dflt in E. injection E as <-. now left.
Qed.

Lemma staged_incl (l l' : list value) (j : value) :
  incl l l' -> Spec.staged l j -> Spec.staged l' j.
Proof.
  intros Incl (s & G & [E|I]); exists s; (split; [assumption|]); [now left|right; auto].
Qed.

(** One round of the conversion: the stages only grow, and a job that
    is new has the stage that was added. *)
Lemma convert_script_key_staged (jobkey newkey : string) (d d' : dict value) (st : value) :
  jobkey = PIPELINEKEY_BEFORE_SCRIPT \/ jobkey = PIPELINEKEY_AFTER_SCRIPT ->
  newkey <> "stages" ->
  convert_script_key jobkey newkey d = Ok d' ->
  dict_get (KStr "stages") d = Some st ->
  exists st',
    dict_get (KStr "stages") d' = Some st'
    /\ (forall l', st' = VList l' -> exists l0, st = VList l0 /\ incl l0 l')
    /\ forall k j, In (k, j) d' -> is_jobname k = true ->
       In (k, j) d \/ forall l', st' = VList l' -> Spec.staged l' j.
Proof.
  intros Which New. unfold convert_script_key. intros H St.
  apply bind_ok in H. destruct H as (n & _ & H).
  destruct (0 <? n)%nat.
  2:{ injection H as <-. exists st. split; [assumption|]. split; [|now left].
      intros l' ->. exists l'. split; [reflexivity|apply incl_refl]. }
  change (KStr PIPELINEKEY_STAGES) with (KStr "stages") in H.
  rewrite dict_get_set_other in H by congruence.
  rewrite dict_get_del_other in H by (destruct Which; subst jobkey; discriminate).
  rewrite St in H.
  apply bind_ok in H. destruct H as (s1 & E1 & H).
  apply bind_ok in H. destruct H as (s2 & E2 & H). injection H as <-.
  exists s2. split; [apply dict_get_set_same|].
  assert (exists l0, st = VList l0
            /\ ((jobkey = PIPELINEKEY_BEFORE_SCRIPT /\ s2 = VList (VStr jobkey :: l0))
                \/ (jobkey = PIPELINEKEY_AFTER_SCRIPT /\ s2 = VList (l0 ++ [VStr jobkey]))))
    as (l0 & -> & Grown).
  { destruct Which as [-> | ->]; cbn in E1, E2.
    - injection E2 as <-. destruct st as [| | | | |l0|]; try discriminate.
      injection E1 as <-. exists l0. split; [reflexivity|now left].
    - injection E1 as <-. destruct st as [| | | | |l0|]; try discriminate.
      injection E2 as <-. exists l0. split; [reflexivity|now right]. }
  split.
  - intros l' ->. exists l0. split; [reflexivity|].
    destruct Grown as [[_ [= ->]]|[_ [= ->]]]; intros y I;
      [now right|apply in_or_app; now left].
  - intros k j I J.
    apply in_dict_set in I. destruct I as [[-> _]|I]; [discriminate|].
    apply in_dict_set in I. destruct I as [[_ ->]|I].
    + right. intros l' ->. exists jobkey. split; [reflexivity|]. right.
      destruct Grown as [[_ [= ->]]|[_ [= ->]]];
        [now left|apply in_or_app; right; now left].
    + left. unfold dict_del in I. now apply filter_In in I.
Qed.

Lemma convert_before_after_script_staged (self self' : CiFile) (st : value) :
  _job_convert_before_after_script self = Ok self' ->
  dict_get (KStr "stages") (_cidict self) = Some st ->
  exists st',
    dict_get (KStr "stages") (_cidict self') = Some st'
    /\ (forall l', st' = VList l' -> exists l0, st = VList l0 /\ incl l0 l')
    /\ forall k j, In (k, j) (_cidict self') -> is_jobname k = true ->
       In (k, j) (_cidict self) \/ forall l', st' = VList l' -> Spec.staged l' j.
Proof.
  unfold _job_convert_before_after_script. intros H St.
  apply bind_ok in H. destruct H as (d1 & Before & H).
  apply bind_ok in H. destruct H as (d2 & After & H). injection H as <-.
  cbn [_cidict with_cidict].
  destruct (convert_script_key_staged PIPELINEKEY_BEFORE_SCRIPT "before:script" _ _ _
              (or_introl eq_refl) ltac:(discriminate) Before St)
    as (st1 & St1 & Grow1 & Jobs1).
  destruct (convert_script_key_staged PIPELINEKEY_AFTER_SCRIPT "after:script" _ _ _
              (or_intror eq_refl) ltac:(discriminate) After St1)
    as (st2 & St2 & Grow2 & Jobs2).
  exists st2. split; [assumption|]. split.
  - intros l' E. destruct (Grow2 l' E) as (l1 & E1 & Incl1).
    destruct (Grow1 l1 E1) as (l0 & E0 & Incl0).
    exists l0. split; [assumption|now apply incl_tran with l1].
  - intros k j I J. destruct (Jobs2 k j I J) as [I1|S]; [|now right].
    destruct (Jobs1 k j I1 J) as [I0|S]; [now left|right].
    intros l' E. destruct (Grow2 l' E) as (l1 & E1 & Incl1).
    now apply (staged_incl l1), S.
Qed.

(** X29.  After a normalisation that leaves the stages as a list of
    strings, every job has a stage that is a string: the empty string,
    or one of the stages of the pipeline. *)
Theorem normalised_jobs_staged (self self' : CiFile) (cidict : value) (l : list value) :
  _parse_cidict self cidict = Ok self' ->
  dict_get (KStr "stages") (_cidict self') = Some (VList l) ->
  Forall (fun stage => is_str stage = true) l ->
  forall k j, In (k, j) (_cidict self') -> is_jobname k = true -> Spec.staged l j.
Proof.
  destruct cidict as [| | | | | |d]; try discriminate. unfold _parse_cidict.
  intros H Stages Strs.
  apply bind_ok in H. destruct H as (s2 & _ & H).
  apply bind_ok in H. destruct H as (s3 & Scan & H).
  apply bind_ok in H. destruct H as (s4 & Conv & H).
  apply bind_ok in H. destruct H as (s5 & Tweaks & H).
  apply bind_ok in H. destruct H as (s6 & Script & H).
  apply bind_ok in H. destruct H as (s8 & Only & Arts).
  intros k j9 I9 J.
  destruct (streamline_artifacts_in _ _ Arts k j9 I9 J) as (j8 & I8 & B9).
  destruct (streamline_only_in _ _ Only k j8 I8 J) as (j7 & I7 & B8).
  destruct (combine_variables_in _ _ _ _ I7) as (j6 & I6 & B7).
  destruct (script_always_list_in _ _ Script k j6 I6 J) as (j5 & I5 & B6).
  destruct (various_tweaks_in _ _ Tweaks k j5 I5 J) as (j4 & I4 & B5).
  (* the stage of the job is the one it had after the conversion *)
  assert (dict_get (KStr "stage") (dict_items j9) = dict_get (KStr "stage") (dict_items j4))
    as Stage.
  { rewrite (streamline_artifacts_job_other _ _ _ _ "stage" B9) by discriminate.
    rewrite (streamline_only_job_other _ _ "stage" B8) by discriminate.
    subst j7. rewrite combine_entry_other by discriminate.
    rewrite (script_always_list_job_other _ _ "stage" B6) by discriminate.
    now rewrite (various_tweaks_job_other _ _ "stage" B5) by discriminate. }
  assert (is_dict j4 = true) as D4.
  { apply various_tweaks_job_fields in B5. now destruct B5 as (_ & _ & items & -> & _). }
  (* the stages are those the conversion left *)
  assert (dict_get (KStr "stages") (_cidict s4) = Some (VList l)) as St4.
  { rewrite <- Stages.
    unfold _job_streamline_artifacts in Arts. inv_bind Arts. injection Arts as <-.
    apply for_each_job_frame in E. destruct E as (_ & G10).
    unfold _job_streamline_only in Only. inv_bind Only. injection Only as <-.
    apply for_each_job_frame in E. destruct E as (_ & G9).
    unfold _job_script_always_list in Script. inv_bind Script. injection Script as <-.
    apply for_each_job_frame in E. destruct E as (_ & G7).
    unfold _job_various_tweaks in Tweaks. inv_bind Tweaks. injection Tweaks as <-.
    apply for_each_job_frame in E. destruct E as (_ & G6).
    cbn [_cidict with_cidict] in *.
    rewrite G10, G9 by reflexivity.
    rewrite (proj2 (combine_variables_frame _ [])) by (reflexivity || discriminate).
    cbn [_cidict with_cidict]. now rewrite G7, G6 by reflexivity. }
  destruct (scan_apply_stages_frame _ _ Scan) as (_ & (st3 & St3 & T3) & _).
  destruct (convert_before_after_script_staged _ _ _ Conv St3)
    as (st4 & St4' & Grow & Jobs).
  rewrite St4 in St4'. injection St4' as <-.
  destruct (Grow l eq_refl) as (l3 & -> & Incl).
  destruct (Jobs k j4 I4 J) as [I3|S].
  2:{ destruct (S l eq_refl) as (s & G & In_l). exists s. now rewrite Stage. }
  destruct l3 as [|first rest]; [discriminate|].
  assert (exists f, first = VStr f) as (f & ->).
  { assert (In first l) as I by (apply Incl; now left).
    rewrite Forall_forall in Strs. apply Strs in I.
    destruct first; try discriminate. eauto. }
  destruct (scan_apply_stages_staged _ _ f rest Scan St3 k j4 I3 J D4) as (s & G & In_l).
  exists s. rewrite Stage. split; [assumption|].
  destruct In_l as [E|I]; [now left|right; now apply Incl].
Qed.

Lemma normalised_jobs_staged_witness :
  Spec.staged [VStr "test"] (Doc.the_job (Doc.parsed Doc.two_jobs) "a").
Proof.
  apply (normalised_jobs_staged (init VNone) (Doc.parsed Doc.two_jobs) Doc.two_jobs
           [VStr "test"] ltac:(vm_compute; reflexivity) ltac:(vm_compute; reflexivity)
           ltac:(repeat constructor) (KStr "a")).
  - vm_compute. auto.
  - reflexivity.
Defined.

(* ================================================================== *)
(** ** Further properties: the copy of [get_cidict] reads the same     *)
(* ================================================================== *)

Section CopySame.
Import Store.

Lemma nth_error_update_same (h : heap) (l : loc) (o : obj) :
  l < List.length h -> nth_error (update h l o) l = Some o.
Proof.
  revert l. induction h as [|x h IH]; intros [|l] L; simpl in *; try lia; [reflexivity|].
  apply IH. lia.
Qed.

Lemma memo_get_cons (a l l' : loc) (memo : list (loc * loc)) :
  memo_get a ((l, l') :: memo) = if Nat.eqb a l then Some l' else memo_get a memo.
Proof. unfold memo_get. simpl. now destruct (Nat.eqb a l). Qed.

Lemma memo_ext_refl (memo : list (loc * loc)) : memo_ext memo memo.
Proof. now intros a b. Qed.

Lemma memo_ext_trans (m1 m2 m3 : list (loc * loc)) :
  memo_ext m1 m2 -> memo_ext m2 m3 -> memo_ext m1 m3.
Proof. intros A B a b G. now apply B, A. Qed.

Lemma memo_ext_cons (l l' : loc) (memo : list (loc * loc)) :
  memo_get l memo = None -> memo_ext memo ((l, l') :: memo).
Proof.
  intros N a b G. rewrite memo_get_cons. destruct (Nat.eqb a l) eqn:E; [|assumption].
  apply Nat.eqb_eq in E. congruence.
Qed.

Lemma map_ref_ext (m1 m2 : list (loc * loc)) (r : ref) :
  memo_ext m1 m2 -> covered m1 r -> map_ref m2 r = map_ref m1 r /\ covered m2 r.
Proof.
  intros X C. destruct r; simpl in *; try (now split).
  destruct (memo_get l m1) as [b|] eqn:G; [|contradiction].
  rewrite (X _ _ G). split; [reflexivity|discriminate].
Qed.

Lemma map_obj_ext (m1 m2 : list (loc * loc)) (o : obj) :
  memo_ext m1 m2 -> Forall (covered m1) (slots o) ->
  map_obj m2 o = map_obj m1 o /\ Forall (covered m2) (slots o).
Proof.
  intros X C. rewrite Forall_forall in C. destruct o as [rs|es]; simpl in *.
  - split.
    + f_equal. apply map_ext_in. intros r I. now apply map_ref_ext, C.
    + apply Forall_forall. intros r I. now apply (map_ref_ext m1), C.
  - split.
    + f_equal. apply map_ext_in. intros e I. f_equal.
      apply map_ref_ext; [assumption|]. apply C. now apply in_map.
    + apply Forall_forall. intros r I. now apply (map_ref_ext m1), C.
Qed.

Variable h0 : heap.

Lemma copied_ext (m1 m2 : list (loc * loc)) (h1 h2 : heap) (a b : loc) :
  memo_ext m1 m2 -> nth_error h2 b = nth_error h1 b ->
  copied h0 m1 h1 a b -> copied h0 m2 h2 a b.
Proof.
  intros X Same (o & A & B & C). exists o.
  destruct (map_obj_ext m1 m2 o X C) as (-> & C2). rewrite Same. now repeat split.
Qed.

Lemma copy_step_refl (memo : list (loc * loc)) (h : heap) : copy_step h0 memo h memo h.
Proof.
  split; [apply memo_ext_refl|]. split; [lia|]. split; [now intros l L|].
  intros a b G N. congruence.
Qed.

Lemma copy_step_trans (m m1 m2 : list (loc * loc)) (h h1 h2 : heap) :
  copy_step h0 m h m1 h1 -> copy_step h0 m1 h1 m2 h2 -> copy_step h0 m h m2 h2.
Proof.
  intros (X1 & L1 & S1 & N1) (X2 & L2 & S2 & N2).
  split; [now apply memo_ext_trans with m1|]. split; [lia|]. split.
  - intros l L. rewrite S2 by lia. now apply S1.
  - intros a b G N. destruct (memo_get a m1) as [b1|] eqn:G1.
    + pose proof (X2 _ _ G1) as G2. assert (b = b1) as -> by congruence.
      destruct (N1 a b1 G1 N) as (B & C). split; [lia|].
      apply (copied_ext m1 m2 h1 h2); [assumption| |assumption].
      apply S2. lia.
    + destruct (N2 a b G G1) as (B & C). split; [lia|assumption].
Qed.

Lemma copy_each_same {A : Type} copy (slot : A -> ref) (put : A -> ref -> A) :
  copies_same h0 copy ->
  forall xs memo h xs' memo' h',
    copy_each copy slot put xs memo h = Some (xs', memo', h') ->
    Forall (ref_below (List.length h0)) (map slot xs) ->
    List.length h0 <= List.length h ->
    same_below (List.length h0) h0 h ->
    copy_step h0 memo h memo' h'
    /\ xs' = map (fun x => put x (map_ref memo' (slot x))) xs
    /\ Forall (covered memo') (map slot xs).
Proof.
  intro C. induction xs as [|x xs IH]; intros memo h xs' memo' h'; simpl.
  - intros [= <- <- <-] _ _ _. split; [apply copy_step_refl|now split].
  - destruct (copy (slot x) memo h) as [[[r1 memo1] h1]|] eqn:E; [|discriminate].
    destruct (copy_each copy slot put xs memo1 h1) as [[[xs2 memo2] h2]|] eqn:E2;
      [|discriminate].
    intros [= <- <- <-] Below L S.
    inversion Below as [|? ? Bx Bxs]; subst.
    destruct (C _ _ _ _ _ _ E Bx L S) as (Step1 & -> & Cov1).
    pose proof Step1 as (X1 & L1 & S1 & _).
    assert (same_below (List.length h0) h0 h1) as S01.
    { intros l Ll. rewrite S1 by lia. now apply S. }
    destruct (IH _ _ _ _ _ E2 Bxs ltac:(lia) S01) as (Step2 & -> & Cov2).
    pose proof Step2 as (X2 & _).
    destruct (map_ref_ext memo1 memo2 (slot x) X2 Cov1) as (Same & Cov).
    split; [now apply copy_step_trans with memo1 h1|]. split.
    + now rewrite Same.
    + now constructor.
Qed.

Hypothesis Closed : heap_closed h0.

(** The two containers alike: the object of [h0] at [l] is copied
    into the new object at the end of [h]. *)
Lemma container_same (l : loc) (o : obj) (memo memo2 : list (loc * loc)) (h h2 : heap) :
  memo_get l memo = None ->
  nth_error h0 l = Some o ->
  copy_step h0 ((l, List.length h) :: memo) (h ++ [map_obj [] (match o with
                                                                 | OList _ => OList []
                                                                 | ODict _ => ODict []
                                                                 end)]) memo2 h2 ->
  Forall (covered memo2) (slots o) ->
  copy_step h0 memo h memo2 (update h2 (List.length h) (map_obj memo2 o))
  /\ RObj (List.length h) = map_ref memo2 (RObj l)
  /\ covered memo2 (RObj l).
Proof.
  intros N G (X & L & S & New) Cov.
  rewrite length_app in L, S, New. cbn [List.length] in L, S, New.
  assert (memo_get l memo2 = Some (List.length h)) as G2.
  { apply X. rewrite memo_get_cons. now rewrite Nat.eqb_refl. }
  split; [|split; [cbn; now rewrite G2|cbn; congruence]].
  split.
  { apply memo_ext_trans with ((l, List.length h) :: memo);
      [now apply memo_ext_cons|assumption]. }
  rewrite update_length. split; [lia|]. split.
  - intros x Lx. rewrite nth_error_update_other by lia. rewrite S by lia.
    apply nth_error_app1. lia.
  - intros a b Ga Na. destruct (Nat.eq_dec a l) as [->|Ne].
    + assert (b = List.length h) as -> by congruence. split; [lia|].
      exists o. repeat split; try assumption.
      apply nth_error_update_same. lia.
    + assert (memo_get a ((l, List.length h) :: memo) = None) as G1.
      { rewrite memo_get_cons. apply Nat.eqb_neq in Ne. now rewrite Ne. }
      destruct (New a b Ga G1) as (B & C). split; [lia|].
      apply (copied_ext memo2 memo2 h2); [apply memo_ext_refl| |assumption].
      apply nth_error_update_other. lia.
Qed.

(** A deep copy returns the copy of what it is given. *)
Lemma deepcopy_same (depth : nat) : copies_same h0 (deepcopy depth).
Proof.
  induction depth as [|depth IH]; intros r memo h r' memo' h' H Below L S.
  - destruct r; simpl in H;
      try (injection H as <- <- <-; split; [apply copy_step_refl|now split]).
    destruct (memo_get l memo) as [l1|] eqn:G; [|discriminate].
    injection H as <- <- <-. split; [apply copy_step_refl|].
    cbn. rewrite G. split; [reflexivity|discriminate].
  - destruct r; simpl in H;
      try (injection H as <- <- <-; split; [apply copy_step_refl|now split]).
    destruct (memo_get l memo) as [l1|] eqn:G.
    { injection H as <- <- <-. split; [apply copy_step_refl|].
      cbn. rewrite G. split; [reflexivity|discriminate]. }
    simpl in Below. rewrite (S l Below) in H.
    destruct (nth_error h0 l) as [[rs|es]|] eqn:O; [| |discriminate].
    + destruct (copy_each (deepcopy depth) (fun r => r) (fun _ r => r) rs
                  ((l, List.length h) :: memo) (h ++ [OList []]))
        as [[[rs' memo1] h1]|] eqn:E; [|discriminate].
      injection H as <- <- <-.
      assert (same_below (List.length h0) h0 (h ++ [OList []])) as S1.
      { intros x Lx. rewrite nth_error_app1 by lia. now apply S. }
      destruct (copy_each_same _ _ _ IH _ _ _ _ _ _ E) as (Step & -> & Cov);
        [rewrite map_id; exact (Closed l _ O)|rewrite length_app; simpl; lia|exact S1|].
      rewrite map_id in Cov.
      exact (container_same l (OList rs) memo memo1 h h1 G O Step Cov).
    + destruct (copy_each (deepcopy depth) snd (fun e r => (fst e, r)) es
                  ((l, List.length h) :: memo) (h ++ [ODict []]))
        as [[[es' memo1] h1]|] eqn:E; [|discriminate].
      injection H as <- <- <-.
      assert (same_below (List.length h0) h0 (h ++ [ODict []])) as S1.
      { intros x Lx. rewrite nth_error_app1 by lia. now apply S. }
      destruct (copy_each_same _ _ _ IH _ _ _ _ _ _ E) as (Step & -> & Cov);
        [exact (Closed l _ O)|rewrite length_app; simpl; lia|exact S1|].
      exact (container_same l (ODict es) memo memo1 h h1 G O Step Cov).
Qed.

Lemma filter_count_le {A : Type} (f g : A -> bool) (l : list A) :
  (forall x, In x l -> f x = true -> g x = true) ->
  List.length (filter f l) <= List.length (filter g l).
Proof.
  induction l as [|x l IH]; intro H; simpl; [lia|].
  assert (List.length (filter f l) <= List.length (filter g l)) as Le
    by (apply IH; intros y I; apply H; now right).
  destruct (f x) eqn:F.
  - rewrite (H x (or_introl eq_refl) F). simpl. lia.
  - destruct (g x); simpl; lia.
Qed.

Lemma filter_count_lt {A : Type} (f g : A -> bool) (l : list A) (a : A) :
  (forall x, In x l -> f x = true -> g x = true) ->
  In a l -> f a = false -> g a = true ->
  List.length (filter f l) < List.length (filter g l).
Proof.
  induction l as [|x l IH]; intros H I Fa Ga; simpl; [contradiction|].
  assert (List.length (filter f l) <= List.length (filter g l)) as Le
    by (apply filter_count_le; intros y Iy; apply H; now right).
  destruct I as [->|I].
  - rewrite Fa, Ga. simpl. lia.
  - assert (List.length (filter f l) < List.length (filter g l)) as Lt
      by (apply IH; try assumption; intros y Iy; apply H; now right).
    destruct (f x) eqn:F.
    + rewrite (H x (or_introl eq_refl) F). simpl. lia.
    + destruct (g x); simpl; lia.
Qed.

Lemma unvisited_ext (n : nat) (m1 m2 : list (loc * loc)) :
  memo_ext m1 m2 -> unvisited n m2 <= unvisited n m1.
Proof.
  intro X. apply filter_count_le. intros a _. unfold unknown.
  destruct (memo_get a m1) as [b|] eqn:G; [|reflexivity].
  now rewrite (X _ _ G).
Qed.

Lemma unvisited_cons (n : nat) (l l' : loc) (memo : list (loc * loc)) :
  memo_get l memo = None -> l < n ->
  unvisited n ((l, l') :: memo) < unvisited n memo.
Proof.
  intros N L. apply (filter_count_lt _ _ _ l).
  - intros a _. unfold unknown. rewrite memo_get_cons.
    destruct (Nat.eqb a l); [discriminate|trivial].
  - apply in_seq. lia.
  - unfold unknown. now rewrite memo_get_cons, Nat.eqb_refl.
  - unfold unknown. now rewrite N.
Qed.

Lemma copy_each_returns {A : Type} copy (slot : A -> ref) (put : A -> ref -> A)
    (fuel : nat) :
  copies_same h0 copy -> copy_returns h0 fuel copy ->
  forall xs memo h,
    Forall (ref_below (List.length h0)) (map slot xs) ->
    List.length h0 <= List.length h ->
    same_below (List.length h0) h0 h ->
    unvisited (List.length h0) memo < fuel ->
    copy_each copy slot put xs memo h <> None.
Proof.
  intros C R. induction xs as [|x xs IH]; intros memo h Below L S U; simpl;
    [discriminate|].
  inversion Below as [|? ? Bx Bxs]; subst.
  pose proof (R _ _ _ Bx L S U) as First.
  destruct (copy (slot x) memo h) as [[[r1 memo1] h1]|] eqn:E; [|contradiction].
  destruct (C _ _ _ _ _ _ E Bx L S) as ((X1 & L1 & S1 & _) & _).
  assert (copy_each copy slot put xs memo1 h1 <> None) as Rest.
  { apply IH; [assumption|lia| |].
    - intros l Ll. rewrite S1 by lia. now apply S.
    - pose proof (unvisited_ext (List.length h0) _ _ X1). lia. }
  destruct (copy_each copy slot put xs memo1 h1) as [[[xs2 memo2] h2]|];
    [discriminate|contradiction].
Qed.

(** A deep copy returns when its fuel exceeds the number of objects it
    has not met yet. *)
Lemma deepcopy_returns (depth : nat) : copy_returns h0 depth (deepcopy depth).
Proof.
  induction depth as [|depth IH]; intros r memo h Below L Sb U; [lia|].
  destruct r; simpl; try discriminate.
  destruct (memo_get l memo) as [l1|] eqn:G; [discriminate|].
  simpl in Below. rewrite (Sb l Below).
  assert (nth_error h0 l <> None) as Some_o by now apply nth_error_Some.
  pose proof (unvisited_cons (List.length h0) l (List.length h) memo G Below) as Less.
  destruct (nth_error h0 l) as [[rs|es]|] eqn:O; [| |contradiction].
  - assert (copy_each (deepcopy depth) (fun r => r) (fun _ r => r) rs
              ((l, List.length h) :: memo) (h ++ [OList []]) <> None) as Rest.
    { apply (copy_each_returns _ _ _ depth (deepcopy_same depth) IH).
      - rewrite map_id. exact (Closed l _ O).
      - rewrite length_app. simpl. lia.
      - intros x Lx. rewrite nth_error_app1 by lia. now apply Sb.
      - apply (Nat.lt_le_trans _ _ _ Less). lia. }
    destruct (copy_each _ _ _ rs _ _) as [[[rs' memo1] h1]|];
      [discriminate|contradiction].
  - assert (copy_each (deepcopy depth) snd (fun e r => (fst e, r)) es
              ((l, List.length h) :: memo) (h ++ [ODict []]) <> None) as Rest.
    { apply (copy_each_returns _ _ _ depth (deepcopy_same depth) IH).
      - exact (Closed l _ O).
      - rewrite length_app. simpl. lia.
      - intros x Lx. rewrite nth_error_app1 by lia. now apply Sb.
      - apply (Nat.lt_le_trans _ _ _ Less). lia. }
    destruct (copy_each _ _ _ es _ _) as [[[es' memo1] h1]|];
      [discriminate|contradiction].
Qed.

Lemma load_each_map {A B : Type} (ld ld' : ref -> option value) (slot : A -> ref)
    (mk : A -> value -> B) (g : A -> A) (xs : list A) :
  (forall x, In x xs -> ld (slot (g x)) = ld' (slot x)) ->
  (forall x v, mk (g x) v = mk x v) ->
  load_each ld slot mk (map g xs) = load_each ld' slot mk xs.
Proof.
  intros H M. induction xs as [|x xs IH]; simpl; [reflexivity|].
  rewrite H by now left. rewrite IH by (intros y I; apply H; now right).
  destruct (ld' (slot x)); [|reflexivity].
  destruct (load_each ld' slot mk xs); [|reflexivity]. now rewrite M.
Qed.

(** Where every object the memo knows is a finished copy, the copy of
    a reference reads as the reference does. *)
Lemma load_copied (memo : list (loc * loc)) (h : heap) :
  (forall a b, memo_get a memo = Some b -> copied h0 memo h a b) ->
  forall depth r, covered memo r -> load depth h (map_ref memo r) = load depth h0 r.
Proof.
  intro Done. induction depth as [|depth IH]; intros r C.
  - destruct r; try reflexivity. cbn in *.
    destruct (memo_get l memo); [reflexivity|contradiction].
  - destruct r; try reflexivity. cbn [map_ref covered] in *.
    destruct (memo_get l memo) as [b|] eqn:G; [|contradiction].
    destruct (Done l b G) as (o & O & O' & Cov).
    cbn [load]. rewrite O, O'. rewrite Forall_forall in Cov.
    destruct o as [rs|es]; cbn [map_obj slots] in *.
    + f_equal.
      apply (load_each_map _ _ (fun r => r) (fun _ v => v) (map_ref memo)).
      * intros x I. now apply IH, Cov.
      * reflexivity.
    + f_equal.
      apply (load_each_map _ _ snd (fun e v => (fst e, v))
               (fun e => (fst e, map_ref memo (snd e)))).
      * intros x I. apply IH, Cov. now apply in_map.
      * reflexivity.
Qed.

(** What a deep copy that started with an empty memo has done when it
    returns, and that it returns under a limit above the number of
    objects. *)
Lemma deepcopy_from_empty (limit : nat) (cidict : ref) :
  ref_below (List.length h0) cidict ->
  (List.length h0 < limit -> deepcopy limit cidict [] h0 <> None)
  /\ forall copy memo h1,
       deepcopy limit cidict [] h0 = Some (copy, memo, h1) ->
       copy = map_ref memo cidict
       /\ covered memo cidict
       /\ same_below (List.length h0) h0 h1
       /\ (forall a b, memo_get a memo = Some b ->
             List.length h0 <= b < List.length h1 /\ copied h0 memo h1 a b)
       /\ forall depth, load depth h1 copy = load depth h0 cidict.
Proof.
  intro Below. split.
  - intro Enough. apply deepcopy_returns; [assumption|lia|now intros l L|].
    unfold unvisited.
    rewrite forallb_filter_id by (apply forallb_forall; reflexivity).
    now rewrite length_seq.
  - intros copy memo h1 E.
    destruct (deepcopy_same _ _ _ _ _ _ _ E Below (Nat.le_refl _) ltac:(now intros l L))
      as ((_ & _ & Same & New) & -> & Cov).
    split; [reflexivity|]. split; [assumption|]. split; [assumption|].
    split; [intros a b G; now apply New|].
    intro depth. apply load_copied; [|assumption].
    intros a b G. now apply New.
Qed.

End CopySame.

(** X30.  The deep copy of [get_cidict] on a store without dangling
    references, under any recursion limit.  It raises RecursionError
    where the nesting of the pipeline exceeds the limit; a limit above
    the number of objects of the store is never exceeded.  When it
    returns, what it returns is the copy of the pipeline under the memo;
    the objects that were there are untouched; every object the memo
    knows has a new object as its copy, which holds, slot by slot, the
    same scalars and the copies of the same objects -- so that two
    holders of one object hold one copy, and an object that holds itself
    has a copy that holds itself --; and the copy reads, to every depth,
    as the internal pipeline does. *)
Theorem get_cidict_copy_reads_same (limit : nat) (h : Store.heap) (cidict : Store.ref) :
  Store.heap_closed h ->
  Store.ref_below (List.length h) cidict ->
  (List.length h < limit -> Store.deepcopy limit cidict [] h <> None)
  /\ forall copy memo h1,
       Store.deepcopy limit cidict [] h = Some (copy, memo, h1) ->
       copy = Store.map_ref memo cidict
       /\ Store.covered memo cidict
       /\ Store.same_below (List.length h) h h1
       /\ (forall a b, Store.memo_get a memo = Some b ->
             List.length h <= b < List.length h1 /\ Store.copied h memo h1 a b)
       /\ forall depth, Store.load depth h1 copy = Store.load depth h cidict.
Proof. intros Closed Below. now apply deepcopy_from_empty. Qed.

Lemma get_cidict_copy_reads_same_witness :
  (List.length (fst Doc.self_holding) < 2 ->
   Store.deepcopy 2 (snd Doc.self_holding) [] (fst Doc.self_holding) <> None)
  /\ forall copy memo h1,
       Store.deepcopy 2 (snd Doc.self_holding) [] (fst Doc.self_holding)
       = Some (copy, memo, h1) ->
       copy = Store.map_ref memo (snd Doc.self_holding)
       /\ Store.covered memo (snd Doc.self_holding)
       /\ Store.same_below (List.length (fst Doc.self_holding)) (fst Doc.self_holding) h1
       /\ (forall a b, Store.memo_get a memo = Some b ->
             List.length (fst Doc.self_holding) <= b < List.length h1
             /\ Store.copied (fst Doc.self_holding) memo h1 a b)
       /\ forall depth,
            Store.load depth h1 copy
            = Store.load depth (fst Doc.self_holding) (snd Doc.self_holding).
Proof.
  apply (get_cidict_copy_reads_same 2 (fst Doc.self_holding) (snd Doc.self_holding)).
  - apply heap_closedb_closed. vm_compute. reflexivity.
  - vm_compute. lia.
Defined.
